(** * CAFE reward: a shallow embedding of [rl_qoc/rewards/cafe/cafe_reward.py]

    The development follows the three methods of [CAFEReward]:
    - [get_reward_with_primitive], the reward estimator;
    - [get_reward_data], the static probe synthesizer with its input-state
      sampling step;
    - [get_real_time_circuit], the real-time probe program synthesizer.

    Conventions.  Python exceptions are values of [exception] and fallible
    code returns [result].  Python integers are [Z] (or [nat] for lengths and
    sizes).  Real-valued quantities (the quotients [count / n_shots] and
    [np.mean]) are computed over the exact rationals [Q]; rounding of the
    machine floats is outside the model.  The operations of Qiskit and NumPy
    that the methods call are written from their documented behaviour, as far
    as the methods depend on it; the simulator, the generator, the transpiler
    and the helpers of this repository that are not among the sources are the
    fields of the class [Collaborators] and of the configuration records. *)

From Stdlib Require Import String.
From Stdlib Require Import List ZArith QArith Bool Arith Lia Sorted.
Import ListNotations.

Set Warnings "-register-all".
Open Scope Z_scope.

(* ===================================================================== *)
(** * Exceptions and results *)
(* ===================================================================== *)

Inductive exception : Type :=
| ValueError (msg : string)
| IndexError
| AssertionError (msg : string)
| ZeroDivisionError
| KeyError (key : string)
| NameError (name : string)
| CircuitError (msg : string)
| ExternalError (msg : string).

Definition result (A : Type) : Type := (exception + A)%type.

Abbreviation ok := (@inr exception _) (only parsing).
Abbreviation raise := (@inl exception _) (only parsing).

Definition rbind {A B} (m : result A) (k : A -> result B) : result B :=
  match m with
  | inl e => inl e
  | inr a => k a
  end.

Declare Scope result_scope.
Delimit Scope result_scope with result.
Notation "x <- m ;; k" := (rbind m (fun x => k))
  (at level 61, m at next level, right associativity) : result_scope.
Notation "' pat <- m ;; k" := (rbind m (fun x => match x with pat => k end))
  (at level 61, pat pattern, m at next level, right associativity) : result_scope.

(** [l[i]] for a non-negative position: [IndexError] out of range. *)
Definition index {A} (l : list A) (i : nat) : result A :=
  match nth_error l i with
  | Some a => ok a
  | None => raise IndexError
  end.

(** A list comprehension whose body may raise: the first exception wins. *)
Fixpoint comprehension {A B} (f : A -> result B) (l : list A) : result (list B) :=
  match l with
  | [] => ok []
  | a :: t =>
      (b <- f a ;;
       bs <- comprehension f t ;;
       ok (b :: bs))%result
  end.

(** [range(n)] *)
Definition range (n : nat) : list nat := seq 0 n.

(** [enumerate(l)] *)
Definition enumerate {A} (l : list A) : list (nat * A) :=
  combine (seq 0 (length l)) l.

(* ===================================================================== *)
(** * Circuits *)
(* ===================================================================== *)

Definition Qubit := nat.
Definition Clbit := nat.

(** A complex matrix with exact entries, as returned by the unitary
    simulator; [adjoint] is the conjugate transpose. *)
Definition Complex := (Q * Q)%type.
Definition Unitary := list (list Complex).

Definition conj (c : Complex) : Complex := (fst c, Qopp (snd c)).

Fixpoint transpose (m : Unitary) : Unitary :=
  match m with
  | [] => []
  | [row] => map (fun c => [c]) row
  | row :: rest => map (fun p => fst p :: snd p) (combine row (transpose rest))
  end.

Definition adjoint (u : Unitary) : Unitary := map (map conj) (transpose u).

Record ClassicalRegister := mkCReg { creg_size : nat; creg_name : string }.

(** Names of the run-time inputs the synthesizer declares:
    ["n_reps"], [f"input_state_{i}"], ["circuit_choice"]; any other name a
    supplied circuit already carries is an [OtherVar]. *)
Inductive VarName : Type :=
| n_reps_name
| input_state_name (i : nat)
| circuit_choice_name
| OtherVar (s : string).

(** [Uint(width)] variable *)
Record Var := mkVar { var_name : VarName; var_width : nat }.

Inductive Instruction : Type :=
| OpGate (name : string) (qargs : list Qubit)
| OpReset (qargs : list Qubit)
| OpDelay (duration : Z) (qargs : list Qubit)
| OpBarrier
| OpUnitary (u : Unitary) (qargs : list Qubit) (label : string)
| OpSaveUnitary
| OpMeasureAll
| OpMeasure (qargs : list Qubit) (creg : ClassicalRegister)
| OpComposed (body : list Instruction) (qargs : list Qubit)
| OpSwitch (target : Var) (cases : list (Z * list Instruction)).

(** A [QuantumCircuit]: its structure (qubits, classical bits and registers,
    declared inputs, the baseline circuit carried in its metadata) and its
    instruction list [data]. *)
Inductive QuantumCircuit : Type :=
  mkQC {
    qc_name : string;
    qubits : list Qubit;
    clbits : list Clbit;
    cregs : list ClassicalRegister;
    inputs : list Var;
    baseline_circuit : option QuantumCircuit;
    data : list Instruction
  }.

Definition num_qubits (qc : QuantumCircuit) : nat := length (qubits qc).

(** [qc.copy_empty_like(name=...)]: same structure, no instructions; the
    name is kept when none is given. *)
Definition copy_empty_like (qc : QuantumCircuit) (name : option string) : QuantumCircuit :=
  mkQC (match name with Some n => n | None => qc_name qc end)
       (qubits qc) (clbits qc) (cregs qc) (inputs qc) (baseline_circuit qc) [].

Definition with_data (qc : QuantumCircuit) (d : list Instruction) : QuantumCircuit :=
  mkQC (qc_name qc) (qubits qc) (clbits qc) (cregs qc) (inputs qc) (baseline_circuit qc) d.

(** Appending in the outermost scope of the circuit. *)
Definition append (qc : QuantumCircuit) (d : list Instruction) : QuantumCircuit :=
  with_data qc (data qc ++ d).

(** [bool(circ.data)]: the circuit has at least one instruction. *)
Definition has_data (qc : QuantumCircuit) : bool :=
  match data qc with [] => false | _ => true end.

(** [qc.compose(other, qubits, inplace=True)] in the current scope: the
    instructions of [other] placed on [qargs]. *)
Definition compose (other : QuantumCircuit) (qargs : list Qubit) : Instruction :=
  OpComposed (data other) qargs.

(* ===================================================================== *)
(** * Bit arrays and sampler pubs *)
(* ===================================================================== *)

(** A [BitArray] without shape axes: [num_bits] measured bits per shot, one
    integer outcome per shot; bit [i] of the outcome is classical bit
    [creg[i]] (position 0 is the least significant bit). *)
Record BitArray := mkBitArray { num_bits : nat; shot_values : list Z }.

Definition num_shots (ba : BitArray) : nat := length (shot_values ba).

(** [ba.get_int_counts().get(k, 0)] *)
Definition get_int_count (ba : BitArray) (k : Z) : nat :=
  count_occ Z.eq_dec (shot_values ba) k.

(** One condition of [postselect]: classical bit [idx] (negative positions
    count from the end) must read [sel]. *)
Definition bit_matches (nbits : nat) (s : Z) (cond : Z * bool) : bool :=
  Bool.eqb (Z.testbit s (fst cond mod Z.of_nat nbits)) (snd cond).

(** [ba.postselect(indices, selection)]: keeps the shots whose bits at
    [indices] equal [selection]; the bit count is unchanged.
    [ValueError] when the lengths differ, [IndexError] when a position is
    outside [-num_bits, num_bits). *)
Definition postselect (ba : BitArray) (indices : list Z) (selection : list bool)
  : result BitArray :=
  if negb (length selection =? length indices)%nat then
    raise (ValueError "Lengths of indices and postselection do not match.")
  else if existsb (fun i => (Z.of_nat (num_bits ba) <=? i) || (i <? - Z.of_nat (num_bits ba)))
                  indices then
    raise IndexError
  else
    ok (mkBitArray (num_bits ba)
          (filter (fun s => forallb (bit_matches (num_bits ba) s) (combine indices selection))
                  (shot_values ba))).

(** A sampler pub [(circuit, parameter_values, shots)]; [parameter_values]
    is a two-dimensional array, one row per batch element. *)
Record SamplerPub := mkPub {
  pub_circuit : QuantumCircuit;
  parameter_values : list (list Q);
  shots : Z
}.

(** [pub.parameter_values.shape[0]] *)
Definition shape0 (p : SamplerPub) : nat := length (parameter_values p).

(** Modelled from the spec: the Reward Data container [CAFERewardDataList],
    whose module is not among the sources.  The spec describes it as "an
    ordered sequence of probes plus the bookkeeping needed to interpret their
    results"; the estimator reads three attributes of it, kept here as
    fields with no relation assumed among them. *)
Record CAFERewardDataList := mkRewardDataList {
  pubs : list SamplerPub;
  causal_cone_qubits_indices : list Z;
  causal_cone_size : nat
}.

(** What [primitive.run(pubs).result()] yields: per pub, per batch element,
    the bit array of the register [meas]; or the exception it raised.  (The
    bit arrays of one pub result share their bit count in Qiskit; nothing
    below relies on it.) *)
Definition PubResults := list (list BitArray).
Definition Primitive := list SamplerPub -> result PubResults.

(* ===================================================================== *)
(** * The reward estimator *)
(* ===================================================================== *)

(** [a / b] on Python integers. *)
Definition py_div (a b : Z) : result Q :=
  if b =? 0 then raise ZeroDivisionError
  else ok (inject_Z a / inject_Z b)%Q.

(** Element-wise sum of two rows. *)
Fixpoint row_add (r1 r2 : list Q) : list Q :=
  match r1, r2 with
  | x :: t1, y :: t2 => (x + y)%Q :: row_add t1 t2
  | _, _ => []
  end.

(** [np.mean(rows, axis=0)] for a non-empty rectangular [rows]: the rows
    are added up element-wise and the sum is divided by their number. *)
Definition np_mean_axis0 (rows : list (list Q)) : list Q :=
  match rows with
  | [] => []
  | r :: rest =>
      map (fun s => (s / inject_Z (Z.of_nat (length rows)))%Q)
          (fold_left row_add rest r)
  end.

(** [[pub_result.data.meas[i] for i in range(batch_size)]] *)
Definition meas_batch (batch_size : nat) (pub_result : list BitArray)
  : result (list BitArray) :=
  comprehension (index pub_result) (range batch_size).

(** Lines 209-215: no post-selection. *)
Definition survival_direct (n_shots : Z) (batch_size : nat) (pub_results : PubResults)
  : result (list (list Q)) :=
  (pub_data <- comprehension (meas_batch batch_size) pub_results ;;
   comprehension
     (comprehension (fun bit_array => py_div (Z.of_nat (get_int_count bit_array 0)) n_shots))
     pub_data)%result.

(** Lines 218-231: post-selection on the causal-cone bits. *)
Definition survival_postselected (indices : list Z) (cone_size : nat)
    (n_shots : Z) (batch_size : nat) (pub_results : PubResults)
  : result (list (list Q)) :=
  (pub_data <-
     comprehension
       (fun pub_result =>
          comprehension
            (fun i => m <- index pub_result i ;;
                      postselect m indices (repeat false cone_size))
            (range batch_size))
       pub_results ;;
   comprehension
     (comprehension (fun bit_array => py_div (Z.of_nat (num_shots bit_array)) n_shots))
     pub_data)%result.

Definition all_same_shots (n_shots : Z) (ps : list SamplerPub) : bool :=
  forallb (fun pub => shots pub =? n_shots) ps.

Definition all_same_batch (batch_size : nat) (ps : list SamplerPub) : bool :=
  forallb (fun pub => (shape0 pub =? batch_size)%nat) ps.

(** Lines 194-231: everything up to the table [survival_probability]. *)
Definition survival_probability (reward_data : CAFERewardDataList) (primitive : Primitive)
  : result (list (list Q)) :=
  (pub_results <- primitive (pubs reward_data) ;;
   pub0 <- index (pubs reward_data) 0 ;;
   let batch_size := shape0 pub0 in
   let n_shots := shots pub0 in
   if negb (all_same_shots n_shots (pubs reward_data)) then
     raise (AssertionError "All pubs should have the same number of shots")
   else if negb (all_same_batch batch_size (pubs reward_data)) then
     raise (AssertionError "All pubs should have the same batch size")
   else
     res0 <- index pub_results 0 ;;
     meas0 <- index res0 0 ;;
     if (num_bits meas0 =? causal_cone_size reward_data)%nat then
       survival_direct n_shots batch_size pub_results
     else
       survival_postselected (causal_cone_qubits_indices reward_data)
         (causal_cone_size reward_data) n_shots batch_size pub_results)%result.

Definition get_reward_with_primitive (reward_data : CAFERewardDataList)
    (primitive : Primitive) : result (list Q) :=
  (sp <- survival_probability reward_data primitive ;;
   ok (np_mean_axis0 sp))%result.

(** ** Reference quantities for the estimator *)

Definition Qsum (l : list Q) : Q := fold_right Qplus 0%Q l.

(** The arithmetic mean of a non-empty list of numbers. *)
Definition arithmetic_mean (l : list Q) : Q :=
  (Qsum l / inject_Z (Z.of_nat (length l)))%Q.

(** Column [b] of a table: the value of batch element [b] for each probe. *)
Definition column (table : list (list Q)) (b : nat) : list Q :=
  map (fun row => nth b row 0%Q) table.

(** All classical bits at the positions [indices] of outcome [s] read zero. *)
Definition cone_bits_zero (nbits : nat) (indices : list Z) (s : Z) : bool :=
  forallb (fun i => negb (Z.testbit s (i mod Z.of_nat nbits))) indices.

(** All measured bits of outcome [s] outside the positions [indices] read
    zero. *)
Definition other_bits_zero (nbits : nat) (indices : list Z) (s : Z) : bool :=
  forallb (fun k => existsb (fun i => i mod Z.of_nat nbits =? Z.of_nat k) indices
                    || negb (Z.testbit s (Z.of_nat k)))
          (range nbits).

(** Number of shots of [ba] whose causal-cone bits all read zero. *)
Definition cone_zero_count (ba : BitArray) (indices : list Z) : nat :=
  length (filter (cone_bits_zero (num_bits ba) indices) (shot_values ba)).

(** The survival probability in the words of the specification: the shots
    are post-selected on the other measured bits reading all-zero, and the
    survival probability is the fraction of those conditioned shots whose
    causal-cone bits read all-zero. *)
Definition conditioned_all_zero_fraction (ba : BitArray) (indices : list Z) : result Q :=
  let conditioned := filter (other_bits_zero (num_bits ba) indices) (shot_values ba) in
  py_div (Z.of_nat (length (filter (cone_bits_zero (num_bits ba) indices) conditioned)))
         (Z.of_nat (length conditioned)).

(* ===================================================================== *)
(** * Configuration objects and collaborators *)
(* ===================================================================== *)

Inductive InputStatesChoice : Type := pauli4 | pauli6 | two_design.

Record InputState := mkInputState { circuit : QuantumCircuit }.

Definition Layout := list nat.

Module GateTarget.
Record t := mk {
  layout : Layout;
  causal_cone_size : nat;
  causal_cone_qubits : list Qubit;
  causal_cone_qubits_indices : list Z;
  physical_qubits : list Qubit;
  input_states : InputStatesChoice -> list InputState
}.
End GateTarget.

(** The target handed to the reward: a gate target or something else
    ([isinstance(target, GateTarget)]). *)
Inductive Target : Type :=
| IsGateTarget (g : GateTarget.t)
| IsOtherTarget.

Record Backend := mkBackend { backend_name : string; is_aer_simulator : bool }.

(** [AerSimulator()] *)
Definition AerSimulator : Backend := mkBackend "aer_simulator" true.

(** Keyword arguments of [custom_transpile]; [None] when not passed. *)
Record TranspileOptions := mkTranspileOptions {
  initial_layout : option Layout;
  scheduling : option bool;
  optimization_level : option nat;
  remove_final_measurements : option bool
}.

Record BackendInfo := mkBackendInfo {
  backend : Backend;
  custom_transpile : QuantumCircuit -> TranspileOptions -> result QuantumCircuit
}.

Record ExecutionConfig := mkExecutionConfig {
  n_reps : list Z;
  current_n_reps : Z;
  n_shots : Z;
  control_flow_enabled : bool
}.

Record QEnvConfig := mkQEnvConfig {
  execution_config : ExecutionConfig;
  backend_info : BackendInfo;
  sampling_paulis : nat
}.

(** [n_reps_var]: the run-time input ["n_reps"], or the current repetition
    count when a single count is configured. *)
Definition NRepsVar := (Var + Z)%type.

(** The library functions and the helpers of the repository that the
    synthesizers call and whose code is not among the sources.
    - [default_rng], [rng_choice]: NumPy's generator; [rng_choice g a size]
      is [g.choice(a, size, replace=True)], returning the draws (each below
      [a]) and the advanced generator;
    - [run_unitary]: [backend.run(qc, method="unitary").result().get_unitary()];
    - [decompose], [inverse], [repeat_circuit]: the circuit methods
      [decompose()], [inverse()], [repeat(n)];
    - [handle_n_reps], [causal_cone_circuit],
      [get_input_states_cardinality_per_qubit],
      [get_single_qubit_input_states], [handle_real_time_n_reps]: helpers of
      [rl_qoc.helpers] and [rl_qoc.rewards.real_time_utils];
      [handle_real_time_n_reps] yields the instructions it appends to the
      scope of the program that is open when it is called. *)
Class Collaborators := {
  Generator : Type;
  default_rng : Z -> Generator;
  rng_choice : Generator -> nat -> nat -> result (list nat * Generator);
  run_unitary : Backend -> QuantumCircuit -> result Unitary;
  decompose : QuantumCircuit -> QuantumCircuit;
  inverse : QuantumCircuit -> result QuantumCircuit;
  repeat_circuit : QuantumCircuit -> Z -> QuantumCircuit;
  handle_n_reps : QuantumCircuit -> Z -> Backend -> bool -> result QuantumCircuit;
  causal_cone_circuit : QuantumCircuit -> list Qubit -> result (QuantumCircuit * list Qubit);
  get_input_states_cardinality_per_qubit : InputStatesChoice -> nat;
  get_single_qubit_input_states : InputStatesChoice -> list QuantumCircuit;
  handle_real_time_n_reps :
    list Z -> NRepsVar -> QuantumCircuit -> QuantumCircuit -> result (list Instruction)
}.

(* ===================================================================== *)
(** * The reward object and the input-state sampling step *)
(* ===================================================================== *)

Record CAFEReward `{Collaborators} := mkCAFEReward {
  input_states_choice : InputStatesChoice;
  input_states_seed : Z;
  input_states_rng : Generator
}.
Arguments mkCAFEReward {_} _ _ _.

(** The dataclass constructor followed by [__post_init__]. *)
Definition new_CAFEReward `{Collaborators} (choice : InputStatesChoice) (seed : Z) : CAFEReward :=
  mkCAFEReward choice seed (default_rng seed).

Definition set_reward_seed `{Collaborators} (self : CAFEReward) (seed : Z) : CAFEReward :=
  let input_states_seed' := seed + 357 in
  mkCAFEReward (input_states_choice self) input_states_seed' (default_rng input_states_seed').

(** Insertion into an increasing list without repetition. *)
Fixpoint insert_unique (x : nat) (l : list nat) : list nat :=
  match l with
  | [] => [x]
  | y :: t =>
      if (x <? y)%nat then x :: l
      else if (x =? y)%nat then l
      else y :: insert_unique x t
  end.

(** [np.unique(a)]: the distinct values of [a], in increasing order. *)
Definition np_unique (a : list nat) : list nat := fold_right insert_unique [] a.

(** Lines 84-90: the draw with replacement and its deduplication.  The
    generator of [self] is advanced by the draw. *)
Definition sample_input_states `{Collaborators} (self : CAFEReward)
    (target : GateTarget.t) (env_config : QEnvConfig)
  : result (list nat) * CAFEReward :=
  match rng_choice (input_states_rng self)
          (length (GateTarget.input_states target (input_states_choice self)))
          (sampling_paulis env_config) with
  | inl e => (raise e, self)
  | inr (draws, rng') =>
      (ok (np_unique draws),
       mkCAFEReward (input_states_choice self) (input_states_seed self) rng')
  end.

(* ===================================================================== *)
(** * The static probe synthesizer *)
(* ===================================================================== *)

(** Number of entries of an array of the given shape. *)
Definition shape_size (shape : list nat) : nat := fold_right Nat.mul 1%nat shape.

Fixpoint unravel (idx : nat) (shape : list nat) : list nat :=
  match shape with
  | [] => []
  | _ :: rest => (idx / shape_size rest)%nat :: unravel (idx mod shape_size rest)%nat rest
  end.

(** [np.unravel_index(idx, shape)] in row-major order. *)
Definition unravel_index (idx : nat) (shape : list nat) : result (list nat) :=
  if (shape_size shape <=? idx)%nat then
    raise (ValueError "index is out of bounds for array with given shape")
  else ok (unravel idx shape).

(** The flat position of a multi-index ([np.ravel_multi_index]). *)
Fixpoint ravel (multi shape : list nat) : nat :=
  match multi, shape with
  | i :: mt, _ :: st => (i * shape_size st + ravel mt st)%nat
  | _, _ => 0%nat
  end.

(** The record built at lines 161-172, one per probe. *)
Record CAFERewardData := mkCAFERewardData {
  rd_pub : SamplerPub;
  rd_input_circuit : QuantumCircuit;
  rd_n_reps : Z;
  rd_input_indices : list nat;
  rd_reverse_circuit : QuantumCircuit;
  rd_causal_cone_qubits_indices : list Z
}.

(** [qc.compose(other, inplace=True)] without qubits: [other] is placed on
    the leading qubits of [qc]. *)
Definition compose_front (qc other : QuantumCircuit) : QuantumCircuit :=
  append qc [compose other (firstn (num_qubits other) (qubits qc))].

(** [qc.measure_all()]: a new register ["meas"] over all qubits. *)
Definition measure_all (qc : QuantumCircuit) : QuantumCircuit :=
  mkQC (qc_name qc) (qubits qc)
       (clbits qc ++ seq (length (clbits qc)) (num_qubits qc))
       (cregs qc ++ [mkCReg (num_qubits qc) "meas"])
       (inputs qc) (baseline_circuit qc)
       (data qc ++ [OpMeasureAll]).

Section StaticProbes.
Context `{Collaborators}.
Variables (self : CAFEReward) (qc : QuantumCircuit) (params : list (list Q))
          (target : GateTarget.t) (env_config : QEnvConfig)
          (circuit_ref : QuantumCircuit).

Let execution_cfg := execution_config env_config.
Let backend_inf := backend_info env_config.

(** Lines 109-122, one turn of the loop over the run and the reference
    circuit. *)
Definition bind_input_state_and_cycle (input_state : InputState)
    (circuit_ context : QuantumCircuit) (control_flow : bool) : result QuantumCircuit :=
  let circuit_ :=
    append circuit_ [compose (circuit input_state) (GateTarget.causal_cone_qubits target)] in
  let circuit_ := append circuit_ [OpBarrier] in
  (cycle_circuit <- handle_n_reps context (current_n_reps execution_cfg)
                      (backend backend_inf) control_flow ;;
   ok (compose_front circuit_ cycle_circuit))%result.

(** Lines 93-173: the body of the loop over the samples. *)
Definition probe_of_sample (sample : nat) : result CAFERewardData :=
  (input_state_indices <-
     unravel_index sample
       (repeat (get_input_states_cardinality_per_qubit (input_states_choice self))
               (GateTarget.causal_cone_size target)) ;;
   input_state <- index (GateTarget.input_states target (input_states_choice self)) sample ;;
   let run_qc := copy_empty_like qc (Some "cafe_circ"%string) in
   let ref_qc := copy_empty_like circuit_ref (Some "cafe_ref_circ"%string) in
   run_qc <- bind_input_state_and_cycle input_state run_qc qc
               (control_flow_enabled execution_cfg) ;;
   ref_qc <- bind_input_state_and_cycle input_state ref_qc circuit_ref false ;;
   cone <- causal_cone_circuit (decompose ref_qc) (GateTarget.causal_cone_qubits target) ;;
   let sim_qc := append (fst cone) [OpSaveUnitary] in
   let backend_ :=
     if is_aer_simulator (backend backend_inf) then backend backend_inf else AerSimulator in
   sim_unitary <- run_unitary backend_ sim_qc ;;
   let reverse_unitary_qc := copy_empty_like run_qc None in
   let reverse_unitary_qc :=
     append reverse_unitary_qc
       [OpUnitary (adjoint sim_unitary) (GateTarget.causal_cone_qubits target) "U_inv"] in
   reverse_unitary_qc <-
     custom_transpile backend_inf reverse_unitary_qc
       (mkTranspileOptions (Some (GateTarget.layout target)) (Some false) (Some 3%nat)
          (Some false)) ;;
   transpiled_circuit <-
     custom_transpile backend_inf run_qc
       (mkTranspileOptions (Some (GateTarget.layout target)) (Some false) None None) ;;
   let transpiled_circuit := append transpiled_circuit [OpBarrier] in
   let transpiled_circuit := compose_front transpiled_circuit reverse_unitary_qc in
   let transpiled_circuit := measure_all transpiled_circuit in
   let pub := mkPub transpiled_circuit params (n_shots execution_cfg) in
   reverse_cone <-
     (if negb (num_qubits reverse_unitary_qc =? GateTarget.causal_cone_size target)%nat
      then cone' <- causal_cone_circuit reverse_unitary_qc
                      (GateTarget.physical_qubits target) ;;
           ok (fst cone')
      else ok reverse_unitary_qc) ;;
   ok (mkCAFERewardData pub (circuit input_state)
         (current_n_reps execution_cfg) input_state_indices reverse_cone
         (GateTarget.causal_cone_qubits_indices target)))%result.
End StaticProbes.

(** [get_reward_data]: the list handed to the [CAFERewardDataList]
    constructor, or the exception raised, together with the reward object
    after the call. *)
Definition get_reward_data `{Collaborators} (self : CAFEReward) (qc : QuantumCircuit)
    (params : list (list Q)) (target : Target) (env_config : QEnvConfig)
    (baseline_circuit_arg : option QuantumCircuit)
  : result (list CAFERewardData) * CAFEReward :=
  match target with
  | IsOtherTarget =>
      (raise (ValueError "CAFE reward can only be computed for a target gate"), self)
  | IsGateTarget target =>
      match (match baseline_circuit_arg with
             | Some b => ok b
             | None =>
                 match baseline_circuit qc with
                 | Some b => ok b
                 | None => raise (KeyError "baseline_circuit")
                 end
             end) with
      | inl e => (raise e, self)
      | inr circuit_ref =>
          match sample_input_states self target env_config with
          | (inl e, self') => (raise e, self')
          | (inr input_states_samples, self') =>
              (comprehension (probe_of_sample self qc params target env_config circuit_ref)
                 input_states_samples,
               self')
          end
      end
  end.

(* ===================================================================== *)
(** * The real-time probe program synthesizer *)
(* ===================================================================== *)

(** ** Computations that run the unitary simulator

    A run of the simulator is recorded with the context index and the
    repetition count it is made for; the record is kept when an exception
    ends the computation. *)
Definition SimRun := (nat * Z)%type.
Definition Sim (A : Type) : Type := list SimRun -> result A * list SimRun.

Definition sim_ret {A} (a : A) : Sim A := fun log => (ok a, log).

Definition sim_bind {A B} (m : Sim A) (k : A -> Sim B) : Sim B :=
  fun log =>
    match m log with
    | (inl e, log') => (inl e, log')
    | (inr a, log') => k a log'
    end.

Definition lift {A} (r : result A) : Sim A := fun log => (r, log).

Definition record_run (run : SimRun) : Sim unit := fun log => (ok tt, log ++ [run]).

Declare Scope sim_scope.
Delimit Scope sim_scope with sim.
Notation "x <- m ;; k" := (sim_bind m (fun x => k))
  (at level 61, m at next level, right associativity) : sim_scope.
Notation "' pat <- m ;; k" := (sim_bind m (fun x => match x with pat => k end))
  (at level 61, pat pattern, m at next level, right associativity) : sim_scope.

(** ** Builder operations *)

Definition VarName_eqb (a b : VarName) : bool :=
  match a, b with
  | n_reps_name, n_reps_name => true
  | input_state_name i, input_state_name j => (i =? j)%nat
  | circuit_choice_name, circuit_choice_name => true
  | OtherVar s, OtherVar t => String.eqb s t
  | _, _ => false
  end.

(** [qc.add_input(name, Uint(width))]: declares the input and returns it;
    a name already in use is refused. *)
Definition add_input (qc : QuantumCircuit) (name : VarName) (width : nat)
  : result (QuantumCircuit * Var) :=
  if existsb (fun v => VarName_eqb (var_name v) name) (inputs qc) then
    raise (CircuitError "cannot add input: name already in use")
  else
    let v := mkVar name width in
    ok (mkQC (qc_name qc) (qubits qc) (clbits qc) (cregs qc) (inputs qc ++ [v])
             (baseline_circuit qc) (data qc), v).

(** [[qc.add_input(name, Uint(8)) for name in names]] *)
Fixpoint add_inputs (qc : QuantumCircuit) (names : list VarName)
  : result (QuantumCircuit * list Var) :=
  match names with
  | [] => ok (qc, [])
  | name :: rest =>
      ('(qc1, v) <- add_input qc name 8 ;;
       '(qc2, vs) <- add_inputs qc1 rest ;;
       ok (qc2, v :: vs))%result
  end.

(** [qc.add_register(creg)] for a classical register of fresh bits. *)
Definition add_register (qc : QuantumCircuit) (creg : ClassicalRegister) : QuantumCircuit :=
  mkQC (qc_name qc) (qubits qc)
       (clbits qc ++ seq (length (clbits qc)) (creg_size creg))
       (cregs qc ++ [creg]) (inputs qc) (baseline_circuit qc) (data qc).

(** The cases of a [switch] statement, in the order they are entered: a
    case value already used is refused when its case is entered, before
    the body of the case is built. *)
Fixpoint build_cases {A} (body : A -> result (list Instruction)) (seen : list Z)
    (items : list (Z * A)) : result (list (Z * list Instruction)) :=
  match items with
  | [] => ok []
  | (value, a) :: rest =>
      if existsb (Z.eqb value) seen then raise (CircuitError "duplicate case label")
      else
        (block <- body a ;;
         cases <- build_cases body (value :: seen) rest ;;
         ok ((value, block) :: cases))%result
  end.

(** [with qc.switch(target) as case: for value, a in items: with case(value): body a] *)
Definition switch {A} (target : Var) (items : list (Z * A))
    (body : A -> result (list Instruction)) : result Instruction :=
  (cases <- build_cases body [] items ;;
   ok (OpSwitch target cases))%result.

(** The items of a loop [for i, a in enumerate(l)] whose case value is [i]. *)
Definition enumerate_cases {A} (l : list A) : list (Z * A) :=
  map (fun p => (Z.of_nat (fst p), snd p)) (enumerate l).

(** [l[i].append(a)] *)
Definition append_at {A} (ll : list (list A)) (i : nat) (a : A) : result (list (list A)) :=
  match nth_error ll i with
  | None => raise IndexError
  | Some l => ok (firstn i ll ++ (l ++ [a]) :: skipn (S i) ll)
  end.

(** Line 245: a single circuit stands for the list that holds it. *)
Definition prep_circuits_of (circuits : QuantumCircuit + list QuantumCircuit)
  : list QuantumCircuit :=
  match circuits with inl c => [c] | inr l => l end.

(** Lines 388-394: the keyword arguments of the final transpilation. *)
Definition final_transpile_options (target : GateTarget.t) : TranspileOptions :=
  mkTranspileOptions (Some (GateTarget.layout target)) (Some false) (Some 1%nat) (Some false).

Definition qubits_eqb (q1 q2 : list Qubit) : bool :=
  if list_eq_dec Nat.eq_dec q1 q2 then true else false.

(** [all(q == qubits[0] for q in qubits)] *)
Definition all_same_qubits (prep_circuits : list QuantumCircuit) : bool :=
  match map qubits prep_circuits with
  | [] => true
  | q0 :: _ => forallb (fun q => qubits_eqb q q0) (map qubits prep_circuits)
  end.

(** Lines 279-282 and 378-381: the body of one input-state case. *)
Definition input_state_case (input_circuit : QuantumCircuit) (qubit : Qubit)
  : list Instruction :=
  if has_data input_circuit then [compose input_circuit [qubit]]
  else [OpDelay 16 [qubit]].

(** Lines 333-340 (and their three repetitions): the body of one inverse
    case. *)
Definition inverse_case (inverse_circuit : QuantumCircuit) (cone : list Qubit)
  : list Instruction :=
  if has_data inverse_circuit then [compose inverse_circuit cone]
  else [OpDelay 16 cone].

Section RealTime.
Context `{Collaborators}.
Variables (self : CAFEReward) (target : GateTarget.t) (env_config : QEnvConfig).

Let execution_cfg := execution_config env_config.
Let backend_inf := backend_info env_config.
Let all_n_reps := n_reps execution_cfg.
Let cone := GateTarget.causal_cone_qubits target.

(** Lines 247-266: the qubit check, the empty copy of the first circuit
    with its reset, and the declarations. *)
Definition declare_program (prep_circuits : list QuantumCircuit)
  : result (QuantumCircuit * NRepsVar * ClassicalRegister * list Var) :=
  if negb (all_same_qubits prep_circuits) then
    raise (ValueError "All circuits must have the same qubits")
  else
    (first <- index prep_circuits 0 ;;
     let qc := copy_empty_like first (Some "real_time_cafe_qc"%string) in
     let qc := append qc [OpReset (qubits qc)] in
     '(qc, n_reps_var) <-
        (if (1 <? length all_n_reps)%nat
         then '(qc', v) <- add_input qc n_reps_name 8 ;; ok (qc', (inl v : NRepsVar))
         else ok (qc, (inr (current_n_reps execution_cfg) : NRepsVar))) ;;
     '(qc, meas) <-
        (match clbits qc with
         | [] =>
             let meas := mkCReg (GateTarget.causal_cone_size target) "meas" in
             ok (add_register qc meas, meas)
         | _ :: _ =>
             meas <- index (cregs qc) 0 ;;
             if negb (creg_size meas =? GateTarget.causal_cone_size target)%nat then
               raise (ValueError
                        "Classical register size must match the target causal cone size")
             else ok (qc, meas)
         end) ;;
     '(qc, input_state_vars) <-
        add_inputs qc (map input_state_name (range (num_qubits qc))) ;;
     ok (qc, n_reps_var, meas, input_state_vars))%result.

(** Lines 268-272 *)
Definition input_circuits : list QuantumCircuit :=
  map (fun circ =>
         match input_states_choice self with
         | pauli4 | pauli6 => decompose circ
         | two_design => circ
         end)
      (get_single_qubit_input_states (input_states_choice self)).

(** Lines 276-282 and 375-381: one switch over the input states of a
    qubit. *)
Definition input_state_switch (input_state_vars : list Var) (circuits : list QuantumCircuit)
    (q_qubit : nat * Qubit) : result Instruction :=
  (var <- index input_state_vars (fst q_qubit) ;;
   switch var (enumerate_cases circuits)
     (fun input_circuit => ok (input_state_case input_circuit (snd q_qubit))))%result.

(** Lines 274-282 *)
Definition prepare_input_states (qc : QuantumCircuit) (input_state_vars : list Var)
  : result QuantumCircuit :=
  (switches <- comprehension (input_state_switch input_state_vars input_circuits)
                 (enumerate (qubits qc)) ;;
   ok (append qc switches))%result.

(** Lines 284-291: the forward branches. *)
Definition forward_branches (qc : QuantumCircuit) (prep_circuits : list QuantumCircuit)
    (n_reps_var : NRepsVar) : result (QuantumCircuit * option Var) :=
  if (1 <? length prep_circuits)%nat then
    ('(qc, circuit_choice) <- add_input qc circuit_choice_name 8 ;;
     sw <- switch circuit_choice (enumerate_cases prep_circuits)
             (fun prep_circuit =>
                handle_real_time_n_reps all_n_reps n_reps_var prep_circuit qc) ;;
     ok (append qc [sw], Some circuit_choice))%result
  else
    (first <- index prep_circuits 0 ;;
     block <- handle_real_time_n_reps all_n_reps n_reps_var first qc ;;
     ok (append qc block, None))%result.

(** Lines 301-321: the inverse of [ref_circ] repeated [n] times, for the
    context of index [i]. *)
Definition compute_inverse (i : nat) (ref_circ : QuantumCircuit) (n : Z)
  : Sim QuantumCircuit :=
  (cone1 <- lift (causal_cone_circuit (decompose (repeat_circuit ref_circ n)) cone) ;;
   let cycle_circuit := append (fst cone1) [OpSaveUnitary] in
   _ <- record_run (i, n) ;;
   sim_unitary <- lift (run_unitary AerSimulator cycle_circuit) ;;
   let inverse_circuit := copy_empty_like ref_circ (Some "inverse_circuit"%string) in
   let inverse_circuit :=
     append inverse_circuit [OpUnitary (adjoint sim_unitary) cone "U_inv"] in
   inverse_circuit <-
     lift (custom_transpile backend_inf inverse_circuit
             (mkTranspileOptions (Some (GateTarget.layout target)) (Some false)
                (Some 3%nat) (Some false))) ;;
   cone2 <- lift (causal_cone_circuit inverse_circuit (GateTarget.physical_qubits target)) ;;
   sim_ret (fst cone2))%sim.

(** Lines 300-322: the loop over the repetition counts. *)
Fixpoint compute_inverses (i : nat) (ref_circ : QuantumCircuit) (ns : list Z)
    (cycle_circuit_inverses : list (list QuantumCircuit))
  : Sim (list (list QuantumCircuit)) :=
  match ns with
  | [] => sim_ret cycle_circuit_inverses
  | n :: rest =>
      (inverse_circuit <- compute_inverse i ref_circ n ;;
       cache <- lift (append_at cycle_circuit_inverses i inverse_circuit) ;;
       compute_inverses i ref_circ rest cache)%sim
  end.

(** Lines 330-340 and 352-362: the switch over the repetition counts for
    the inverses [inverse_circuit] of one context. *)
Definition n_reps_inverse_switch (n_reps_var : NRepsVar)
    (inverse_circuit : list QuantumCircuit) : result Instruction :=
  match n_reps_var with
  | inl var =>
      switch var (map (fun jn => (snd jn, fst jn)) (enumerate all_n_reps))
        (fun j => (inv <- index inverse_circuit j ;; ok (inverse_case inv cone))%result)
  | inr _ => raise (CircuitError "invalid switch target")
  end.

(** Lines 329-349 and 351-371: the inverse of one context, selected by
    the repetition count when several are configured. *)
Definition inverse_of_context (n_reps_var : NRepsVar)
    (inverse_circuit : list QuantumCircuit) : result (list Instruction) :=
  if (1 <? length all_n_reps)%nat then
    (sw <- n_reps_inverse_switch n_reps_var inverse_circuit ;; ok [sw])%result
  else
    (inv <- index inverse_circuit 0 ;; ok (inverse_case inv cone))%result.

(** Lines 325-371: the inverse matching the circuit choice and the
    repetition count, appended to the program. *)
Definition attach_inverse (qc : QuantumCircuit) (prep_circuits : list QuantumCircuit)
    (circuit_choice : option Var) (n_reps_var : NRepsVar)
    (cycle_circuit_inverses : list (list QuantumCircuit)) : result QuantumCircuit :=
  if (1 <? length prep_circuits)%nat then
    (var <- match circuit_choice with
            | Some v => ok v
            | None => raise (NameError "circuit_choice")
            end ;;
     sw <- switch var (enumerate_cases cycle_circuit_inverses)
             (inverse_of_context n_reps_var) ;;
     ok (append qc [sw]))%result
  else
    (inverse_circuit <- index cycle_circuit_inverses 0 ;;
     block <- inverse_of_context n_reps_var inverse_circuit ;;
     ok (append qc block))%result.

(** Lines 373-381: the input-state preparation is reverted. *)
Definition revert_input_states (qc : QuantumCircuit) (input_state_vars : list Var)
    (input_state_inverses : list QuantumCircuit) : result QuantumCircuit :=
  (switches <- comprehension (input_state_switch input_state_vars input_state_inverses)
                 (enumerate cone) ;;
   ok (append qc switches))%result.

(** Lines 297-381: one turn of the loop over the reference circuits.  The
    inverse and the reverted preparation are attached inside the turn. *)
Definition inversion_turn (prep_circuits : list QuantumCircuit)
    (circuit_choice : option Var) (n_reps_var : NRepsVar) (input_state_vars : list Var)
    (input_state_inverses : list QuantumCircuit)
    (i : nat) (ref_circ : option QuantumCircuit)
    (state : QuantumCircuit * list (list QuantumCircuit))
  : Sim (QuantumCircuit * list (list QuantumCircuit)) :=
  match ref_circ with
  | None => lift (raise (ValueError "Baseline circuit not found in metadata"))
  | Some ref_circ =>
      (cache <- compute_inverses i ref_circ all_n_reps (snd state) ;;
       qc <- lift (attach_inverse (fst state) prep_circuits circuit_choice n_reps_var cache) ;;
       qc <- lift (revert_input_states qc input_state_vars input_state_inverses) ;;
       sim_ret (qc, cache))%sim
  end.

(** Lines 297-381: the loop over the reference circuits. *)
Fixpoint inversion_loop (prep_circuits : list QuantumCircuit)
    (circuit_choice : option Var) (n_reps_var : NRepsVar) (input_state_vars : list Var)
    (input_state_inverses : list QuantumCircuit)
    (ref_circuits : list (nat * option QuantumCircuit))
    (state : QuantumCircuit * list (list QuantumCircuit))
  : Sim (QuantumCircuit * list (list QuantumCircuit)) :=
  match ref_circuits with
  | [] => sim_ret state
  | (i, ref_circ) :: rest =>
      (state' <- inversion_turn prep_circuits circuit_choice n_reps_var input_state_vars
                   input_state_inverses i ref_circ state ;;
       inversion_loop prep_circuits circuit_choice n_reps_var input_state_vars
         input_state_inverses rest state')%sim
  end.

(** The program as it stands at line 383, before the optional
    transpilation. *)
Definition build_real_time_circuit (prep_circuits : list QuantumCircuit)
  : Sim QuantumCircuit :=
  ('(qc, n_reps_var, meas, input_state_vars) <- lift (declare_program prep_circuits) ;;
   qc <- lift (prepare_input_states qc input_state_vars) ;;
   '(qc, circuit_choice) <- lift (forward_branches qc prep_circuits n_reps_var) ;;
   let ref_circuits := map baseline_circuit prep_circuits in
   let cycle_circuit_inverses := repeat ([] : list QuantumCircuit) (length ref_circuits) in
   input_state_inverses <- lift (comprehension inverse input_circuits) ;;
   '(qc, _) <- inversion_loop prep_circuits circuit_choice n_reps_var input_state_vars
                 input_state_inverses (enumerate ref_circuits)
                 (qc, cycle_circuit_inverses) ;;
   sim_ret (append qc [OpMeasure cone meas]))%sim.

Definition get_real_time_circuit (circuits : QuantumCircuit + list QuantumCircuit)
    (skip_transpilation : bool) : Sim QuantumCircuit :=
  let prep_circuits := prep_circuits_of circuits in
  (qc <- build_real_time_circuit prep_circuits ;;
   if skip_transpilation then sim_ret qc
   else lift (custom_transpile backend_inf qc (final_transpile_options target)))%sim.
End RealTime.

(* ===================================================================== *)
(** * Notions used in the statements *)
(* ===================================================================== *)

(** Two results agree up to a relation on their values. *)
Definition result_rel {A B} (R : A -> B -> Prop) (r1 : result A) (r2 : result B) : Prop :=
  match r1, r2 with
  | inl e1, inl e2 => e1 = e2
  | inr a, inr b => R a b
  | _, _ => False
  end.

(** Every outcome of the bit array fits in its [num_bits] bits. *)
Definition outcomes_in_range (ba : BitArray) : Prop :=
  forall s, In s (shot_values ba) -> 0 <= s < 2 ^ Z.of_nat (num_bits ba).

(** The flat sample index a probe was built for, read back from the
    multi-index it records. *)
Definition probe_sample `{Collaborators} (self : CAFEReward) (target : GateTarget.t)
    (d : CAFERewardData) : nat :=
  ravel (rd_input_indices d)
        (repeat (get_input_states_cardinality_per_qubit (input_states_choice self))
                (GateTarget.causal_cone_size target)).

(** [qc'] is [qc] with further declarations and further instructions at the
    end: same name, qubits and metadata. *)
Definition extends (qc qc' : QuantumCircuit) : Prop :=
  qc_name qc' = qc_name qc /\
  qubits qc' = qubits qc /\
  baseline_circuit qc' = baseline_circuit qc /\
  (exists d, data qc' = data qc ++ d) /\
  (exists c, clbits qc' = clbits qc ++ c) /\
  (exists r, cregs qc' = cregs qc ++ r) /\
  (exists v, inputs qc' = inputs qc ++ v).

(** The cases of the switch over the input states of [qubit]: case [i]
    applies the [i]-th of [circuits], or a delay when it has no
    instruction. *)
Definition input_state_cases (circuits : list QuantumCircuit) (qubit : Qubit)
  : list (Z * list Instruction) :=
  map (fun ic => (Z.of_nat (fst ic), input_state_case (snd ic) qubit)) (enumerate circuits).

(** The run-time inputs [input_state_0], ..., one per qubit. *)
Definition input_state_inputs (n : nat) : list Var :=
  map (fun i => mkVar (input_state_name i) 8) (range n).

(** One switch per qubit of [qs]: the switch of the [q]-th qubit is
    controlled by the input [input_state_q] and selects among [circuits]. *)
Definition input_state_switches (circuits : list QuantumCircuit) (qs : list Qubit)
  : list Instruction :=
  map (fun q_qubit =>
         OpSwitch (mkVar (input_state_name (fst q_qubit)) 8)
                  (input_state_cases circuits (snd q_qubit)))
      (enumerate qs).

(* ===================================================================== *)
(** * Example inputs *)
(* ===================================================================== *)

(** A batch of one probe on two measured bits with the causal cone on bit 0:
    two shots, reading [01] and [10]. *)
Definition two_bit_array : BitArray := mkBitArray 2 [1; 2].

Definition two_bit_batch : CAFERewardDataList :=
  mkRewardDataList
    [mkPub (mkQC "cafe_circ" [0%nat; 1%nat] [0%nat; 1%nat] [mkCReg 2 "meas"] [] None [OpMeasureAll])
           [[]] 2]
    [0] 1.

Definition two_bit_primitive : Primitive := fun _ => ok [[two_bit_array]].

Definition measured_circuit (n : nat) : QuantumCircuit :=
  mkQC "cafe_circ" (seq 0 n) (seq 0 n) [mkCReg n "meas"] [] None [OpMeasureAll].

Definition two_rows : list (list Q) := [[(1 # 10)%Q]; [(2 # 10)%Q]].

(** Two probes, two batch elements, four shots each; the causal cone is the
    whole two-bit register. *)
Definition full_cone_batch : CAFERewardDataList :=
  mkRewardDataList
    [mkPub (measured_circuit 2) two_rows 4; mkPub (measured_circuit 2) two_rows 4]
    [1; 0] 2.

Definition full_cone_results : PubResults :=
  [[mkBitArray 2 [0; 0; 1; 0]; mkBitArray 2 [0; 1; 3; 2]];
   [mkBitArray 2 [0; 0; 0; 0]; mkBitArray 2 [0; 0; 2; 3]]].

Definition full_cone_primitive : Primitive := fun _ => ok full_cone_results.

(** The same batch on a three-bit register whose third bit is outside the
    causal cone. *)
Definition partial_cone_batch : CAFERewardDataList :=
  mkRewardDataList
    [mkPub (measured_circuit 3) two_rows 4; mkPub (measured_circuit 3) two_rows 4]
    [1; 0] 2.

Definition partial_cone_results : PubResults :=
  [[mkBitArray 3 [0; 4; 1; 0]; mkBitArray 3 [0; 1; 3; 2]];
   [mkBitArray 3 [0; 0; 4; 4]; mkBitArray 3 [4; 0; 2; 3]]].

Definition partial_cone_primitive : Primitive := fun _ => ok partial_cone_results.

(** A batch whose second probe declares another shot count. *)
Definition mismatched_batch : CAFERewardDataList :=
  mkRewardDataList
    [mkPub (measured_circuit 2) two_rows 4; mkPub (measured_circuit 2) two_rows 8]
    [1; 0] 2.

Definition identity_unitary : Unitary :=
  [[(1, 0); (0, 0)]; [(0, 0); (1, 0)]]%Q.

(** A linear congruential generator standing for NumPy's. *)
Fixpoint lcg_draws (state : Z) (a size : nat) : list nat * Z :=
  match size with
  | O => ([], state)
  | S k =>
      let state' := (state * 1103515245 + 12345) mod 2147483648 in
      let rest := lcg_draws state' a k in
      (Z.to_nat ((state' / 65536) mod Z.of_nat a) :: fst rest, snd rest)
  end.

Definition repeat_data (c : QuantumCircuit) (n : Z) : QuantumCircuit :=
  with_data c (concat (repeat (data c) (Z.to_nat n))).

Definition single_qubit (name : string) (gates : list string) : QuantumCircuit :=
  mkQC name [0%nat] [] [] [] None (map (fun g => OpGate g [0%nat]) gates).

Definition four_states : list QuantumCircuit :=
  [single_qubit "zero" []; single_qubit "one" ["x"%string];
   single_qubit "plus" ["h"%string]; single_qubit "plus_i" ["h"%string; "s"%string]].

(** Collaborators simple enough to run: the transpiler and the causal-cone
    reduction return their argument, the simulator returns the identity. *)
Definition simple_collaborators : Collaborators := {|
  Generator := Z;
  default_rng := fun seed => seed;
  rng_choice := fun g a size =>
    if ((a =? 0) && negb (size =? 0))%nat then
      raise (ValueError "a must be a positive integer unless no samples are taken")
    else ok (lcg_draws g a size);
  run_unitary := fun _ _ => ok identity_unitary;
  decompose := fun c => c;
  inverse := fun c => ok (with_data c (rev (data c)));
  repeat_circuit := repeat_data;
  handle_n_reps := fun c n _ _ => ok (repeat_data c n);
  causal_cone_circuit := fun c qs => ok (c, qs);
  get_input_states_cardinality_per_qubit := fun _ => 4%nat;
  get_single_qubit_input_states := fun _ => four_states;
  handle_real_time_n_reps := fun all_n_reps n_reps_var prep_circuit _ =>
    match n_reps_var with
    | inr n => ok [compose (repeat_data prep_circuit n) (qubits prep_circuit)]
    | inl var =>
        (sw <- switch var (map (fun n => (n, n)) all_n_reps)
                 (fun n => ok [compose (repeat_data prep_circuit n) (qubits prep_circuit)]) ;;
         ok [sw])%result
    end
|}.

Definition simple_backend_info : BackendInfo :=
  mkBackendInfo AerSimulator (fun qc _ => ok qc).

Definition simple_env (reps : list Z) : QEnvConfig :=
  mkQEnvConfig (mkExecutionConfig reps 1 100 true) simple_backend_info 5.

Definition simple_target : GateTarget.t :=
  GateTarget.mk [0%nat] 1 [0%nat] [0] [0%nat] (fun _ => map mkInputState four_states).

Definition context_circuit (name gate : string) (qs : list Qubit) : QuantumCircuit :=
  mkQC name qs [] [] []
       (Some (mkQC "baseline" qs [] [] [] None [OpGate gate qs]))
       [OpGate (gate ++ "_cal")%string qs].

Definition simple_reward : @CAFEReward simple_collaborators :=
  @new_CAFEReward simple_collaborators pauli4 2000.

Definition two_contexts : QuantumCircuit + list QuantumCircuit :=
  inr [context_circuit "a" "x" [0%nat]; context_circuit "b" "h" [0%nat]].

Definition mismatched_contexts : QuantumCircuit + list QuantumCircuit :=
  inr [context_circuit "a" "x" [0%nat]; context_circuit "b" "h" [1%nat]].

(** The probes of one call of the static synthesizer. *)
Definition example_run : result (list CAFERewardData) * @CAFEReward simple_collaborators :=
  @get_reward_data simple_collaborators simple_reward
    (context_circuit "a" "x" [0%nat]) [[(1 # 2)%Q]] (IsGateTarget simple_target)
    (simple_env [1]) None.

Definition example_probes : list CAFERewardData :=
  match fst example_run with
  | inr probes => probes
  | inl _ => []
  end.

(** A batch without probes. *)
Definition empty_batch : CAFERewardDataList := mkRewardDataList [] [0] 1.

(** A batch whose probe declares no shot. *)
Definition zero_shot_batch : CAFERewardDataList :=
  mkRewardDataList [mkPub (measured_circuit 2) two_rows 0] [1; 0] 2.

(** Results for the three-bit batch in which every shot reads [000]. *)
Definition all_zero_results : PubResults :=
  [[mkBitArray 3 [0; 0; 0; 0]; mkBitArray 3 [0; 0; 0; 0]];
   [mkBitArray 3 [0; 0; 0; 0]; mkBitArray 3 [0; 0; 0; 0]]].

Definition all_zero_primitive : Primitive := fun _ => ok all_zero_results.

(** The pubs of the probes of [example_run], as handed to the estimator. *)
Definition example_batch : CAFERewardDataList :=
  mkRewardDataList (map rd_pub example_probes) [0] 1.

(** A context circuit whose metadata holds no baseline circuit. *)
Definition no_baseline_circuit : QuantumCircuit :=
  mkQC "a" [0%nat] [] [] [] None [OpGate "x_cal" [0%nat]].

(** A context circuit that comes with a classical register of two bits. *)
Definition wide_register_circuit : QuantumCircuit :=
  mkQC "a" [0%nat] [0%nat; 1%nat] [mkCReg 2 "c"] []
       (Some (mkQC "baseline" [0%nat] [] [] [] None [OpGate "x" [0%nat]]))
       [OpGate "x_cal" [0%nat]].

(* ===================================================================== *)
(** * Generic facts on results and comprehensions *)
(* ===================================================================== *)

Lemma rbind_ok_inv {A B} (m : result A) (k : A -> result B) (b : B) :
  rbind m k = inr b -> exists a, m = inr a /\ k a = inr b.
Proof.
  destruct m as [e | a]; simpl; intros H; [discriminate | eauto].
Qed.

Lemma index_ok_inv {A} (l : list A) (i : nat) (a : A) :
  index l i = inr a -> nth_error l i = Some a.
Proof.
  unfold index. destruct (nth_error l i); simpl; intros H; congruence.
Qed.

Lemma index_of_nth_error {A} (l : list A) (i : nat) (a : A) :
  nth_error l i = Some a -> index l i = inr a.
Proof. unfold index. intros ->. reflexivity. Qed.

Lemma comprehension_ok_inv {A B} (f : A -> result B) (l : list A) (bs : list B) :
  comprehension f l = inr bs -> Forall2 (fun a b => f a = inr b) l bs.
Proof.
  revert bs. induction l as [| a t IH]; simpl; intros bs H.
  - inversion H. constructor.
  - apply rbind_ok_inv in H. destruct H as (b & Hb & H).
    apply rbind_ok_inv in H. destruct H as (bs' & Hbs & H).
    inversion H; subst. constructor; auto.
Qed.

Lemma comprehension_ok_intro {A B} (f : A -> result B) (l : list A) (bs : list B) :
  Forall2 (fun a b => f a = inr b) l bs -> comprehension f l = inr bs.
Proof.
  induction 1 as [| a b t bs' Hab _ IH]; simpl; [reflexivity |].
  rewrite Hab. simpl. rewrite IH. reflexivity.
Qed.

Lemma comprehension_ext_in {A B} (f g : A -> result B) (l : list A) :
  (forall a, In a l -> f a = g a) -> comprehension f l = comprehension g l.
Proof.
  induction l as [| a t IH]; simpl; intros H; [reflexivity |].
  rewrite (H a) by auto. rewrite IH by auto. reflexivity.
Qed.

Lemma comprehension_length {A B} (f : A -> result B) (l : list A) (bs : list B) :
  comprehension f l = inr bs -> length bs = length l.
Proof.
  intros H. apply comprehension_ok_inv in H.
  symmetry. eapply Forall2_length; eauto.
Qed.

Lemma Forall2_nth_error_l {A B} {R : A -> B -> Prop} {l l' i a} :
  Forall2 R l l' -> nth_error l i = Some a ->
  exists b, nth_error l' i = Some b /\ R a b.
Proof.
  intros H. revert i. induction H as [| x y t t' Hxy _ IH]; intros i Hi.
  - destruct i; discriminate.
  - destruct i as [| i]; simpl in *.
    + inversion Hi; subst. eauto.
    + auto.
Qed.

Lemma Forall2_nth_error_r {A B} {R : A -> B -> Prop} {l l' i b} :
  Forall2 R l l' -> nth_error l' i = Some b ->
  exists a, nth_error l i = Some a /\ R a b.
Proof.
  intros H. revert i. induction H as [| x y t t' Hxy _ IH]; intros i Hi.
  - destruct i; discriminate.
  - destruct i as [| i]; simpl in *.
    + inversion Hi; subst. eauto.
    + auto.
Qed.

Lemma Forall2_In_r {A B} {R : A -> B -> Prop} {l l' b} :
  Forall2 R l l' -> In b l' -> exists a, In a l /\ R a b.
Proof.
  intros H Hin. apply In_nth_error in Hin. destruct Hin as [i Hi].
  destruct (Forall2_nth_error_r H Hi) as (a & Ha & Hab).
  exists a. split; [eapply nth_error_In; eauto | exact Hab].
Qed.

Lemma nth_error_range {n i : nat} : (i < n)%nat -> nth_error (range n) i = Some i.
Proof.
  intros H. unfold range.
  rewrite (nth_error_nth' _ 0%nat) by (rewrite length_seq; exact H).
  rewrite seq_nth by exact H. reflexivity.
Qed.

Lemma In_range (n i : nat) : In i (range n) <-> (i < n)%nat.
Proof. unfold range. rewrite in_seq. lia. Qed.

(* ===================================================================== *)
(** * Reward estimator: the shape of the survival table *)
(* ===================================================================== *)

Lemma py_div_ok_inv (a b : Z) (x : Q) :
  py_div a b = inr x -> b <> 0 /\ x = (inject_Z a / inject_Z b)%Q.
Proof.
  unfold py_div. destruct (Z.eqb_spec b 0); intros H; inversion H. auto.
Qed.

Lemma py_div_unit_interval (a b : Z) (x : Q) :
  0 <= a <= b -> py_div a b = inr x -> (0 <= x <= 1)%Q.
Proof.
  intros Hab H. apply py_div_ok_inv in H. destruct H as [Hb ->].
  assert (Hpos : 0 < b) by lia.
  assert (HposQ : (0 < inject_Z b)%Q)
    by (change 0%Q with (inject_Z 0); rewrite <- Zlt_Qlt; exact Hpos).
  split.
  - apply Qle_shift_div_l; [exact HposQ |].
    rewrite Qmult_0_l. change 0%Q with (inject_Z 0). rewrite <- Zle_Qle. lia.
  - apply Qle_shift_div_r; [exact HposQ |].
    rewrite Qmult_1_l. rewrite <- Zle_Qle. lia.
Qed.

(** The survival table computed by lines 212-215, cell by cell. *)
Lemma survival_direct_cells n_shots batch_size pub_results sp :
  survival_direct n_shots batch_size pub_results = inr sp ->
  Forall2 (fun res row =>
             Forall2 (fun i x => exists ba, nth_error res i = Some ba /\
                                   py_div (Z.of_nat (get_int_count ba 0)) n_shots = inr x)
                     (range batch_size) row)
          pub_results sp.
Proof.
  unfold survival_direct. intros H.
  apply rbind_ok_inv in H. destruct H as (pub_data & Hd & Hs).
  apply comprehension_ok_inv in Hd. apply comprehension_ok_inv in Hs.
  revert sp Hs. induction Hd as [| res bas t t' Hres _ IH]; intros sp Hs.
  - inversion Hs. constructor.
  - inversion Hs as [| ? row ? sp' Hrow Hs']; subst. constructor; [| auto].
    unfold meas_batch in Hres.
    apply comprehension_ok_inv in Hres. apply comprehension_ok_inv in Hrow.
    clear - Hres Hrow. revert row Hrow.
    induction Hres as [| i ba l l' Hi _ IH]; intros row Hrow.
    + inversion Hrow. constructor.
    + inversion Hrow; subst. constructor; [| auto].
      exists ba. split; [apply index_ok_inv; exact Hi | assumption].
Qed.

(** The survival table computed by lines 218-231, cell by cell. *)
Lemma survival_postselected_cells indices cone_size n_shots batch_size pub_results sp :
  survival_postselected indices cone_size n_shots batch_size pub_results = inr sp ->
  Forall2 (fun res row =>
             Forall2 (fun i x => exists ba ba',
                                   nth_error res i = Some ba /\
                                   postselect ba indices (repeat false cone_size) = inr ba' /\
                                   py_div (Z.of_nat (num_shots ba')) n_shots = inr x)
                     (range batch_size) row)
          pub_results sp.
Proof.
  unfold survival_postselected. intros H.
  apply rbind_ok_inv in H. destruct H as (pub_data & Hd & Hs).
  apply comprehension_ok_inv in Hd. apply comprehension_ok_inv in Hs.
  revert sp Hs. induction Hd as [| res bas t t' Hres _ IH]; intros sp Hs.
  - inversion Hs. constructor.
  - inversion Hs as [| ? row ? sp' Hrow Hs']; subst. constructor; [| auto].
    apply comprehension_ok_inv in Hres. apply comprehension_ok_inv in Hrow.
    clear - Hres Hrow. revert row Hrow.
    induction Hres as [| i ba' l l' Hi _ IH]; intros row Hrow.
    + inversion Hrow. constructor.
    + inversion Hrow; subst. constructor; [| auto].
      apply rbind_ok_inv in Hi. destruct Hi as (ba & Hba & Hps).
      exists ba, ba'. repeat split; [apply index_ok_inv; exact Hba | exact Hps | assumption].
Qed.

(** What a successful run of lines 194-231 went through. *)
Lemma survival_probability_ok_inv reward_data primitive sp :
  survival_probability reward_data primitive = inr sp ->
  exists pub_results pub0 res0 meas0,
    primitive (pubs reward_data) = inr pub_results /\
    nth_error (pubs reward_data) 0 = Some pub0 /\
    all_same_shots (shots pub0) (pubs reward_data) = true /\
    all_same_batch (shape0 pub0) (pubs reward_data) = true /\
    nth_error pub_results 0 = Some res0 /\
    nth_error res0 0 = Some meas0 /\
    if (num_bits meas0 =? causal_cone_size reward_data)%nat
    then survival_direct (shots pub0) (shape0 pub0) pub_results = inr sp
    else survival_postselected (causal_cone_qubits_indices reward_data)
           (causal_cone_size reward_data) (shots pub0) (shape0 pub0) pub_results = inr sp.
Proof.
  unfold survival_probability. intros H.
  apply rbind_ok_inv in H. destruct H as (pub_results & Hp & H).
  apply rbind_ok_inv in H. destruct H as (pub0 & H0 & H).
  destruct (all_same_shots (shots pub0) (pubs reward_data)) eqn:Es; simpl in H; [| discriminate].
  destruct (all_same_batch (shape0 pub0) (pubs reward_data)) eqn:Eb; simpl in H; [| discriminate].
  apply rbind_ok_inv in H. destruct H as (res0 & Hr0 & H).
  apply rbind_ok_inv in H. destruct H as (meas0 & Hm0 & H).
  exists pub_results, pub0, res0, meas0.
  repeat (split; [solve [auto using index_ok_inv] |]).
  destruct (num_bits meas0 =? causal_cone_size reward_data)%nat; exact H.
Qed.

Lemma postselect_ok_inv ba indices selection ba' :
  postselect ba indices selection = inr ba' ->
  length selection = length indices /\
  (forall i, In i indices -> - Z.of_nat (num_bits ba) <= i < Z.of_nat (num_bits ba)) /\
  ba' = mkBitArray (num_bits ba)
          (filter (fun s => forallb (bit_matches (num_bits ba) s) (combine indices selection))
                  (shot_values ba)).
Proof.
  unfold postselect.
  destruct (Nat.eqb_spec (length selection) (length indices)) as [El | El]; simpl;
    [| discriminate].
  destruct (existsb _ indices) eqn:Ex; simpl; [discriminate |].
  intros H. inversion H. split; [exact El | split; [| reflexivity]].
  - intros j Hj.
    destruct (Z_lt_ge_dec j (Z.of_nat (num_bits ba))) as [Hlt | Hge];
      destruct (Z_lt_ge_dec j (- Z.of_nat (num_bits ba))) as [Hlt' | Hge']; try lia;
        exfalso; assert (existsb (fun i => (Z.of_nat (num_bits ba) <=? i)
                                        || (i <? - Z.of_nat (num_bits ba))) indices = true)
          by (apply existsb_exists; exists j; split; [exact Hj |];
              apply orb_true_iff; rewrite Z.leb_le, Z.ltb_lt; lia);
        congruence.
Qed.

Lemma postselect_num_shots_le ba indices selection ba' :
  postselect ba indices selection = inr ba' -> (num_shots ba' <= num_shots ba)%nat.
Proof.
  intros H. apply postselect_ok_inv in H. destruct H as (_ & _ & ->).
  unfold num_shots. simpl. apply filter_length_le.
Qed.

Lemma get_int_count_le ba k : (get_int_count ba k <= num_shots ba)%nat.
Proof. unfold get_int_count, num_shots. apply count_occ_bound. Qed.

(* ===================================================================== *)
(** * Reward estimator: bounds, validation, aggregation *)
(* ===================================================================== *)

(** C9.  Every survival probability the estimator computes, on the direct
    and on the post-selected path, lies in the closed interval [0, 1],
    provided the all-zero outcome count and the number of retained shots of
    each bit array do not exceed the declared shot count. *)
Theorem survival_probability_in_unit_interval
    reward_data primitive pub_results pub0 sp :
  primitive (pubs reward_data) = inr pub_results ->
  nth_error (pubs reward_data) 0 = Some pub0 ->
  (forall res ba, In res pub_results -> In ba res ->
     Z.of_nat (get_int_count ba 0) <= shots pub0 /\
     forall ba',
       postselect ba (causal_cone_qubits_indices reward_data)
                  (repeat false (causal_cone_size reward_data)) = inr ba' ->
       Z.of_nat (num_shots ba') <= shots pub0) ->
  survival_probability reward_data primitive = inr sp ->
  forall row x, In row sp -> In x row -> (0 <= x <= 1)%Q.
Proof.
  intros Hprim Hpub0 Hcounts Hsp row x Hrow Hx.
  apply survival_probability_ok_inv in Hsp.
  destruct Hsp as (pr & p0 & res0 & meas0 & Hprim' & Hp0 & _ & _ & _ & _ & Hbranch).
  rewrite Hprim in Hprim'. inversion Hprim'; subst pr.
  rewrite Hpub0 in Hp0. inversion Hp0; subst p0.
  destruct (num_bits meas0 =? causal_cone_size reward_data)%nat.
  - apply survival_direct_cells in Hbranch.
    destruct (Forall2_In_r Hbranch Hrow) as (res & Hres & Hcells).
    destruct (Forall2_In_r Hcells Hx) as (i & _ & ba & Hba & Hdiv).
    apply nth_error_In in Hba.
    destruct (Hcounts res ba Hres Hba) as [Hle _].
    eapply py_div_unit_interval; [| exact Hdiv]. lia.
  - apply survival_postselected_cells in Hbranch.
    destruct (Forall2_In_r Hbranch Hrow) as (res & Hres & Hcells).
    destruct (Forall2_In_r Hcells Hx) as (i & _ & ba & ba' & Hba & Hps & Hdiv).
    apply nth_error_In in Hba.
    destruct (Hcounts res ba Hres Hba) as [_ Hle].
    eapply py_div_unit_interval; [| exact Hdiv]. specialize (Hle ba' Hps). lia.
Qed.

(** The hypothesis of C9 follows when no bit array holds more shots than
    declared. *)
Lemma counts_bounded_by_num_shots reward_data pub_results n_shots :
  (forall res ba, In res pub_results -> In ba res -> Z.of_nat (num_shots ba) <= n_shots) ->
  forall res ba, In res pub_results -> In ba res ->
    Z.of_nat (get_int_count ba 0) <= n_shots /\
    forall ba',
      postselect ba (causal_cone_qubits_indices reward_data)
                 (repeat false (causal_cone_size reward_data)) = inr ba' ->
      Z.of_nat (num_shots ba') <= n_shots.
Proof.
  intros H res ba Hres Hba. specialize (H res ba Hres Hba). split.
  - pose proof (get_int_count_le ba 0). lia.
  - intros ba' Hps. apply postselect_num_shots_le in Hps. lia.
Qed.

Lemma all_same_shots_In {n_shots ps p} :
  all_same_shots n_shots ps = true -> In p ps -> shots p = n_shots.
Proof.
  unfold all_same_shots. rewrite forallb_forall. intros H Hin.
  apply Z.eqb_eq. auto.
Qed.

Lemma all_same_batch_In {batch_size ps p} :
  all_same_batch batch_size ps = true -> In p ps -> shape0 p = batch_size.
Proof.
  unfold all_same_batch. rewrite forallb_forall. intros H Hin.
  apply Nat.eqb_eq. auto.
Qed.

(** C5.  When two probes of the batch disagree in shot count or in
    parameter-batch size, the estimator ends in an exception: the one the
    primitive raised, or else the assertion failure of lines 200-205, which
    stands before the survival table and the mean.  No reward is returned. *)
Theorem mismatched_probes_raise reward_data primitive p1 p2 :
  In p1 (pubs reward_data) -> In p2 (pubs reward_data) ->
  shots p1 <> shots p2 \/ shape0 p1 <> shape0 p2 ->
  match primitive (pubs reward_data) with
  | inl e => get_reward_with_primitive reward_data primitive = inl e
  | inr _ => exists msg,
      get_reward_with_primitive reward_data primitive = inl (AssertionError msg)
  end.
Proof.
  intros H1 H2 Hne.
  unfold get_reward_with_primitive, survival_probability.
  destruct (primitive (pubs reward_data)) as [e | pub_results]; simpl; [reflexivity |].
  destruct (pubs reward_data) as [| pub0 rest] eqn:Epubs; [contradiction |].
  cbn [index nth_error rbind].
  destruct (all_same_shots (shots pub0) (pub0 :: rest)) eqn:Es; cbn [negb].
  - destruct (all_same_batch (shape0 pub0) (pub0 :: rest)) eqn:Eb; cbn [negb].
    + exfalso.
      pose proof (all_same_shots_In Es H1). pose proof (all_same_shots_In Es H2).
      pose proof (all_same_batch_In Eb H1). pose proof (all_same_batch_In Eb H2).
      destruct Hne; congruence.
    + eexists. reflexivity.
  - eexists. reflexivity.
Qed.

Lemma row_add_length r1 r2 :
  length r1 = length r2 -> length (row_add r1 r2) = length r1.
Proof.
  revert r2. induction r1 as [| x t IH]; intros [| y t2] H; simpl in *; try lia.
  rewrite IH; lia.
Qed.

Lemma row_add_nth r1 r2 b :
  length r1 = length r2 -> (b < length r1)%nat ->
  nth b (row_add r1 r2) 0%Q = (nth b r1 0 + nth b r2 0)%Q.
Proof.
  revert r2 b. induction r1 as [| x t IH]; intros [| y t2] b H Hb; simpl in *; try lia.
  destruct b as [| b]; [reflexivity |]. apply IH; lia.
Qed.

(** Adding the rows up one after the other gives, in each column, the sum
    of the column. *)
Lemma fold_row_add_column B rest : forall r,
  length r = B -> Forall (fun row => length row = B) rest ->
  length (fold_left row_add rest r) = B /\
  forall b, (b < B)%nat ->
    (nth b (fold_left row_add rest r) 0 == nth b r 0 + Qsum (column rest b))%Q.
Proof.
  induction rest as [| r' rest IH]; intros r Hr Hall; simpl.
  - split; [exact Hr |]. intros b _. ring.
  - inversion Hall as [| ? ? Hr' Hrest]; subst.
    destruct (IH (row_add r r')) as [Hlen Hnth]; [| exact Hrest |].
    + rewrite row_add_length; congruence.
    + split; [exact Hlen |]. intros b Hb.
      rewrite (Hnth b Hb). rewrite row_add_nth by congruence. ring.
Qed.

Lemma np_mean_axis0_spec {B sp} :
  sp <> [] -> Forall (fun row => length row = B) sp ->
  length (np_mean_axis0 sp) = B /\
  forall b, (b < B)%nat ->
    (nth b (np_mean_axis0 sp) 0 == arithmetic_mean (column sp b))%Q.
Proof.
  intros Hne Hall. destruct sp as [| r rest]; [congruence |].
  inversion Hall as [| ? ? Hr Hrest]; subst.
  destruct (fold_row_add_column (length r) rest r eq_refl Hrest) as [Hlen Hnth].
  unfold np_mean_axis0. rewrite length_map. split; [exact Hlen |].
  intros b Hb.
  rewrite (nth_indep _ 0%Q (0 / inject_Z (Z.of_nat (length (r :: rest))))%Q)
    by (rewrite length_map, Hlen; exact Hb).
  rewrite (map_nth (fun s => (s / inject_Z (Z.of_nat (length (r :: rest))))%Q)).
  rewrite (Hnth b Hb). unfold arithmetic_mean, column.
  rewrite length_map. reflexivity.
Qed.

Lemma Forall2_rows_length {A B C} (R : A -> B -> C -> Prop) (l : list A) (cols : list B)
    (table : list (list C)) :
  Forall2 (fun a row => Forall2 (R a) cols row) l table ->
  length table = length l /\ Forall (fun row => length row = length cols) table.
Proof.
  induction 1 as [| a row l' t' Hrow _ [IHl IHf]]; simpl; [split; [reflexivity | constructor] |].
  split; [congruence |]. constructor; [| exact IHf].
  symmetry. eapply Forall2_length; eauto.
Qed.

(** The survival table has one row per pub result and one column per batch
    element. *)
Lemma survival_probability_shape reward_data primitive sp :
  survival_probability reward_data primitive = inr sp ->
  exists pub_results pub0,
    primitive (pubs reward_data) = inr pub_results /\
    nth_error (pubs reward_data) 0 = Some pub0 /\
    sp <> [] /\ length sp = length pub_results /\
    Forall (fun row => length row = shape0 pub0) sp.
Proof.
  intros H. apply survival_probability_ok_inv in H.
  destruct H as (pr & pub0 & res0 & meas0 & Hprim & Hp0 & _ & _ & Hr0 & _ & Hbranch).
  exists pr, pub0. split; [exact Hprim |]. split; [exact Hp0 |].
  assert (Hshape : length sp = length pr /\
                   Forall (fun row => length row = length (range (shape0 pub0))) sp).
  { destruct (num_bits meas0 =? causal_cone_size reward_data)%nat.
    - apply survival_direct_cells in Hbranch.
      exact (Forall2_rows_length _ _ _ _ Hbranch).
    - apply survival_postselected_cells in Hbranch.
      exact (Forall2_rows_length _ _ _ _ Hbranch). }
  destruct Hshape as [Hlen Hrows].
  unfold range in Hrows. rewrite length_seq in Hrows.
  repeat split; auto.
  intros ->. destruct pr; [discriminate Hr0 | discriminate Hlen].
Qed.

(** C3.  The estimator returns one scalar per batch element, and the scalar
    of batch element [b] is the arithmetic mean, over the rows of the
    survival table (one row per probe result), of the survival probability
    of [b]. *)
Theorem reward_is_mean_over_probes reward_data primitive reward :
  get_reward_with_primitive reward_data primitive = inr reward ->
  exists pub_results pub0 sp,
    primitive (pubs reward_data) = inr pub_results /\
    nth_error (pubs reward_data) 0 = Some pub0 /\
    survival_probability reward_data primitive = inr sp /\
    length sp = length pub_results /\
    length reward = shape0 pub0 /\
    forall b, (b < shape0 pub0)%nat ->
      (nth b reward 0 == arithmetic_mean (column sp b))%Q.
Proof.
  unfold get_reward_with_primitive. intros H.
  apply rbind_ok_inv in H. destruct H as (sp & Hsp & Hmean).
  inversion Hmean; subst reward.
  destruct (survival_probability_shape _ _ _ Hsp)
    as (pub_results & pub0 & Hprim & Hp0 & Hne & Hlen & Hrows).
  destruct (np_mean_axis0_spec Hne Hrows) as [Hl Hm].
  exists pub_results, pub0, sp. repeat split; auto.
Qed.

(* ===================================================================== *)
(** * Reward estimator: what post-selection computes *)
(* ===================================================================== *)

Lemma forallb_bit_matches_all_false nbits s indices :
  forallb (bit_matches nbits s) (combine indices (repeat false (length indices)))
  = cone_bits_zero nbits indices s.
Proof.
  unfold cone_bits_zero. induction indices as [| i t IH]; simpl; [reflexivity |].
  rewrite IH. unfold bit_matches. simpl.
  destruct (Z.testbit s (i mod Z.of_nat nbits)); reflexivity.
Qed.

(** Post-selecting on the causal-cone positions reading zero keeps exactly
    the shots counted by [cone_zero_count]. *)
Lemma postselect_all_zero_num_shots ba indices cone_size ba' :
  postselect ba indices (repeat false cone_size) = inr ba' ->
  num_bits ba' = num_bits ba /\ num_shots ba' = cone_zero_count ba indices.
Proof.
  intros H. apply postselect_ok_inv in H. destruct H as (Hlen & _ & ->).
  rewrite repeat_length in Hlen. subst cone_size.
  unfold num_shots, cone_zero_count. simpl. split; [reflexivity |].
  f_equal. apply filter_ext. intros s. apply forallb_bit_matches_all_false.
Qed.

(** C1 (amended).  When the first bit array of the first probe result has a
    measured bit count different from the causal-cone size, the survival
    probability of every probe result and batch element is the number of
    shots whose bits at the causal-cone positions all read zero, divided by
    the shot count declared by the first probe. *)
Theorem postselected_survival_is_cone_zero_fraction
    reward_data primitive sp pub_results pub0 :
  survival_probability reward_data primitive = inr sp ->
  primitive (pubs reward_data) = inr pub_results ->
  nth_error (pubs reward_data) 0 = Some pub0 ->
  (exists res0 meas0, nth_error pub_results 0 = Some res0 /\
                      nth_error res0 0 = Some meas0 /\
                      num_bits meas0 <> causal_cone_size reward_data) ->
  forall p b res ba,
    nth_error pub_results p = Some res -> nth_error res b = Some ba ->
    (b < shape0 pub0)%nat ->
    exists row,
      nth_error sp p = Some row /\
      nth_error row b =
        Some (inject_Z (Z.of_nat (cone_zero_count ba (causal_cone_qubits_indices reward_data)))
              / inject_Z (shots pub0))%Q.
Proof.
  intros Hsp Hprim Hp0 (res0 & meas0 & Hr0 & Hm0 & Hbits) p b res ba Hres Hba Hb.
  apply survival_probability_ok_inv in Hsp.
  destruct Hsp as (pr & q0 & r0 & m0 & Hprim' & Hq0 & _ & _ & Hr0' & Hm0' & Hbranch).
  rewrite Hprim in Hprim'. inversion Hprim'; subst pr.
  rewrite Hp0 in Hq0. inversion Hq0; subst q0.
  rewrite Hr0 in Hr0'. inversion Hr0'; subst r0.
  rewrite Hm0 in Hm0'. inversion Hm0'; subst m0.
  apply Nat.eqb_neq in Hbits. rewrite Hbits in Hbranch.
  apply survival_postselected_cells in Hbranch.
  destruct (Forall2_nth_error_l Hbranch Hres) as (row & Hrow & Hcells).
  exists row. split; [exact Hrow |].
  destruct (Forall2_nth_error_l Hcells (nth_error_range Hb))
    as (x & Hx & ba1 & ba' & Hba1 & Hps & Hdiv).
  rewrite Hba in Hba1. inversion Hba1; subst ba1.
  apply postselect_all_zero_num_shots in Hps. destruct Hps as [_ Hn].
  apply py_div_ok_inv in Hdiv. destruct Hdiv as [_ ->].
  rewrite Hx, Hn. reflexivity.
Qed.

(** C1 (as stated) fails.  On this batch the estimator keeps the shot whose
    causal-cone bit reads zero and divides by both shots, which gives 1/2;
    conditioning on the other bit reading zero keeps the shot [01], whose
    causal-cone bit reads one, so the conditioned all-zero fraction is 0. *)
Lemma postselection_is_not_conditioning_on_other_bits :
  survival_probability two_bit_batch two_bit_primitive = inr [[(1 # 2)%Q]] /\
  conditioned_all_zero_fraction two_bit_array (causal_cone_qubits_indices two_bit_batch)
    = inr (0 # 1)%Q /\
  ~ ((1 # 2) == (0 # 1))%Q.
Proof.
  split; [vm_compute; reflexivity |].
  split; [vm_compute; reflexivity |].
  intros H. discriminate H.
Qed.

(* ===================================================================== *)
(** * Reward estimator: the two paths on a full-width causal cone *)
(* ===================================================================== *)

Lemma comprehension_rel {A B1 B2} (R : B1 -> B2 -> Prop)
    (f1 : A -> result B1) (f2 : A -> result B2) (l : list A) :
  (forall a, In a l -> result_rel R (f1 a) (f2 a)) ->
  result_rel (Forall2 R) (comprehension f1 l) (comprehension f2 l).
Proof.
  induction l as [| a t IH]; simpl; intros H; [constructor |].
  pose proof (H a (or_introl eq_refl)) as Ha.
  destruct (f1 a) as [e1 | b1], (f2 a) as [e2 | b2]; simpl in *; try contradiction; auto.
  specialize (IH (fun x Hx => H x (or_intror Hx))).
  destruct (comprehension f1 t), (comprehension f2 t); simpl in *; try contradiction; auto.
Qed.

Lemma comprehension_Forall2_eq {A1 A2 B} (R : A1 -> A2 -> Prop)
    (g1 : A1 -> result B) (g2 : A2 -> result B) l1 l2 :
  (forall x1 x2, R x1 x2 -> g1 x1 = g2 x2) ->
  Forall2 R l1 l2 -> comprehension g1 l1 = comprehension g2 l2.
Proof.
  intros Hg. induction 1 as [| x1 x2 t1 t2 Hx _ IH]; simpl; [reflexivity |].
  rewrite (Hg _ _ Hx), IH. reflexivity.
Qed.

(** [n] distinct positions below [n] are all the positions below [n]. *)
Lemma distinct_positions_cover {n : nat} {indices : list Z} :
  length indices = n -> NoDup indices ->
  (forall i, In i indices -> 0 <= i < Z.of_nat n) ->
  forall k, 0 <= k < Z.of_nat n -> In k indices.
Proof.
  intros Hlen Hnd Hrange k Hk.
  assert (Hincl : incl (map Z.of_nat (seq 0 n)) indices).
  { apply NoDup_length_incl.
    - exact Hnd.
    - rewrite length_map, length_seq. lia.
    - intros i Hi. specialize (Hrange i Hi).
      apply in_map_iff. exists (Z.to_nat i). split; [lia |].
      apply in_seq. lia. }
  apply Hincl. apply in_map_iff. exists (Z.to_nat k). split; [lia |].
  apply in_seq. lia.
Qed.

(** An outcome on [n] bits whose bits all read zero is the outcome 0. *)
Lemma all_bits_zero_is_zero (n : nat) (s : Z) :
  0 <= s < 2 ^ Z.of_nat n ->
  (forall k, 0 <= k < Z.of_nat n -> Z.testbit s k = false) -> s = 0.
Proof.
  intros [Hlo Hhi] Hbits.
  destruct (Z.eq_dec s 0) as [-> | Hne]; [reflexivity | exfalso].
  assert (Hpos : 0 < s) by lia.
  pose proof (Z.bit_log2 s Hpos) as Hlog.
  assert (Z.log2 s < Z.of_nat n) by (apply Z.log2_lt_pow2; lia).
  pose proof (Z.log2_nonneg s).
  rewrite Hbits in Hlog by lia. discriminate.
Qed.

Lemma cone_bits_zero_full_width (n : nat) (indices : list Z) (s : Z) :
  length indices = n -> NoDup indices ->
  (forall i, In i indices -> 0 <= i < Z.of_nat n) ->
  0 <= s < 2 ^ Z.of_nat n ->
  cone_bits_zero n indices s = (s =? 0).
Proof.
  intros Hlen Hnd Hrange Hs.
  destruct (Z.eqb_spec s 0) as [-> | Hne].
  - unfold cone_bits_zero. apply forallb_forall. intros i _.
    rewrite Z.testbit_0_l. reflexivity.
  - apply not_true_is_false. intros Hall. apply Hne.
    apply (all_bits_zero_is_zero n); [exact Hs |].
    intros k Hk.
    pose proof (distinct_positions_cover Hlen Hnd Hrange k Hk) as Hin.
    unfold cone_bits_zero in Hall. rewrite forallb_forall in Hall.
    specialize (Hall k Hin). rewrite Z.mod_small in Hall by lia.
    apply negb_true_iff. exact Hall.
Qed.

Lemma count_occ_filter_eqb (l : list Z) :
  length (filter (fun s => s =? 0) l) = count_occ Z.eq_dec l 0.
Proof.
  induction l as [| x t IH]; simpl; [reflexivity |].
  destruct (Z.eq_dec x 0) as [E | E]; destruct (Z.eqb_spec x 0) as [E' | E'];
    simpl; try congruence; lia.
Qed.

Lemma postselect_full_width (ba : BitArray) (indices : list Z) :
  length indices = num_bits ba -> NoDup indices ->
  (forall i, In i indices -> 0 <= i < Z.of_nat (num_bits ba)) ->
  outcomes_in_range ba ->
  exists ba', postselect ba indices (repeat false (num_bits ba)) = inr ba' /\
              num_shots ba' = get_int_count ba 0.
Proof.
  intros Hlen Hnd Hrange Hout. unfold postselect.
  rewrite repeat_length, Hlen, Nat.eqb_refl. cbn [negb].
  assert (Hex : existsb (fun i => (Z.of_nat (num_bits ba) <=? i)
                                  || (i <? - Z.of_nat (num_bits ba))) indices = false).
  { apply not_true_is_false. intros Hex. apply existsb_exists in Hex.
    destruct Hex as (i & Hi & Hor). specialize (Hrange i Hi).
    apply orb_true_iff in Hor. rewrite Z.leb_le, Z.ltb_lt in Hor. lia. }
  rewrite Hex. eexists. split; [reflexivity |].
  unfold num_shots, get_int_count. cbn [shot_values].
  rewrite <- count_occ_filter_eqb. f_equal.
  apply filter_ext_in. intros s Hs.
  rewrite <- Hlen at 2. rewrite forallb_bit_matches_all_false.
  apply cone_bits_zero_full_width; auto.
Qed.

(** C6.  When every bit array measures exactly the causal cone (its bit
    count is the causal-cone size, and the causal-cone positions are that
    many distinct positions of the register), post-selecting the causal-cone
    bits on all-zero and counting the retained shots gives the same survival
    table as counting the all-zero outcome, on the same raw data, for every
    probe result and batch element. *)
Theorem postselected_path_agrees_with_direct_path
    indices cone_size n_shots batch_size pub_results :
  length indices = cone_size -> NoDup indices ->
  (forall i, In i indices -> 0 <= i < Z.of_nat cone_size) ->
  (forall res ba, In res pub_results -> In ba res ->
     num_bits ba = cone_size /\ outcomes_in_range ba) ->
  survival_postselected indices cone_size n_shots batch_size pub_results
  = survival_direct n_shots batch_size pub_results.
Proof.
  intros Hlen Hnd Hrange Hwf.
  unfold survival_postselected, survival_direct.
  set (R := fun ba' ba => num_shots ba' = get_int_count ba 0).
  assert (Hdata : result_rel (Forall2 (Forall2 R))
            (comprehension
               (fun pub_result =>
                  comprehension
                    (fun i => rbind (index pub_result i)
                                (fun m => postselect m indices (repeat false cone_size)))
                    (range batch_size))
               pub_results)
            (comprehension (meas_batch batch_size) pub_results)).
  { apply comprehension_rel. intros res Hres.
    unfold meas_batch. apply comprehension_rel. intros i _.
    unfold index. destruct (nth_error res i) as [ba |] eqn:Eba; simpl; [| reflexivity].
    apply nth_error_In in Eba. destruct (Hwf res ba Hres Eba) as [Hbits Hout].
    rewrite <- Hbits in Hlen, Hrange |- *.
    destruct (postselect_full_width ba indices Hlen Hnd Hrange Hout) as (ba' & Hps & Hn).
    rewrite Hps. exact Hn. }
  destruct (comprehension _ pub_results) as [e1 | pd1],
           (comprehension (meas_batch batch_size) pub_results) as [e2 | pd2];
    simpl in Hdata; try contradiction; simpl.
  - congruence.
  - apply (comprehension_Forall2_eq (Forall2 R)); [| exact Hdata].
    intros row1 row2 Hrows.
    apply (comprehension_Forall2_eq R); [| exact Hrows].
    intros ba' ba Hn. unfold R in Hn. rewrite Hn. reflexivity.
Qed.

(* ===================================================================== *)
(** * Input-state sampling *)
(* ===================================================================== *)

Lemma insert_unique_In (x y : nat) (l : list nat) :
  In y (insert_unique x l) <-> y = x \/ In y l.
Proof.
  induction l as [| z t IH]; simpl.
  - intuition.
  - destruct (Nat.ltb_spec x z); [simpl; intuition |].
    destruct (Nat.eqb_spec x z); [subst; simpl; intuition |].
    simpl. rewrite IH. intuition.
Qed.

Lemma np_unique_In (a : list nat) (x : nat) : In x (np_unique a) <-> In x a.
Proof.
  unfold np_unique. induction a as [| y t IH]; simpl; [tauto |].
  rewrite insert_unique_In, IH. intuition.
Qed.

Lemma insert_unique_sorted (x : nat) (l : list nat) :
  StronglySorted lt l -> StronglySorted lt (insert_unique x l).
Proof.
  induction 1 as [| z t Ht IH Hz]; simpl.
  - repeat constructor.
  - destruct (Nat.ltb_spec x z) as [Hlt | Hge].
    + constructor; [constructor; assumption |].
      constructor; [exact Hlt |].
      rewrite Forall_forall in *. intros w Hw. specialize (Hz w Hw). lia.
    + destruct (Nat.eqb_spec x z) as [-> | Hne]; [constructor; assumption |].
      constructor; [exact IH |].
      rewrite Forall_forall in *. intros w Hw.
      apply insert_unique_In in Hw. destruct Hw as [-> | Hw]; [lia | auto].
Qed.

Lemma np_unique_sorted (a : list nat) : StronglySorted lt (np_unique a).
Proof.
  unfold np_unique. induction a as [| x t IH]; simpl; [constructor |].
  apply insert_unique_sorted. exact IH.
Qed.

Lemma increasing_NoDup (l : list nat) : StronglySorted lt l -> NoDup l.
Proof.
  induction 1 as [| x t _ IH Hx]; constructor; [| exact IH].
  intros Hin. rewrite Forall_forall in Hx. specialize (Hx x Hin). lia.
Qed.

Lemma np_unique_NoDup (a : list nat) : NoDup (np_unique a).
Proof. apply increasing_NoDup, np_unique_sorted. Qed.

(** C4.  After reseeding with the same seed, the sampling step of two reward
    objects with the same basis family returns the same deduplicated list of
    input-state indices, for the same target and sample count, whatever the
    generators of the two objects were before. *)
Theorem sampling_is_reproducible `{Collaborators} (r1 r2 : CAFEReward) (seed : Z)
    (target : GateTarget.t) (env_config : QEnvConfig) :
  input_states_choice r1 = input_states_choice r2 ->
  fst (sample_input_states (set_reward_seed r1 seed) target env_config)
  = fst (sample_input_states (set_reward_seed r2 seed) target env_config).
Proof.
  intros Hchoice. unfold sample_input_states, set_reward_seed. cbn [input_states_rng
    input_states_choice input_states_seed]. rewrite Hchoice.
  destruct (rng_choice _ _ _) as [e | [draws rng']]; reflexivity.
Qed.

(** Sampling leaves the basis family of the reward object unchanged: a
    call, a reseeding and a second call are two calls after the same
    reseeding. *)
Lemma sample_input_states_choice `{Collaborators} (self : CAFEReward) target env_config :
  input_states_choice (snd (sample_input_states self target env_config))
  = input_states_choice self.
Proof.
  unfold sample_input_states.
  destruct (rng_choice _ _ _) as [e | [draws rng']]; reflexivity.
Qed.

(* ===================================================================== *)
(** * Static probes: one probe per unique sample *)
(* ===================================================================== *)

Lemma unravel_length (shape : list nat) : forall idx, length (unravel idx shape) = length shape.
Proof. induction shape as [| d rest IH]; intros idx; simpl; [reflexivity | now rewrite IH]. Qed.

Lemma ravel_unravel (shape : list nat) : forall idx,
  (idx < shape_size shape)%nat -> ravel (unravel idx shape) shape = idx.
Proof.
  induction shape as [| d rest IH]; intros idx Hidx; simpl in *.
  - lia.
  - assert (Hpos : shape_size rest <> 0%nat) by (intros E; rewrite E in Hidx; lia).
    rewrite IH by (apply Nat.mod_upper_bound; exact Hpos).
    pose proof (Nat.div_mod_eq idx (shape_size rest)). lia.
Qed.

Lemma unravel_index_ravel (idx : nat) (shape multi : list nat) :
  unravel_index idx shape = inr multi -> ravel multi shape = idx.
Proof.
  unfold unravel_index. destruct (Nat.leb_spec (shape_size shape) idx); intros E;
    inversion E. apply ravel_unravel. assumption.
Qed.

Ltac invert_bind H :=
  repeat match type of H with
         | rbind _ _ = inr _ =>
             let a := fresh "v" in
             let Ha := fresh "E" in
             apply rbind_ok_inv in H; destruct H as (a & Ha & H)
         end.

(** What the probe of a sample records about the sample. *)
Lemma probe_of_sample_ok_inv `{Collaborators} self qc params target env_config circuit_ref
    sample d :
  probe_of_sample self qc params target env_config circuit_ref sample = inr d ->
  unravel_index sample
    (repeat (get_input_states_cardinality_per_qubit (input_states_choice self))
            (GateTarget.causal_cone_size target)) = inr (rd_input_indices d) /\
  (exists input_state,
      nth_error (GateTarget.input_states target (input_states_choice self)) sample
        = Some input_state /\
      rd_input_circuit d = circuit input_state) /\
  shots (rd_pub d) = n_shots (execution_config env_config) /\
  parameter_values (rd_pub d) = params.
Proof.
  unfold probe_of_sample. intros H0. invert_bind H0.
  inversion H0; subst d; cbn.
  split; [assumption |]. split; [| split; reflexivity].
  eexists. split; [apply index_ok_inv; eassumption | reflexivity].
Qed.

Lemma NoDup_filter_eqb_one (l : list nat) (s : nat) :
  NoDup l -> In s l -> length (filter (fun x => (x =? s)%nat) l) = 1%nat.
Proof.
  induction 1 as [| x t Hx Hnd IH]; simpl; [contradiction |].
  intros [-> | Hin].
  - rewrite Nat.eqb_refl. simpl. f_equal.
    rewrite (proj2 (length_zero_iff_nil _)); [reflexivity |].
    destruct (filter _ t) as [| y t'] eqn:E; [reflexivity | exfalso].
    assert (Hy : In y (filter (fun x => (x =? s)%nat) t)) by (rewrite E; left; reflexivity).
    apply filter_In in Hy. destruct Hy as [Hy Hys].
    apply Nat.eqb_eq in Hys. subst y. contradiction.
  - destruct (Nat.eqb_spec x s) as [-> | Hne]; [contradiction |]. auto.
Qed.

Lemma filter_map_length {A B} (f : A -> B) (p : B -> bool) (l : list A) :
  length (filter (fun a => p (f a)) l) = length (filter p (map f l)).
Proof.
  induction l as [| a t IH]; simpl; [reflexivity |].
  destruct (p (f a)); simpl; rewrite IH; reflexivity.
Qed.

(** C8.  When [get_reward_data] returns, the probes are, in order, those of
    the deduplicated draws: the list of their sample indices is
    [np.unique] of the indices drawn, which has no repetition and the same
    members as the draws; so every drawn index has exactly one probe,
    however often it was drawn, and each probe carries the preparation
    circuit of its input state. *)
Theorem one_probe_per_unique_sample `{Collaborators} (self self' : CAFEReward)
    qc params (target : GateTarget.t) env_config baseline_arg (probes : list CAFERewardData) :
  get_reward_data self qc params (IsGateTarget target) env_config baseline_arg
    = (inr probes, self') ->
  exists draws rng',
    rng_choice (input_states_rng self)
      (length (GateTarget.input_states target (input_states_choice self)))
      (sampling_paulis env_config) = inr (draws, rng') /\
    map (probe_sample self target) probes = np_unique draws /\
    NoDup (map (probe_sample self target) probes) /\
    (forall s, In s draws ->
       length (filter (fun d => (probe_sample self target d =? s)%nat) probes) = 1%nat) /\
    (forall s, ~ In s draws ->
       filter (fun d => (probe_sample self target d =? s)%nat) probes = []) /\
    (forall d, In d probes ->
       exists input_state,
         nth_error (GateTarget.input_states target (input_states_choice self))
                   (probe_sample self target d) = Some input_state /\
         rd_input_circuit d = circuit input_state).
Proof.
  unfold get_reward_data. intros Hrun.
  destruct (match baseline_arg with Some b => inr b | None => _ end) as [e | circuit_ref];
    [inversion Hrun |].
  unfold sample_input_states in Hrun.
  destruct (rng_choice _ _ _) as [e | [draws rng']] eqn:Edraw; [inversion Hrun |].
  inversion Hrun as [[Hprobes Hself]]. clear Hrun Hself.
  apply comprehension_ok_inv in Hprobes.
  assert (Hmap : map (probe_sample self target) probes = np_unique draws).
  { clear Edraw. induction Hprobes as [| s d ss ds Hsd _ IH]; simpl; [reflexivity |].
    rewrite IH. f_equal.
    apply probe_of_sample_ok_inv in Hsd. destruct Hsd as (Hun & _).
    unfold probe_sample. apply unravel_index_ravel. exact Hun. }
  exists draws, rng'. split; [reflexivity |]. split; [exact Hmap |].
  split; [rewrite Hmap; apply np_unique_NoDup |].
  split; [| split].
  - intros s Hs.
    rewrite (filter_map_length (probe_sample self target) (fun x => (x =? s)%nat)).
    rewrite Hmap. apply NoDup_filter_eqb_one; [apply np_unique_NoDup |].
    apply np_unique_In. exact Hs.
  - intros s Hs.
    destruct (filter _ probes) as [| d t] eqn:E; [reflexivity | exfalso].
    assert (Hd : In d (filter (fun d => (probe_sample self target d =? s)%nat) probes))
      by (rewrite E; left; reflexivity).
    apply filter_In in Hd. destruct Hd as [Hd Hds]. apply Nat.eqb_eq in Hds.
    apply Hs. apply np_unique_In. rewrite <- Hmap, <- Hds.
    apply in_map. exact Hd.
  - intros d Hd.
    destruct (Forall2_In_r Hprobes Hd) as (s & _ & Hsd).
    apply probe_of_sample_ok_inv in Hsd. destruct Hsd as (Hun & (st & Hst & Hc) & _).
    exists st. split; [| exact Hc].
    unfold probe_sample. rewrite (unravel_index_ravel _ _ _ Hun). exact Hst.
Qed.

(* ===================================================================== *)
(** * Real-time program: how the program grows *)
(* ===================================================================== *)

Lemma sim_bind_ok_inv {A B} (m : Sim A) (k : A -> Sim B) log b log' :
  sim_bind m k log = (inr b, log') ->
  exists a log1, m log = (inr a, log1) /\ k a log1 = (inr b, log').
Proof.
  unfold sim_bind. destruct (m log) as [[e | a] log1]; intros E; [inversion E | eauto].
Qed.

Lemma lift_ok_inv {A} (r : result A) log a log' :
  lift r log = (inr a, log') -> r = inr a /\ log' = log.
Proof. unfold lift. intros E. inversion E. auto. Qed.

Ltac invert_sim H :=
  repeat match type of H with
         | sim_bind _ _ _ = (inr _, _) =>
             let a := fresh "v" in
             let l := fresh "log" in
             let Ha := fresh "E" in
             apply sim_bind_ok_inv in H; destruct H as (a & l & Ha & H)
         end.

Lemma extends_refl qc : extends qc qc.
Proof.
  unfold extends. repeat split; try reflexivity; exists []; rewrite app_nil_r; reflexivity.
Qed.

Lemma extends_trans qc1 qc2 qc3 : extends qc1 qc2 -> extends qc2 qc3 -> extends qc1 qc3.
Proof.
  intros (Hn & Hq & Hb & [d Hd] & [c Hc] & [r Hr] & [v Hv])
         (Hn' & Hq' & Hb' & [d' Hd'] & [c' Hc'] & [r' Hr'] & [v' Hv']).
  unfold extends. repeat split; try congruence.
  - exists (d ++ d'). rewrite Hd', Hd, app_assoc. reflexivity.
  - exists (c ++ c'). rewrite Hc', Hc, app_assoc. reflexivity.
  - exists (r ++ r'). rewrite Hr', Hr, app_assoc. reflexivity.
  - exists (v ++ v'). rewrite Hv', Hv, app_assoc. reflexivity.
Qed.

Lemma extends_append qc d : extends qc (append qc d).
Proof.
  unfold extends, append, with_data. cbn.
  repeat split; try reflexivity; try (exists []; rewrite app_nil_r; reflexivity).
  exists d. reflexivity.
Qed.

Lemma add_input_extends qc name width qc' v :
  add_input qc name width = inr (qc', v) -> extends qc qc'.
Proof.
  unfold add_input. destruct (existsb _ (inputs qc)); intros E; inversion E; subst.
  unfold extends. cbn.
  repeat split; try reflexivity; try (exists []; rewrite app_nil_r; reflexivity).
  eexists. reflexivity.
Qed.

Lemma add_inputs_extends names : forall qc qc' vs,
  add_inputs qc names = inr (qc', vs) -> extends qc qc'.
Proof.
  induction names as [| name rest IH]; simpl; intros qc qc' vs E.
  - inversion E. apply extends_refl.
  - apply rbind_ok_inv in E. destruct E as ([qc1 v] & E1 & E).
    apply rbind_ok_inv in E. destruct E as ([qc2 vs'] & E2 & E).
    inversion E; subst.
    eapply extends_trans; [eapply add_input_extends; eauto | eapply IH; eauto].
Qed.

Lemma add_register_extends qc creg : extends qc (add_register qc creg).
Proof.
  unfold extends, add_register. cbn.
  repeat split; try reflexivity; try (exists []; rewrite app_nil_r; reflexivity);
    eexists; reflexivity.
Qed.

Section RealTimeFacts.
Context `{Collaborators}.
Variables (self : CAFEReward) (target : GateTarget.t) (env_config : QEnvConfig).

(** The program after the declarations: the qubits agree, and the program
    extends the empty copy of the first circuit with its reset. *)
Lemma declare_program_ok_inv prep_circuits qc n_reps_var meas input_state_vars :
  declare_program target env_config prep_circuits
    = inr (qc, n_reps_var, meas, input_state_vars) ->
  all_same_qubits prep_circuits = true /\
  exists first,
    nth_error prep_circuits 0 = Some first /\
    extends (append (copy_empty_like first (Some "real_time_cafe_qc"%string))
                    [OpReset (qubits first)]) qc.
Proof.
  unfold declare_program.
  destruct (all_same_qubits prep_circuits); cbn [negb]; [| discriminate].
  intros E. split; [reflexivity |].
  apply rbind_ok_inv in E. destruct E as (first & Hfirst & E).
  exists first. split; [apply index_ok_inv; exact Hfirst |].
  apply rbind_ok_inv in E. destruct E as ([qc1 nv] & E1 & E).
  apply rbind_ok_inv in E. destruct E as ([qc2 meas'] & E2 & E).
  apply rbind_ok_inv in E. destruct E as ([qc3 vars] & E3 & E).
  inversion E; subst. clear E.
  apply add_inputs_extends in E3.
  assert (H1 : extends (append (copy_empty_like first (Some "real_time_cafe_qc"%string))
                               [OpReset (qubits first)]) qc1).
  { destruct (1 <? length (n_reps (execution_config env_config)))%nat.
    - apply rbind_ok_inv in E1. destruct E1 as ([qc' v] & Ea & E1).
      inversion E1; subst. eapply add_input_extends; eauto.
    - inversion E1; subst. apply extends_refl. }
  assert (H2 : extends qc1 qc2).
  { destruct (clbits qc1).
    - inversion E2; subst. apply add_register_extends.
    - apply rbind_ok_inv in E2. destruct E2 as (m & _ & E2).
      destruct (negb _); inversion E2; subst. apply extends_refl. }
  eauto using extends_trans.
Qed.

Lemma prepare_input_states_extends qc input_state_vars qc' :
  prepare_input_states self qc input_state_vars = inr qc' -> extends qc qc'.
Proof.
  unfold prepare_input_states. intros E.
  apply rbind_ok_inv in E. destruct E as (sw & _ & E).
  inversion E. apply extends_append.
Qed.

Lemma forward_branches_extends qc prep_circuits n_reps_var qc' circuit_choice :
  forward_branches env_config qc prep_circuits n_reps_var = inr (qc', circuit_choice) ->
  extends qc qc'.
Proof.
  unfold forward_branches. destruct (1 <? length prep_circuits)%nat; intros E.
  - apply rbind_ok_inv in E. destruct E as ([qc1 v] & E1 & E).
    apply rbind_ok_inv in E. destruct E as (sw & _ & E).
    inversion E; subst.
    eapply extends_trans; [eapply add_input_extends; eauto | apply extends_append].
  - apply rbind_ok_inv in E. destruct E as (first & _ & E).
    apply rbind_ok_inv in E. destruct E as (block & _ & E).
    inversion E; subst. apply extends_append.
Qed.

Lemma attach_inverse_extends qc prep_circuits circuit_choice n_reps_var cache qc' :
  attach_inverse target env_config qc prep_circuits circuit_choice n_reps_var cache = inr qc' ->
  extends qc qc'.
Proof.
  unfold attach_inverse. destruct (1 <? length prep_circuits)%nat; intros E.
  - apply rbind_ok_inv in E. destruct E as (var & _ & E).
    apply rbind_ok_inv in E. destruct E as (sw & _ & E).
    inversion E. apply extends_append.
  - apply rbind_ok_inv in E. destruct E as (inv & _ & E).
    apply rbind_ok_inv in E. destruct E as (block & _ & E).
    inversion E. apply extends_append.
Qed.

Lemma revert_input_states_extends qc input_state_vars input_state_inverses qc' :
  revert_input_states target qc input_state_vars input_state_inverses = inr qc' ->
  extends qc qc'.
Proof.
  unfold revert_input_states. intros E.
  apply rbind_ok_inv in E. destruct E as (sw & _ & E).
  inversion E. apply extends_append.
Qed.

Lemma inversion_turn_extends prep_circuits circuit_choice n_reps_var input_state_vars
    input_state_inverses i ref_circ state log state' log' :
  inversion_turn target env_config prep_circuits circuit_choice n_reps_var
    input_state_vars input_state_inverses i ref_circ state log = (inr state', log') ->
  extends (fst state) (fst state').
Proof.
  unfold inversion_turn. destruct ref_circ as [ref |]; intros E;
    [| apply lift_ok_inv in E; destruct E; discriminate].
  invert_sim E.
  apply lift_ok_inv in E1. destruct E1 as [E1 _].
  apply lift_ok_inv in E2. destruct E2 as [E2 _].
  inversion E; subst. cbn [fst].
  eapply extends_trans;
    [eapply attach_inverse_extends; eauto | eapply revert_input_states_extends; eauto].
Qed.

Lemma inversion_loop_extends prep_circuits circuit_choice n_reps_var input_state_vars
    input_state_inverses ref_circuits : forall state log state' log',
  inversion_loop target env_config prep_circuits circuit_choice n_reps_var
    input_state_vars input_state_inverses ref_circuits state log = (inr state', log') ->
  extends (fst state) (fst state').
Proof.
  induction ref_circuits as [| [i ref_circ] rest IH]; simpl; intros state log state' log' E.
  - inversion E. apply extends_refl.
  - invert_sim E.
    eapply extends_trans; [eapply inversion_turn_extends; eauto | eapply IH; eauto].
Qed.
End RealTimeFacts.

Lemma build_real_time_circuit_extends `{Collaborators} self target env_config
    prep_circuits log built log' :
  build_real_time_circuit self target env_config prep_circuits log = (inr built, log') ->
  all_same_qubits prep_circuits = true /\
  exists first,
    nth_error prep_circuits 0 = Some first /\
    extends (append (copy_empty_like first (Some "real_time_cafe_qc"%string))
                    [OpReset (qubits first)]) built.
Proof.
  unfold build_real_time_circuit. intros E.
  apply sim_bind_ok_inv in E. destruct E as ([[[qc0 nv] meas] vars] & l0 & E0 & E).
  apply lift_ok_inv in E0. destruct E0 as [E0 _].
  apply sim_bind_ok_inv in E. destruct E as (qc1 & l1 & E1 & E).
  apply lift_ok_inv in E1. destruct E1 as [E1 _].
  apply sim_bind_ok_inv in E. destruct E as ([qc2 cc] & l2 & E2 & E).
  apply lift_ok_inv in E2. destruct E2 as [E2 _].
  apply sim_bind_ok_inv in E. destruct E as (invs & l3 & _ & E).
  apply sim_bind_ok_inv in E. destruct E as ([qc3 cache] & l4 & E4 & E).
  inversion E; subst built log'. clear E.
  apply declare_program_ok_inv in E0. destruct E0 as (Hsame & first & Hfirst & Hext).
  split; [exact Hsame |]. exists first. split; [exact Hfirst |].
  apply prepare_input_states_extends in E1.
  apply forward_branches_extends in E2.
  apply inversion_loop_extends in E4. cbn [fst] in E4.
  eauto using extends_trans, extends_append.
Qed.

Lemma all_same_qubits_spec (prep_circuits : list QuantumCircuit) :
  all_same_qubits prep_circuits = true <->
  forall c1 c2, In c1 prep_circuits -> In c2 prep_circuits -> qubits c1 = qubits c2.
Proof.
  unfold all_same_qubits. destruct prep_circuits as [| c0 rest]; cbn [map].
  - split; [intros _ c1 c2 [] | reflexivity].
  - change (qubits c0 :: map qubits rest) with (map qubits (c0 :: rest)).
    rewrite forallb_forall. split.
    + intros Hall c1 c2 H1 H2.
      assert (Heq : forall c, In c (c0 :: rest) -> qubits c = qubits c0).
      { intros c Hc. specialize (Hall (qubits c) (in_map qubits _ _ Hc)).
        unfold qubits_eqb in Hall.
        destruct (list_eq_dec Nat.eq_dec (qubits c) (qubits c0)); [assumption | discriminate]. }
      rewrite (Heq c1 H1), (Heq c2 H2). reflexivity.
    + intros Hall q Hq. apply in_map_iff in Hq. destruct Hq as (c & <- & Hc).
      unfold qubits_eqb.
      destruct (list_eq_dec Nat.eq_dec (qubits c) (qubits c0)) as [| Hne]; [reflexivity |].
      exfalso. apply Hne. apply Hall; [exact Hc | left; reflexivity].
Qed.

(** C10.  When two of the supplied circuits differ in their qubit sequence,
    [get_real_time_circuit] raises the [ValueError] of line 249.  When it
    returns a program, all circuits have the qubits of the first one, and the
    program built (returned as it is, or handed to the final transpilation)
    extends the empty copy of the first circuit, named
    ["real_time_cafe_qc"], whose first instruction resets all its qubits. *)
Theorem real_time_circuit_qubit_check_and_reset `{Collaborators}
    (self : CAFEReward) (target : GateTarget.t) (env_config : QEnvConfig)
    (circuits : QuantumCircuit + list QuantumCircuit) (skip_transpilation : bool)
    (log : list SimRun) :
  ((exists c1 c2, In c1 (prep_circuits_of circuits) /\ In c2 (prep_circuits_of circuits) /\
                  qubits c1 <> qubits c2) ->
   get_real_time_circuit self target env_config circuits skip_transpilation log
   = (inl (ValueError "All circuits must have the same qubits"), log)) /\
  (forall program log',
     get_real_time_circuit self target env_config circuits skip_transpilation log
     = (inr program, log') ->
     exists first built rest,
       nth_error (prep_circuits_of circuits) 0 = Some first /\
       (forall c, In c (prep_circuits_of circuits) -> qubits c = qubits first) /\
       (if skip_transpilation then program = built
        else custom_transpile (backend_info env_config) built
               (final_transpile_options target) = inr program) /\
       qc_name built = "real_time_cafe_qc"%string /\
       qubits built = qubits first /\
       baseline_circuit built = baseline_circuit first /\
       data built = OpReset (qubits first) :: rest).
Proof.
  unfold get_real_time_circuit. split.
  - intros (c1 & c2 & H1 & H2 & Hne).
    assert (Hsame : all_same_qubits (prep_circuits_of circuits) = false).
    { apply not_true_is_false. intros Hsame.
      apply Hne. exact (proj1 (all_same_qubits_spec _) Hsame c1 c2 H1 H2). }
    unfold sim_bind, build_real_time_circuit, sim_bind, lift, declare_program.
    rewrite Hsame. reflexivity.
  - intros program log' E.
    apply sim_bind_ok_inv in E. destruct E as (built & l1 & Eb & E).
    apply build_real_time_circuit_extends in Eb.
    destruct Eb as (Hsame & first & Hfirst & Hn & Hq & Hb & [d Hd] & _).
    exists first, built, d.
    split; [exact Hfirst |]. split; [| split].
    + intros c Hc. apply (proj1 (all_same_qubits_spec _) Hsame); [exact Hc |].
      eapply nth_error_In; eauto.
    + destruct skip_transpilation.
      * inversion E. reflexivity.
      * apply lift_ok_inv in E. apply E.
    + cbn in Hn, Hq, Hb, Hd. auto.
Qed.

(* ===================================================================== *)
(** * Real-time program: the inverse cache and the contexts *)
(* ===================================================================== *)

Lemma nth_error_enumerate_from {A} (l : list A) : forall (s k : nat) (a : A),
  nth_error l k = Some a ->
  nth_error (combine (seq s (length l)) l) k = Some ((s + k)%nat, a).
Proof.
  induction l as [| x t IH]; intros s k a Hk.
  - destruct k; discriminate.
  - destruct k as [| k]; simpl in *.
    + inversion Hk. f_equal. f_equal. lia.
    + rewrite (IH (S s) k a Hk). f_equal. f_equal. lia.
Qed.

Lemma In_enumerate_cases {A} (l : list A) (k : nat) (a : A) :
  nth_error l k = Some a -> In (Z.of_nat k, a) (enumerate_cases l).
Proof.
  intros Hk. unfold enumerate_cases, enumerate.
  apply in_map_iff. exists (k, a). split; [reflexivity |].
  eapply nth_error_In. apply (nth_error_enumerate_from l 0 k a Hk).
Qed.

(** A switch is built only when the body of every case was built. *)
Lemma build_cases_ok_bodies {A} (body : A -> result (list Instruction)) items :
  forall seen cases,
    build_cases body seen items = inr cases ->
    forall value a, In (value, a) items -> exists block, body a = inr block.
Proof.
  induction items as [| [v x] rest IH]; simpl; intros seen cases E value a Hin;
    [contradiction |].
  destruct (existsb (Z.eqb v) seen); [discriminate |].
  apply rbind_ok_inv in E. destruct E as (block & Hb & E).
  apply rbind_ok_inv in E. destruct E as (cs & Hcs & E).
  destruct Hin as [Heq | Hin].
  - inversion Heq; subst. eauto.
  - eapply IH; eauto.
Qed.

Lemma append_at_ok_inv {A} (ll : list (list A)) (i : nat) (a : A) ll' :
  append_at ll i a = inr ll' ->
  length ll' = length ll /\
  (forall k, k <> i -> nth_error ll' k = nth_error ll k) /\
  (exists l, nth_error ll i = Some l /\ nth_error ll' i = Some (l ++ [a])).
Proof.
  unfold append_at. destruct (nth_error ll i) as [l |] eqn:Ei; intros E; [| discriminate].
  assert (Hll : ll' = firstn i ll ++ (l ++ [a]) :: skipn (S i) ll) by congruence.
  subst ll'. clear E.
  assert (Hi : (i < length ll)%nat) by (apply nth_error_Some; congruence).
  assert (Hlen : length (firstn i ll) = i) by (rewrite length_firstn; lia).
  split; [| split].
  - rewrite length_app. cbn [length]. rewrite Hlen, length_skipn. lia.
  - intros k Hk. destruct (Nat.lt_ge_cases k i) as [Hlt | Hge].
    + rewrite nth_error_app1 by lia. rewrite nth_error_firstn.
      destruct (Nat.ltb_spec k i); [reflexivity | lia].
    + rewrite nth_error_app2 by lia. rewrite Hlen.
      destruct (k - i)%nat as [| m] eqn:Ek; [lia |]. cbn [nth_error].
      rewrite nth_error_skipn. f_equal. lia.
  - exists l. split; [reflexivity |].
    rewrite nth_error_app2 by lia. rewrite Hlen, Nat.sub_diag. reflexivity.
Qed.

Section InverseCache.
Context `{Collaborators}.
Variables (self : CAFEReward) (target : GateTarget.t) (env_config : QEnvConfig).

(** One inverse costs at most one run of the simulator, recorded for its
    pair; a returned inverse costs exactly one. *)
Lemma compute_inverse_log i ref_circ n log r log' :
  compute_inverse target env_config i ref_circ n log = (r, log') ->
  (log' = log \/ log' = log ++ [(i, n)]) /\
  (forall inv, r = inr inv -> log' = log ++ [(i, n)]).
Proof.
  unfold compute_inverse, sim_bind, lift, record_run, sim_ret.
  destruct (causal_cone_circuit _ _) as [e | cone1]; [intros E; inversion E; split; [auto | discriminate] |].
  destruct (run_unitary _ _) as [e | u]; [intros E; inversion E; split; [auto | discriminate] |].
  destruct (custom_transpile _ _ _) as [e | c]; [intros E; inversion E; split; [auto | discriminate] |].
  destruct (causal_cone_circuit c _) as [e | cone2]; intros E; inversion E; split; auto;
    discriminate.
Qed.

(** The loop over the repetition counts only touches the entry of its own
    context, and every run it records is a run for that context. *)
Lemma compute_inverses_log i ref_circ ns : forall cache log r log',
  compute_inverses target env_config i ref_circ ns cache log = (r, log') ->
  (exists runs, log' = log ++ runs /\ Forall (fun run => fst run = i) runs) /\
  (forall cache', r = inr cache' ->
     log' = log ++ map (fun n => (i, n)) ns /\
     length cache' = length cache /\
     forall k, k <> i -> nth_error cache' k = nth_error cache k).
Proof.
  induction ns as [| n rest IH]; simpl; intros cache log r log' E.
  - unfold sim_ret in E. inversion E; subst. split.
    + exists []. rewrite app_nil_r. split; [reflexivity | constructor].
    + intros cache' Hc. inversion Hc; subst. rewrite app_nil_r. auto.
  - unfold sim_bind at 1 in E.
    destruct (compute_inverse _ _ _ _ _ _) as [[e | inv] log1] eqn:E1.
    + inversion E; subst. apply compute_inverse_log in E1. destruct E1 as [Hl _].
      split; [| discriminate].
      destruct Hl as [-> | ->].
      * exists []. rewrite app_nil_r. split; [reflexivity | constructor].
      * eexists. split; [reflexivity | repeat constructor].
    + apply compute_inverse_log in E1. destruct E1 as [_ Hl].
      specialize (Hl inv eq_refl). subst log1.
      unfold sim_bind at 1, lift at 1 in E.
      destruct (append_at cache i inv) as [e | cache1] eqn:E2.
      * inversion E; subst. split; [| discriminate].
        eexists. split; [reflexivity | repeat constructor].
      * apply append_at_ok_inv in E2. destruct E2 as (Hlen & Hother & _).
        apply IH in E. destruct E as ((runs & Hruns & Hall) & Hok).
        split.
        -- exists ((i, n) :: runs). split; [| constructor; [reflexivity | exact Hall]].
           rewrite Hruns, <- app_assoc. reflexivity.
        -- intros cache' Hc. destruct (Hok cache' Hc) as (Hlog & Hlen' & Hk).
           split; [rewrite Hlog, <- app_assoc; reflexivity |].
           split; [congruence |].
           intros k Hki. rewrite Hk by exact Hki. apply Hother. exact Hki.
Qed.

(** No inverse can be selected from an empty list of inverses. *)
Lemma inverse_of_context_empty n_reps_var :
  exists e, inverse_of_context target env_config n_reps_var [] = inl e.
Proof.
  unfold inverse_of_context.
  destruct (n_reps (execution_config env_config)) as [| n0 [| n1 rest]] eqn:En; cbn.
  - eexists. reflexivity.
  - eexists. reflexivity.
  - unfold n_reps_inverse_switch. destruct n_reps_var as [var | n].
    + rewrite En. cbn. eexists. reflexivity.
    + eexists. reflexivity.
Qed.

(** With several contexts the inverse cannot be attached while the cache
    of the second context is still empty. *)
Lemma attach_inverse_empty_entry qc prep_circuits circuit_choice n_reps_var cache :
  (2 <= length prep_circuits)%nat ->
  nth_error cache 1 = Some [] ->
  exists e,
    attach_inverse target env_config qc prep_circuits circuit_choice n_reps_var cache = inl e.
Proof.
  intros Hlen Hempty. unfold attach_inverse.
  destruct (Nat.ltb_spec 1 (length prep_circuits)) as [_ | Hle]; [| lia].
  destruct circuit_choice as [var |]; cbn; [| eexists; reflexivity].
  unfold switch.
  destruct (build_cases _ [] (enumerate_cases cache)) as [e | cases] eqn:Ecases;
    cbn; [eexists; reflexivity | exfalso].
  destruct (build_cases_ok_bodies _ _ _ _ Ecases _ _ (In_enumerate_cases _ _ _ Hempty))
    as (block & Hblock).
  destruct (inverse_of_context_empty n_reps_var) as (e & He). congruence.
Qed.
End InverseCache.

Section SeveralContexts.
Context `{Collaborators}.
Variables (self : CAFEReward) (target : GateTarget.t) (env_config : QEnvConfig).

(** With several contexts the first turn of the loop over the reference
    circuits ends in an exception, and the simulator has run for the first
    context only. *)
Lemma first_turn_raises prep_circuits circuit_choice n_reps_var input_state_vars
    input_state_inverses ref_circ qc cache log r log' :
  (2 <= length prep_circuits)%nat ->
  nth_error cache 1 = Some [] ->
  inversion_turn target env_config prep_circuits circuit_choice n_reps_var
    input_state_vars input_state_inverses 0 ref_circ (qc, cache) log = (r, log') ->
  (exists e, r = inl e) /\
  exists runs, log' = log ++ runs /\ Forall (fun run => fst run = 0%nat) runs.
Proof.
  intros Hlen Hempty. unfold inversion_turn.
  destruct ref_circ as [ref |].
  - unfold sim_bind at 1. cbn [snd fst].
    destruct (compute_inverses _ _ _ _ _ _ _) as [[e | cache'] log1] eqn:Ec;
      apply compute_inverses_log in Ec; destruct Ec as (Hruns & Hok).
    + intros E. inversion E; subst. split; [eauto | exact Hruns].
    + destruct (Hok cache' eq_refl) as (_ & _ & Hother).
      assert (Hempty' : nth_error cache' 1 = Some [])
        by (rewrite Hother by discriminate; exact Hempty).
      destruct (attach_inverse_empty_entry target env_config qc prep_circuits
                  circuit_choice n_reps_var cache' Hlen Hempty') as (e & He).
      unfold sim_bind, lift. rewrite He.
      intros E. inversion E; subst. split; [eauto | exact Hruns].
  - unfold lift. intros E. inversion E; subst. split; [eauto |].
    exists []. rewrite app_nil_r. split; [reflexivity | constructor].
Qed.

Lemma several_contexts_raise prep_circuits log :
  (2 <= length prep_circuits)%nat ->
  exists e runs,
    build_real_time_circuit self target env_config prep_circuits log = (inl e, log ++ runs) /\
    Forall (fun run => fst run = 0%nat) runs.
Proof.
  intros Hlen.
  assert (Hnil : forall e, exists runs : list SimRun,
             (inl e : result QuantumCircuit, log) = (inl e, log ++ runs) /\
             Forall (fun run => fst run = 0%nat) runs).
  { intros e. exists []. rewrite app_nil_r. split; [reflexivity | constructor]. }
  unfold build_real_time_circuit.
  unfold sim_bind at 1, lift at 1.
  destruct (declare_program _ _ _) as [e | [[[qc0 nv] meas] vars]]; [eauto |].
  unfold sim_bind at 1, lift at 1.
  destruct (prepare_input_states _ _ _) as [e | qc1]; [eauto |].
  unfold sim_bind at 1, lift at 1.
  destruct (forward_branches _ _ _ _) as [e | [qc2 cc]]; [eauto |].
  unfold sim_bind at 1, lift at 1.
  destruct (comprehension inverse _) as [e | invs]; [eauto |].
  unfold sim_bind at 1.
  destruct prep_circuits as [| c0 [| c1 rest]]; simpl in Hlen; try lia.
  cbn [map length enumerate seq combine repeat inversion_loop].
  unfold sim_bind at 1.
  destruct (inversion_turn _ _ _ _ _ _ _ _ _ _ _) as [r log1] eqn:Et.
  apply first_turn_raises in Et; [| simpl; lia | reflexivity].
  destruct Et as ((e & ->) & runs & -> & Hruns). eauto.
Qed.

Lemma get_real_time_circuit_several_contexts circuits skip_transpilation log :
  (2 <= length (prep_circuits_of circuits))%nat ->
  exists e runs,
    get_real_time_circuit self target env_config circuits skip_transpilation log
    = (inl e, log ++ runs) /\
    Forall (fun run => fst run = 0%nat) runs.
Proof.
  intros Hlen. unfold get_real_time_circuit. fold (prep_circuits_of circuits).
  destruct (several_contexts_raise (prep_circuits_of circuits) log Hlen)
    as (e & runs & Hb & Hruns).
  exists e, runs. unfold sim_bind. rewrite Hb. auto.
Qed.
End SeveralContexts.

(** C2 (the code departs from it).  As soon as two circuit contexts are
    supplied, [get_real_time_circuit] returns no program: the inverse
    structure is attached inside the loop over the reference circuits, in its
    first turn, and selecting the inverse of the second context fails. *)
Theorem several_contexts_yield_no_program `{Collaborators}
    (self : CAFEReward) (target : GateTarget.t) (env_config : QEnvConfig)
    (circuits : QuantumCircuit + list QuantumCircuit) (skip_transpilation : bool)
    (log : list SimRun) :
  (2 <= length (prep_circuits_of circuits))%nat ->
  exists e,
    fst (get_real_time_circuit self target env_config circuits skip_transpilation log) = inl e.
Proof.
  intros Hlen.
  destruct (get_real_time_circuit_several_contexts self target env_config circuits
              skip_transpilation log Hlen) as (e & runs & E & _).
  exists e. rewrite E. reflexivity.
Qed.

(** C7 (the code departs from it).  When two or more contexts are supplied,
    the call ends in an exception raised while the branch bodies of the
    circuit-choice switch are attached, and by then the simulator has run
    for the first context only: the inverse of no pair (i, n) with i >= 1 has
    been computed. *)
Theorem later_contexts_have_no_inverse `{Collaborators}
    (self : CAFEReward) (target : GateTarget.t) (env_config : QEnvConfig)
    (circuits : QuantumCircuit + list QuantumCircuit) (skip_transpilation : bool) :
  (2 <= length (prep_circuits_of circuits))%nat ->
  (exists e,
     fst (get_real_time_circuit self target env_config circuits skip_transpilation []) = inl e) /\
  forall i n,
    In (i, n)
       (snd (get_real_time_circuit self target env_config circuits skip_transpilation [])) ->
    i = 0%nat.
Proof.
  intros Hlen.
  destruct (get_real_time_circuit_several_contexts self target env_config circuits
              skip_transpilation [] Hlen) as (e & runs & E & Hruns).
  rewrite E. cbn [fst snd app]. split; [eauto |].
  intros i n Hin. rewrite Forall_forall in Hruns. exact (Hruns (i, n) Hin).
Qed.

(* ===================================================================== *)
(** * Real-time program: one context *)
(* ===================================================================== *)

Lemma add_input_data qc name width qc' v :
  add_input qc name width = inr (qc', v) -> data qc' = data qc.
Proof.
  unfold add_input. destruct (existsb _ (inputs qc)); intros E; inversion E; reflexivity.
Qed.

Lemma add_inputs_data names : forall qc qc' vs,
  add_inputs qc names = inr (qc', vs) -> data qc' = data qc.
Proof.
  induction names as [| name rest IH]; simpl; intros qc qc' vs E.
  - inversion E. reflexivity.
  - apply rbind_ok_inv in E. destruct E as ([qc1 v] & E1 & E).
    apply rbind_ok_inv in E. destruct E as ([qc2 vs'] & E2 & E).
    inversion E; subst.
    rewrite (IH _ _ _ E2). eapply add_input_data; eauto.
Qed.

(** After the declarations the program holds the reset alone, and the
    classical register has the size of the causal cone. *)
Lemma declare_program_data `{Collaborators} target env_config prep_circuits
    qc n_reps_var meas input_state_vars :
  declare_program target env_config prep_circuits
    = inr (qc, n_reps_var, meas, input_state_vars) ->
  creg_size meas = GateTarget.causal_cone_size target /\
  exists first,
    nth_error prep_circuits 0 = Some first /\ data qc = [OpReset (qubits first)].
Proof.
  unfold declare_program.
  destruct (all_same_qubits prep_circuits); cbn [negb]; [| discriminate].
  intros E.
  apply rbind_ok_inv in E. destruct E as (first & Hfirst & E).
  apply rbind_ok_inv in E. destruct E as ([qc1 nv] & E1 & E).
  apply rbind_ok_inv in E. destruct E as ([qc2 meas'] & E2 & E).
  apply rbind_ok_inv in E. destruct E as ([qc3 vars] & E3 & E).
  inversion E; subst. clear E.
  apply add_inputs_data in E3.
  assert (H1 : data qc1 = [OpReset (qubits first)]).
  { destruct (1 <? length (n_reps (execution_config env_config)))%nat.
    - apply rbind_ok_inv in E1. destruct E1 as ([qc' v] & Ea & E1).
      inversion E1; subst. apply add_input_data in Ea. rewrite Ea. reflexivity.
    - inversion E1; subst. reflexivity. }
  assert (H2 : data qc2 = data qc1 /\ creg_size meas = GateTarget.causal_cone_size target).
  { destruct (clbits qc1).
    - inversion E2; subst. split; reflexivity.
    - apply rbind_ok_inv in E2. destruct E2 as (m & _ & E2).
      destruct (Nat.eqb_spec (creg_size m) (GateTarget.causal_cone_size target));
        cbn [negb] in E2; inversion E2; subst. split; [reflexivity | assumption]. }
  destruct H2 as [H2 Hsize]. split; [exact Hsize |].
  exists first. split; [apply index_ok_inv; exact Hfirst | congruence].
Qed.

(** With one context the program is, in this order: the reset, the
    input-state switches, the forward part, one inverse block built from the
    inverses computed just before (one run of the simulator per repetition
    count), the reverted input states, and one final measurement of the
    causal-cone qubits into the register [meas]. *)
Lemma one_context_program_shape `{Collaborators} self target env_config c log built log' :
  build_real_time_circuit self target env_config [c] log = (inr built, log') ->
  exists n_reps_var meas input_state_vars prep forward ref_circ inverses inverse_block
         input_state_inverses reverts,
    creg_size meas = GateTarget.causal_cone_size target /\
    baseline_circuit c = Some ref_circ /\
    compute_inverses target env_config 0 ref_circ (n_reps (execution_config env_config))
      [[]] log = (inr [inverses], log') /\
    log' = log ++ map (fun n => (0%nat, n)) (n_reps (execution_config env_config)) /\
    inverse_of_context target env_config n_reps_var inverses = inr inverse_block /\
    comprehension inverse (input_circuits self) = inr input_state_inverses /\
    comprehension (input_state_switch input_state_vars input_state_inverses)
      (enumerate (GateTarget.causal_cone_qubits target)) = inr reverts /\
    data built =
      OpReset (qubits c) :: prep ++ forward ++ inverse_block ++ reverts
        ++ [OpMeasure (GateTarget.causal_cone_qubits target) meas].
Proof.
  unfold build_real_time_circuit. intros E.
  apply sim_bind_ok_inv in E. destruct E as ([[[qc0 nv] meas] vars] & l0 & E0 & E).
  apply lift_ok_inv in E0. destruct E0 as [E0 ->].
  apply sim_bind_ok_inv in E. destruct E as (qc1 & l1 & E1 & E).
  apply lift_ok_inv in E1. destruct E1 as [E1 ->].
  apply sim_bind_ok_inv in E. destruct E as ([qc2 cc] & l2 & E2 & E).
  apply lift_ok_inv in E2. destruct E2 as [E2 ->].
  apply sim_bind_ok_inv in E. destruct E as (invs & l3 & E3 & E).
  apply lift_ok_inv in E3. destruct E3 as [E3 ->].
  apply sim_bind_ok_inv in E. destruct E as ([qc3 cache] & l4 & E4 & E).
  inversion E; subst built log'. clear E.
  apply declare_program_data in E0. destruct E0 as (Hsize & first & Hfirst & Hdata0).
  cbn in Hfirst. inversion Hfirst; subst first. clear Hfirst.
  unfold prepare_input_states in E1.
  apply rbind_ok_inv in E1. destruct E1 as (prep & _ & E1). inversion E1; subst qc1. clear E1.
  unfold forward_branches in E2. cbn [length Nat.ltb Nat.leb] in E2.
  apply rbind_ok_inv in E2. destruct E2 as (c' & _ & E2).
  apply rbind_ok_inv in E2. destruct E2 as (forward & _ & E2).
  inversion E2; subst qc2 cc. clear E2.
  cbn [map length enumerate seq combine repeat inversion_loop] in E4.
  apply sim_bind_ok_inv in E4. destruct E4 as ([qc4 cache4] & l5 & Et & E4).
  inversion E4; subst qc3 cache l4. clear E4.
  unfold inversion_turn in Et.
  destruct (baseline_circuit c) as [ref_circ |] eqn:Eref;
    [| apply lift_ok_inv in Et; destruct Et; discriminate].
  apply sim_bind_ok_inv in Et. destruct Et as (cache' & l6 & Ec & Et).
  apply sim_bind_ok_inv in Et. destruct Et as (qc5 & l7 & Ea & Et).
  apply lift_ok_inv in Ea. destruct Ea as [Ea ->].
  apply sim_bind_ok_inv in Et. destruct Et as (qc6 & l8 & Er & Et).
  apply lift_ok_inv in Er. destruct Er as [Er ->].
  inversion Et; subst qc4 cache4 l5. clear Et.
  cbn [snd fst] in Ec, Ea.
  pose proof (compute_inverses_log _ _ _ _ _ _ _ _ _ Ec) as (_ & Hok).
  destruct (Hok cache' eq_refl) as (Hlog & Hlen & _).
  destruct cache' as [| inverses [| ? ?]]; try discriminate Hlen.
  unfold attach_inverse in Ea. cbn [length Nat.ltb Nat.leb index nth_error rbind] in Ea.
  apply rbind_ok_inv in Ea. destruct Ea as (inverse_block & Hblock & Ea).
  inversion Ea; subst qc5. clear Ea.
  unfold revert_input_states in Er.
  apply rbind_ok_inv in Er. destruct Er as (reverts & Hrev & Er).
  inversion Er; subst qc6. clear Er.
  exists nv, meas, vars, prep, forward, ref_circ, inverses, inverse_block, invs, reverts.
  repeat (split; [first [assumption | reflexivity] |]).
  cbn [data append with_data]. rewrite Hdata0.
  repeat rewrite <- app_assoc. reflexivity.
Qed.

(** The cases of a switch that was built: one per item, in order, with the
    item's value and the body built for the item; no value occurs twice. *)
Lemma build_cases_ok_inv {A} (body : A -> result (list Instruction)) items :
  forall seen cases,
    build_cases body seen items = inr cases ->
    Forall2 (fun item case => fst case = fst item /\ body (snd item) = inr (snd case))
            items cases /\
    NoDup (map fst items) /\
    (forall value, In value seen -> ~ In value (map fst items)).
Proof.
  induction items as [| [v a] rest IH]; simpl; intros seen cases E.
  - inversion E. repeat split; [constructor | constructor | auto].
  - destruct (existsb (Z.eqb v) seen) eqn:Eseen; [discriminate |].
    apply rbind_ok_inv in E. destruct E as (block & Hb & E).
    apply rbind_ok_inv in E. destruct E as (cs & Hcs & E).
    inversion E; subst cases. clear E.
    destruct (IH _ _ Hcs) as (Hall & Hnd & Hseen).
    split; [constructor; [split; [reflexivity | exact Hb] | exact Hall] |].
    split.
    + constructor; [| exact Hnd]. apply Hseen. left. reflexivity.
    + intros value Hin [Heq | Hrest].
      * subst value.
        assert (existsb (Z.eqb v) seen = true)
          by (apply existsb_exists; exists v; split; [exact Hin | apply Z.eqb_refl]).
        congruence.
      * apply (Hseen value); [right; exact Hin | exact Hrest].
Qed.

Lemma map_snd_enumerate {A} (l : list A) : map snd (enumerate l) = l.
Proof.
  unfold enumerate. generalize 0%nat.
  induction l as [| a t IH]; intros k; simpl; [reflexivity |].
  f_equal. apply IH.
Qed.

(** The inverse block of a context applies the cached inverses: with several
    repetition counts it is one switch on the run-time count whose case for
    the [j]-th count [n] applies the [j]-th cached inverse (a delay when
    that inverse is empty); with one count it applies the first cached
    inverse. *)
Lemma inverse_of_context_ok_inv `{Collaborators} target env_config n_reps_var inverses block :
  inverse_of_context target env_config n_reps_var inverses = inr block ->
  if (1 <? length (n_reps (execution_config env_config)))%nat then
    exists var cases,
      n_reps_var = inl var /\ block = [OpSwitch var cases] /\
      NoDup (n_reps (execution_config env_config)) /\
      Forall2 (fun jn case =>
                 fst case = snd jn /\
                 exists inv, nth_error inverses (fst jn) = Some inv /\
                             snd case = inverse_case inv (GateTarget.causal_cone_qubits target))
              (enumerate (n_reps (execution_config env_config))) cases
  else
    exists inv, nth_error inverses 0 = Some inv /\
                block = inverse_case inv (GateTarget.causal_cone_qubits target).
Proof.
  unfold inverse_of_context.
  destruct (1 <? length (n_reps (execution_config env_config)))%nat; intros E.
  - apply rbind_ok_inv in E. destruct E as (sw & Hsw & E). inversion E; subst block. clear E.
    unfold n_reps_inverse_switch in Hsw. destruct n_reps_var as [var | n]; [| discriminate].
    unfold switch in Hsw. apply rbind_ok_inv in Hsw. destruct Hsw as (cases & Hcases & E).
    inversion E; subst sw. clear E.
    exists var, cases. split; [reflexivity |]. split; [reflexivity |].
    apply build_cases_ok_inv in Hcases. destruct Hcases as (Hall & Hnd & _).
    split.
    + rewrite map_map in Hnd. cbn [fst] in Hnd.
      rewrite (map_ext _ snd) in Hnd by reflexivity.
      rewrite map_snd_enumerate in Hnd. exact Hnd.
    + clear Hnd. revert cases Hall.
      induction (enumerate (n_reps (execution_config env_config))) as [| jn t IH];
        intros cases Hall; inversion Hall as [| ? case ? cs [Hv Hb] Ht]; subst;
        constructor; [| apply IH; exact Ht].
      cbn [fst snd] in *. split; [exact Hv |].
      apply rbind_ok_inv in Hb. destruct Hb as (inv & Hinv & Hb).
      inversion Hb. exists inv. split; [apply index_ok_inv; exact Hinv | reflexivity].
  - apply rbind_ok_inv in E. destruct E as (inv & Hinv & E). inversion E.
    exists inv. split; [apply index_ok_inv; exact Hinv | reflexivity].
Qed.

(* ===================================================================== *)
(** * Reward estimator: when a reward is returned *)
(* ===================================================================== *)

Lemma comprehension_total {A B} (f : A -> result B) (l : list A) :
  (forall a, In a l -> exists b, f a = inr b) -> exists bs, comprehension f l = inr bs.
Proof.
  induction l as [| a t IH]; simpl; intros Hf; [eauto |].
  destruct (Hf a (or_introl eq_refl)) as (b & ->).
  destruct (IH (fun x Hx => Hf x (or_intror Hx))) as (bs & ->).
  simpl. eauto.
Qed.

Lemma comprehension_In_ok {A B} (f : A -> result B) (l : list A) bs b :
  comprehension f l = inr bs -> In b bs -> exists a, In a l /\ f a = inr b.
Proof.
  intros E Hb. apply comprehension_ok_inv in E. exact (Forall2_In_r E Hb).
Qed.

(** The estimator returns a reward when the primitive returns, for a
    non-empty batch whose probes agree on a non-zero shot count and on a
    positive batch size, one result per probe with a bit array for each
    batch element, and causal-cone positions that fit the bit arrays. *)
Lemma get_reward_with_primitive_returns reward_data primitive pub_results pub0 res0 :
  primitive (pubs reward_data) = inr pub_results ->
  nth_error (pubs reward_data) 0 = Some pub0 ->
  all_same_shots (shots pub0) (pubs reward_data) = true ->
  all_same_batch (shape0 pub0) (pubs reward_data) = true ->
  shots pub0 <> 0 ->
  (0 < shape0 pub0)%nat ->
  nth_error pub_results 0 = Some res0 ->
  (forall res, In res pub_results -> (shape0 pub0 <= length res)%nat) ->
  length (causal_cone_qubits_indices reward_data) = causal_cone_size reward_data ->
  (forall res ba i, In res pub_results -> In ba res ->
     In i (causal_cone_qubits_indices reward_data) ->
     - Z.of_nat (num_bits ba) <= i < Z.of_nat (num_bits ba)) ->
  exists reward, get_reward_with_primitive reward_data primitive = inr reward.
Proof.
  intros Hprim Hp0 Hshots Hbatch Hn Hb Hr0 Hres Hlen Hidx.
  unfold get_reward_with_primitive, survival_probability.
  rewrite Hprim. cbn [rbind]. rewrite (index_of_nth_error _ _ _ Hp0). cbn [rbind].
  rewrite Hshots, Hbatch. cbn [negb].
  rewrite (index_of_nth_error _ _ _ Hr0). cbn [rbind].
  assert (H0 : exists meas0, nth_error res0 0 = Some meas0).
  { assert (Hin0 : In res0 pub_results) by (eapply nth_error_In; eauto).
    specialize (Hres res0 Hin0).
    destruct (nth_error res0 0) eqn:E; [eauto |].
    apply nth_error_None in E. lia. }
  destruct H0 as (meas0 & Hm0). rewrite (index_of_nth_error _ _ _ Hm0). cbn [rbind].
  assert (Hdiv : forall a, exists x, py_div a (shots pub0) = inr x).
  { intros a. unfold py_div. destruct (Z.eqb_spec (shots pub0) 0); [contradiction | eauto]. }
  assert (Hget : forall res i, In res pub_results -> In i (range (shape0 pub0)) ->
                   exists ba, index res i = inr ba /\ In ba res).
  { intros res i Hin Hi. apply In_range in Hi. specialize (Hres res Hin).
    destruct (nth_error res i) as [ba |] eqn:E.
    - exists ba. split; [apply index_of_nth_error; exact E | eapply nth_error_In; eauto].
    - apply nth_error_None in E. lia. }
  destruct (num_bits meas0 =? causal_cone_size reward_data)%nat.
  - unfold survival_direct.
    destruct (comprehension_total (meas_batch (shape0 pub0)) pub_results) as (pd & Hpd).
    { intros res Hin. unfold meas_batch. apply comprehension_total.
      intros i Hi. destruct (Hget res i Hin Hi) as (ba & -> & _). eauto. }
    rewrite Hpd. cbn [rbind].
    destruct (comprehension_total
                (comprehension (fun bit_array =>
                   py_div (Z.of_nat (get_int_count bit_array 0)) (shots pub0))) pd)
      as (sp & Hsp).
    { intros row _. apply comprehension_total. intros ba _. apply Hdiv. }
    rewrite Hsp. cbn [rbind]. eauto.
  - unfold survival_postselected.
    destruct (comprehension_total
                (fun pub_result =>
                   comprehension
                     (fun i => rbind (index pub_result i)
                                 (fun m => postselect m (causal_cone_qubits_indices reward_data)
                                             (repeat false (causal_cone_size reward_data))))
                     (range (shape0 pub0)))
                pub_results) as (pd & Hpd).
    { intros res Hin. apply comprehension_total.
      intros i Hi. destruct (Hget res i Hin Hi) as (ba & -> & Hba). cbn [rbind].
      unfold postselect. rewrite repeat_length, Hlen, Nat.eqb_refl. cbn [negb].
      destruct (existsb _ (causal_cone_qubits_indices reward_data)) eqn:Ex; [| eauto].
      apply existsb_exists in Ex. destruct Ex as (j & Hj & Hor).
      specialize (Hidx res ba j Hin Hba Hj).
      apply orb_true_iff in Hor. rewrite Z.leb_le, Z.ltb_lt in Hor. lia. }
    rewrite Hpd. cbn [rbind].
    destruct (comprehension_total
                (comprehension (fun bit_array =>
                   py_div (Z.of_nat (num_shots bit_array)) (shots pub0))) pd)
      as (sp & Hsp).
    { intros row _. apply comprehension_total. intros ba _. apply Hdiv. }
    rewrite Hsp. cbn [rbind]. eauto.
Qed.

(* ===================================================================== *)
(** * Worked examples: the estimator *)
(* ===================================================================== *)

(** On the three-bit batch, the second probe and the first batch element:
    all four shots have their causal-cone bits at zero, two of them with the
    third bit set, and the survival probability is 4/4. *)
Lemma postselected_survival_is_cone_zero_fraction_witness :
  exists row,
    nth_error [[(3 # 4)%Q; (1 # 4)%Q]; [(4 # 4)%Q; (2 # 4)%Q]] 1 = Some row /\
    nth_error row 0 =
      Some (inject_Z (Z.of_nat (cone_zero_count (mkBitArray 3 [0; 0; 4; 4]%Z)
                                  (causal_cone_qubits_indices partial_cone_batch)))
            / inject_Z (shots (mkPub (measured_circuit 3) two_rows 4)))%Q.
Proof.
  apply (postselected_survival_is_cone_zero_fraction
           partial_cone_batch partial_cone_primitive
           [[(3 # 4)%Q; (1 # 4)%Q]; [(4 # 4)%Q; (2 # 4)%Q]]
           partial_cone_results (mkPub (measured_circuit 3) two_rows 4))
    with (p := 1%nat) (b := 0%nat)
         (res := [mkBitArray 3 [0; 0; 4; 4]; mkBitArray 3 [4; 0; 2; 3]]).
  - vm_compute. reflexivity.
  - reflexivity.
  - reflexivity.
  - exists [mkBitArray 3 [0; 4; 1; 0]; mkBitArray 3 [0; 1; 3; 2]], (mkBitArray 3 [0; 4; 1; 0]).
    repeat split; try reflexivity. vm_compute. intros E. discriminate E.
  - reflexivity.
  - reflexivity.
  - vm_compute. lia.
Defined.

(** The reward of the three-bit batch, column by column. *)
Lemma reward_is_mean_over_probes_witness :
  exists pub_results pub0 sp,
    partial_cone_primitive (pubs partial_cone_batch) = inr pub_results /\
    nth_error (pubs partial_cone_batch) 0 = Some pub0 /\
    survival_probability partial_cone_batch partial_cone_primitive = inr sp /\
    length sp = length pub_results /\
    length [(28 # 32)%Q; (12 # 32)%Q] = shape0 pub0 /\
    forall b, (b < shape0 pub0)%nat ->
      (nth b [(28 # 32)%Q; (12 # 32)%Q] 0 == arithmetic_mean (column sp b))%Q.
Proof.
  apply (reward_is_mean_over_probes partial_cone_batch partial_cone_primitive).
  vm_compute. reflexivity.
Defined.

(** Two probes declaring 4 and 8 shots. *)
Lemma mismatched_probes_raise_witness :
  match full_cone_primitive (pubs mismatched_batch) with
  | inl e => get_reward_with_primitive mismatched_batch full_cone_primitive = inl e
  | inr _ => exists msg,
      get_reward_with_primitive mismatched_batch full_cone_primitive
      = inl (AssertionError msg)
  end.
Proof.
  apply (mismatched_probes_raise mismatched_batch full_cone_primitive
           (mkPub (measured_circuit 2) two_rows 4) (mkPub (measured_circuit 2) two_rows 8)).
  - simpl. auto.
  - simpl. auto.
  - left. simpl. lia.
Defined.

(** The two paths on the two-bit batch. *)
Lemma postselected_path_agrees_with_direct_path_witness :
  survival_postselected [1; 0] 2 4 2 full_cone_results
  = survival_direct 4 2 full_cone_results.
Proof.
  apply postselected_path_agrees_with_direct_path.
  - reflexivity.
  - repeat constructor; simpl; intuition lia.
  - simpl. intros i [<- | [<- | []]]; lia.
  - intros res ba Hres Hba. split.
    + simpl in Hres. destruct Hres as [<- | [<- | []]];
        simpl in Hba; destruct Hba as [<- | [<- | []]]; reflexivity.
    + intros s Hs.
      simpl in Hres. destruct Hres as [<- | [<- | []]];
        simpl in Hba; destruct Hba as [<- | [<- | []]];
          simpl in Hs; repeat (destruct Hs as [<- | Hs]; [simpl; lia |]); contradiction.
Defined.

(** A cell of the survival table of the three-bit batch. *)
Lemma survival_probability_in_unit_interval_witness :
  (0 <= 1 # 4 <= 1)%Q.
Proof.
  apply (survival_probability_in_unit_interval
           partial_cone_batch partial_cone_primitive partial_cone_results
           (mkPub (measured_circuit 3) two_rows 4)
           [[(3 # 4)%Q; (1 # 4)%Q]; [(4 # 4)%Q; (2 # 4)%Q]])
    with (row := [(3 # 4)%Q; (1 # 4)%Q]).
  - reflexivity.
  - reflexivity.
  - apply (counts_bounded_by_num_shots partial_cone_batch).
    intros res ba Hres Hba.
    simpl in Hres. destruct Hres as [<- | [<- | []]];
      simpl in Hba; destruct Hba as [<- | [<- | []]]; simpl; lia.
  - vm_compute. reflexivity.
  - simpl. auto.
  - simpl. auto.
Defined.

(* ===================================================================== *)
(** * Worked examples: the synthesizers *)
(* ===================================================================== *)

(** One context: the program is built, and the simulator runs once. *)
Example one_context_program :
  @get_real_time_circuit simple_collaborators simple_reward simple_target (simple_env [1])
    (inl (context_circuit "a" "x" [0%nat])) true []
  = (inr (mkQC "real_time_cafe_qc" [0%nat] [0%nat] [mkCReg 1 "meas"]
            [mkVar (input_state_name 0) 8]
            (Some (mkQC "baseline" [0%nat] [] [] [] None [OpGate "x" [0%nat]]))
            [OpReset [0%nat];
             OpSwitch (mkVar (input_state_name 0) 8)
               [(0, [OpDelay 16 [0%nat]]);
                (1, [OpComposed [OpGate "x" [0%nat]] [0%nat]]);
                (2, [OpComposed [OpGate "h" [0%nat]] [0%nat]]);
                (3, [OpComposed [OpGate "h" [0%nat]; OpGate "s" [0%nat]] [0%nat]])];
             OpComposed [OpGate "x_cal" [0%nat]] [0%nat];
             OpComposed [OpUnitary (adjoint identity_unitary) [0%nat] "U_inv"] [0%nat];
             OpSwitch (mkVar (input_state_name 0) 8)
               [(0, [OpDelay 16 [0%nat]]);
                (1, [OpComposed [OpGate "x" [0%nat]] [0%nat]]);
                (2, [OpComposed [OpGate "h" [0%nat]] [0%nat]]);
                (3, [OpComposed [OpGate "s" [0%nat]; OpGate "h" [0%nat]] [0%nat]])];
             OpMeasure [0%nat] (mkCReg 1 "meas")]),
     [(0%nat, 1)]).
Proof. vm_compute. reflexivity. Qed.

(** Two contexts: the first turn of the loop computes the inverse of the
    first context and then fails to select the inverse of the second. *)
Example two_contexts_raise :
  @get_real_time_circuit simple_collaborators simple_reward simple_target (simple_env [1])
    two_contexts true []
  = (inl IndexError, [(0%nat, 1)]).
Proof. vm_compute. reflexivity. Qed.

(** Two contexts on the same qubit, one repetition count. *)
Lemma several_contexts_yield_no_program_witness :
  exists e,
    fst (@get_real_time_circuit simple_collaborators simple_reward simple_target
           (simple_env [1]) two_contexts true []) = inl e.
Proof.
  apply (@several_contexts_yield_no_program simple_collaborators).
  simpl. lia.
Defined.

(** Two contexts on the same qubit, two repetition counts. *)
Lemma later_contexts_have_no_inverse_witness :
  (exists e,
     fst (@get_real_time_circuit simple_collaborators simple_reward simple_target
            (simple_env [1; 2]) two_contexts true []) = inl e) /\
  forall i n,
    In (i, n)
       (snd (@get_real_time_circuit simple_collaborators simple_reward simple_target
               (simple_env [1; 2]) two_contexts true [])) ->
    i = 0%nat.
Proof.
  apply (@later_contexts_have_no_inverse simple_collaborators).
  simpl. lia.
Defined.

(** Two contexts on different qubits are refused; the program of one
    context starts with the reset of its qubit. *)
Lemma real_time_circuit_qubit_check_and_reset_witness :
  @get_real_time_circuit simple_collaborators simple_reward simple_target (simple_env [1])
    mismatched_contexts true []
  = (inl (ValueError "All circuits must have the same qubits"), []) /\
  exists first built rest,
    nth_error (prep_circuits_of (inl (context_circuit "a" "x" [0%nat]))) 0 = Some first /\
    fst (@get_real_time_circuit simple_collaborators simple_reward simple_target
           (simple_env [1]) (inl (context_circuit "a" "x" [0%nat])) true []) = inr built /\
    qc_name built = "real_time_cafe_qc"%string /\
    qubits built = qubits first /\
    baseline_circuit built = baseline_circuit first /\
    data built = OpReset (qubits first) :: rest.
Proof.
  split.
  - apply (proj1 (@real_time_circuit_qubit_check_and_reset simple_collaborators
                    simple_reward simple_target (simple_env [1]) mismatched_contexts true [])).
    exists (context_circuit "a" "x" [0%nat]), (context_circuit "b" "h" [1%nat]).
    split; [simpl; auto |]. split; [simpl; auto |].
    simpl. intros E. discriminate E.
  - destruct (proj2 (@real_time_circuit_qubit_check_and_reset simple_collaborators
                       simple_reward simple_target (simple_env [1])
                       (inl (context_circuit "a" "x" [0%nat])) true [])
                    _ _ one_context_program)
      as (first & built & rest & Hfirst & _ & Hprog & Hname & Hq & Hb & Hd).
    exists first, built, rest.
    rewrite one_context_program. cbn [fst]. subst built.
    repeat split; assumption.
Defined.

(** A fresh reward object and one whose generator has already been used,
    both reseeded with 7. *)
Lemma sampling_is_reproducible_witness :
  fst (@sample_input_states simple_collaborators
         (set_reward_seed simple_reward 7) simple_target (simple_env [1]))
  = fst (@sample_input_states simple_collaborators
           (set_reward_seed
              (snd (@sample_input_states simple_collaborators simple_reward simple_target
                      (simple_env [1])))
              7)
           simple_target (simple_env [1])).
Proof.
  apply (@sampling_is_reproducible simple_collaborators).
  reflexivity.
Defined.

(** Without reseeding, the second of two successive draws differs from the
    first: the generator has advanced. *)
Example successive_draws_differ :
  let fresh := @new_CAFEReward simple_collaborators pauli4 7 in
  let first := @sample_input_states simple_collaborators fresh simple_target (simple_env [1]) in
  let second :=
    @sample_input_states simple_collaborators (snd first) simple_target (simple_env [1]) in
  fst first = inr [0; 2; 3]%nat /\ fst second = inr [1; 2]%nat.
Proof. split; vm_compute; reflexivity. Qed.

Example example_probes_indices :
  map rd_input_indices example_probes = [[0]; [1]; [2]]%nat.
Proof. vm_compute. reflexivity. Qed.

Lemma returned_probes_run `{Collaborators} (run : result (list CAFERewardData) * CAFEReward) :
  (match fst run with inr _ => true | inl _ => false end) = true ->
  run = (inr (match fst run with inr probes => probes | inl _ => [] end), snd run).
Proof.
  destruct run as [[e | probes] self']; simpl; intros E; [discriminate | reflexivity].
Qed.

(** Five draws among four input states give three probes. *)
Lemma one_probe_per_unique_sample_witness :
  exists draws rng',
    @rng_choice simple_collaborators (input_states_rng simple_reward)
      (length (GateTarget.input_states simple_target (input_states_choice simple_reward)))
      (sampling_paulis (simple_env [1])) = inr (draws, rng') /\
    map (probe_sample simple_reward simple_target) example_probes = np_unique draws /\
    NoDup (map (probe_sample simple_reward simple_target) example_probes) /\
    (forall s, In s draws ->
       length (filter (fun d => (probe_sample simple_reward simple_target d =? s)%nat)
                 example_probes) = 1%nat) /\
    (forall s, ~ In s draws ->
       filter (fun d => (probe_sample simple_reward simple_target d =? s)%nat)
         example_probes = []) /\
    (forall d, In d example_probes ->
       exists input_state,
         nth_error (GateTarget.input_states simple_target (input_states_choice simple_reward))
                   (probe_sample simple_reward simple_target d) = Some input_state /\
         rd_input_circuit d = circuit input_state).
Proof.
  apply (@one_probe_per_unique_sample simple_collaborators simple_reward (snd example_run)
           (context_circuit "a" "x" [0%nat]) [[(1 # 2)%Q]] simple_target (simple_env [1]) None
           example_probes).
  apply (@returned_probes_run simple_collaborators example_run).
  vm_compute. reflexivity.
Defined.

(* ===================================================================== *)
(** * Reward estimator: edge cases and the range of the reward *)
(* ===================================================================== *)

(** Every cell of the survival table is a count of shots of some bit array
    divided by the declared shot count: the count of the outcome 0 on the
    direct path, the number of retained shots on the post-selected path. *)
Lemma survival_cell_form reward_data primitive sp :
  survival_probability reward_data primitive = inr sp ->
  exists pub_results pub0,
    primitive (pubs reward_data) = inr pub_results /\
    nth_error (pubs reward_data) 0 = Some pub0 /\
    forall row x, In row sp -> In x row ->
      exists res ba k,
        In res pub_results /\ In ba res /\
        py_div (Z.of_nat k) (shots pub0) = inr x /\
        (k = get_int_count ba 0 \/
         exists ba',
           postselect ba (causal_cone_qubits_indices reward_data)
                      (repeat false (causal_cone_size reward_data)) = inr ba' /\
           k = num_shots ba').
Proof.
  intros Hsp. apply survival_probability_ok_inv in Hsp.
  destruct Hsp as (pr & pub0 & res0 & meas0 & Hprim & Hp0 & _ & _ & _ & _ & Hbranch).
  exists pr, pub0. split; [exact Hprim |]. split; [exact Hp0 |].
  intros row x Hrow Hx.
  destruct (num_bits meas0 =? causal_cone_size reward_data)%nat.
  - apply survival_direct_cells in Hbranch.
    destruct (Forall2_In_r Hbranch Hrow) as (res & Hres & Hcells).
    destruct (Forall2_In_r Hcells Hx) as (i & _ & ba & Hba & Hdiv).
    exists res, ba, (get_int_count ba 0).
    repeat split; auto. eapply nth_error_In; eauto.
  - apply survival_postselected_cells in Hbranch.
    destruct (Forall2_In_r Hbranch Hrow) as (res & Hres & Hcells).
    destruct (Forall2_In_r Hcells Hx) as (i & _ & ba & ba' & Hba & Hps & Hdiv).
    exists res, ba, (num_shots ba').
    repeat split; eauto. eapply nth_error_In; eauto.
Qed.

Lemma Qsum_between (lo hi : Q) (l : list Q) :
  (forall x, In x l -> lo <= x <= hi)%Q ->
  (inject_Z (Z.of_nat (length l)) * lo <= Qsum l <= inject_Z (Z.of_nat (length l)) * hi)%Q.
Proof.
  induction l as [| x t IH]; intros Hall.
  - simpl. split; rewrite Qmult_0_l; apply Qle_refl.
  - destruct (Hall x (or_introl eq_refl)) as [Hlo Hhi].
    destruct (IH (fun y Hy => Hall y (or_intror Hy))) as [IHlo IHhi].
    assert (Hlen : (inject_Z (Z.of_nat (length (x :: t))) == 1 + inject_Z (Z.of_nat (length t)))%Q).
    { cbn [length]. rewrite Nat2Z.inj_succ. unfold Z.succ. rewrite inject_Z_plus. ring. }
    cbn [Qsum fold_right]. fold (Qsum t). rewrite Hlen. split.
    + setoid_replace ((1 + inject_Z (Z.of_nat (length t))) * lo)%Q
        with (lo + inject_Z (Z.of_nat (length t)) * lo)%Q by ring.
      apply Qplus_le_compat; assumption.
    + setoid_replace ((1 + inject_Z (Z.of_nat (length t))) * hi)%Q
        with (hi + inject_Z (Z.of_nat (length t)) * hi)%Q by ring.
      apply Qplus_le_compat; assumption.
Qed.

(** The mean of a non-empty list lies between any two bounds of its
    members. *)
Lemma arithmetic_mean_between (lo hi : Q) (l : list Q) :
  l <> [] ->
  (forall x, In x l -> lo <= x <= hi)%Q ->
  (lo <= arithmetic_mean l <= hi)%Q.
Proof.
  intros Hne Hall. destruct (Qsum_between lo hi l Hall) as [Hlo Hhi].
  assert (Hpos : (0 < inject_Z (Z.of_nat (length l)))%Q).
  { change 0%Q with (inject_Z 0). rewrite <- Zlt_Qlt.
    destruct l; [congruence | cbn [length]; lia]. }
  unfold arithmetic_mean. split.
  - apply Qle_shift_div_l; [exact Hpos |]. rewrite Qmult_comm. exact Hlo.
  - apply Qle_shift_div_r; [exact Hpos |]. rewrite Qmult_comm. exact Hhi.
Qed.

(** Every entry of the mean over the rows lies between any two bounds of the
    cells of the table. *)
Lemma np_mean_axis0_between (lo hi : Q) (B : nat) (sp : list (list Q)) :
  sp <> [] -> Forall (fun row => length row = B) sp ->
  (forall row x, In row sp -> In x row -> lo <= x <= hi)%Q ->
  forall y, In y (np_mean_axis0 sp) -> (lo <= y <= hi)%Q.
Proof.
  intros Hne Hrows Hcells y Hy.
  destruct (np_mean_axis0_spec Hne Hrows) as [Hlen Hmean].
  destruct (In_nth _ _ 0%Q Hy) as (b & Hb & Hnth). rewrite Hlen in Hb.
  rewrite <- Hnth. rewrite (Hmean b Hb).
  apply arithmetic_mean_between.
  - unfold column. destruct sp; [congruence | discriminate].
  - intros x Hx. unfold column in Hx. apply in_map_iff in Hx.
    destruct Hx as (row & <- & Hrow).
    apply (Hcells row); [exact Hrow |].
    apply nth_In. rewrite Forall_forall in Hrows. rewrite (Hrows row Hrow). exact Hb.
Qed.

(** X1.  An empty batch of probes never yields a reward: the estimator ends
    in the exception of the primitive or, when the primitive returns, in the
    [IndexError] of [reward_data.pubs[0]] (line 198). *)
Theorem empty_batch_raises reward_data primitive :
  pubs reward_data = [] ->
  match primitive (pubs reward_data) with
  | inl e => get_reward_with_primitive reward_data primitive = inl e
  | inr _ => get_reward_with_primitive reward_data primitive = inl IndexError
  end.
Proof.
  intros Hempty. unfold get_reward_with_primitive, survival_probability.
  rewrite Hempty. destruct (primitive []); reflexivity.
Qed.

(** X2.  Under the bound on the counts (no all-zero count and no number of
    retained shots exceeds the declared shot count), every entry of the
    returned reward lies in the closed interval [0, 1]. *)
Theorem reward_in_unit_interval reward_data primitive pub_results pub0 reward :
  primitive (pubs reward_data) = inr pub_results ->
  nth_error (pubs reward_data) 0 = Some pub0 ->
  (forall res ba, In res pub_results -> In ba res ->
     Z.of_nat (get_int_count ba 0) <= shots pub0 /\
     forall ba',
       postselect ba (causal_cone_qubits_indices reward_data)
                  (repeat false (causal_cone_size reward_data)) = inr ba' ->
       Z.of_nat (num_shots ba') <= shots pub0) ->
  get_reward_with_primitive reward_data primitive = inr reward ->
  forall y, In y reward -> (0 <= y <= 1)%Q.
Proof.
  intros Hprim Hp0 Hcounts Hrun.
  unfold get_reward_with_primitive in Hrun.
  apply rbind_ok_inv in Hrun. destruct Hrun as (sp & Hsp & Hmean).
  inversion Hmean; subst reward. clear Hmean.
  destruct (survival_probability_shape _ _ _ Hsp)
    as (pr & q0 & Hprim' & Hq0 & Hne & _ & Hrows).
  apply (np_mean_axis0_between 0 1 (shape0 q0)); [exact Hne | exact Hrows |].
  intros row x Hrow Hx.
  destruct (survival_cell_form _ _ _ Hsp) as (pr2 & q2 & Hprim2 & Hq2 & Hcell).
  rewrite Hprim in Hprim2. inversion Hprim2; subst pr2.
  rewrite Hp0 in Hq2. inversion Hq2; subst q2.
  destruct (Hcell row x Hrow Hx) as (res & ba & k & Hres & Hba & Hdiv & Hk).
  destruct (Hcounts res ba Hres Hba) as [Hc0 Hcps].
  eapply py_div_unit_interval; [| exact Hdiv].
  destruct Hk as [-> | (ba' & Hps & ->)]; [lia |].
  specialize (Hcps ba' Hps). lia.
Qed.

(** X4.  With a declared shot count of 0 and at least one batch element the
    estimator returns no reward: every path divides by the shot count. *)
Theorem zero_shots_raise reward_data primitive pub0 :
  nth_error (pubs reward_data) 0 = Some pub0 ->
  shots pub0 = 0 ->
  (0 < shape0 pub0)%nat ->
  exists e, get_reward_with_primitive reward_data primitive = inl e.
Proof.
  intros Hp0 Hzero Hbatch.
  destruct (get_reward_with_primitive reward_data primitive) as [e | reward] eqn:Hrun;
    [eauto | exfalso].
  unfold get_reward_with_primitive in Hrun.
  apply rbind_ok_inv in Hrun. destruct Hrun as (sp & Hsp & _).
  destruct (survival_probability_shape _ _ _ Hsp)
    as (pr & q0 & _ & Hq0 & Hne & _ & Hrows).
  rewrite Hp0 in Hq0. inversion Hq0; subst q0.
  destruct sp as [| row sp']; [congruence |].
  inversion Hrows as [| ? ? Hrow _]; subst.
  destruct row as [| x row']; [simpl in Hrow; lia |].
  destruct (survival_cell_form _ _ _ Hsp) as (pr2 & q2 & _ & Hq2 & Hcell).
  rewrite Hp0 in Hq2. inversion Hq2; subst q2.
  destruct (Hcell (x :: row') x (or_introl eq_refl) (or_introl eq_refl))
    as (_ & _ & k & _ & _ & Hdiv & _).
  apply py_div_ok_inv in Hdiv. destruct Hdiv as [Hn _]. contradiction.
Qed.

Lemma filter_all_true {A} (f : A -> bool) (l : list A) :
  (forall a, In a l -> f a = true) -> filter f l = l.
Proof.
  induction l as [| a t IH]; simpl; intros Hall; [reflexivity |].
  rewrite (Hall a (or_introl eq_refl)). f_equal. apply IH. auto.
Qed.

Lemma cone_bits_zero_of_zero nbits indices : cone_bits_zero nbits indices 0 = true.
Proof.
  unfold cone_bits_zero. apply forallb_forall. intros i _.
  rewrite Z.testbit_0_l. reflexivity.
Qed.

Lemma py_div_same (n : Z) (x : Q) : py_div n n = inr x -> (x == 1)%Q.
Proof.
  intros H. apply py_div_ok_inv in H. destruct H as [Hn ->].
  field. intros E. apply Hn. change 0%Q with (inject_Z 0) in E.
  exact (proj1 (inject_Z_injective n 0) E).
Qed.

(** X3.  When every bit array holds exactly the declared number of shots
    and every shot reads the outcome 0, every entry of the returned reward
    equals 1, on the direct and on the post-selected path. *)
Theorem all_zero_outcomes_give_reward_one reward_data primitive pub_results pub0 reward :
  primitive (pubs reward_data) = inr pub_results ->
  nth_error (pubs reward_data) 0 = Some pub0 ->
  (forall res ba, In res pub_results -> In ba res ->
     Z.of_nat (num_shots ba) = shots pub0 /\
     forall s, In s (shot_values ba) -> s = 0) ->
  get_reward_with_primitive reward_data primitive = inr reward ->
  forall y, In y reward -> (y == 1)%Q.
Proof.
  intros Hprim Hp0 Hall Hrun.
  unfold get_reward_with_primitive in Hrun.
  apply rbind_ok_inv in Hrun. destruct Hrun as (sp & Hsp & Hmean).
  inversion Hmean; subst reward. clear Hmean.
  destruct (survival_probability_shape _ _ _ Hsp)
    as (pr & q0 & _ & _ & Hne & _ & Hrows).
  assert (Hcells : (forall row x, In row sp -> In x row -> 1 <= x <= 1)%Q).
  { intros row x Hrow Hx.
    destruct (survival_cell_form _ _ _ Hsp) as (pr2 & q2 & Hprim2 & Hq2 & Hcell).
    rewrite Hprim in Hprim2. inversion Hprim2; subst pr2.
    rewrite Hp0 in Hq2. inversion Hq2; subst q2.
    destruct (Hcell row x Hrow Hx) as (res & ba & k & Hres & Hba & Hdiv & Hk).
    destruct (Hall res ba Hres Hba) as [Hn Hzero].
    assert (Hkn : Z.of_nat k = shots pub0).
    { rewrite <- Hn. f_equal. destruct Hk as [-> | (ba' & Hps & ->)].
      - unfold get_int_count, num_shots. rewrite <- count_occ_filter_eqb.
        rewrite filter_all_true; [reflexivity |].
        intros s Hs. rewrite (Hzero s Hs). reflexivity.
      - apply postselect_all_zero_num_shots in Hps. destruct Hps as [_ ->].
        unfold cone_zero_count, num_shots.
        rewrite filter_all_true; [reflexivity |].
        intros s Hs. rewrite (Hzero s Hs). apply cone_bits_zero_of_zero. }
    rewrite Hkn in Hdiv. apply py_div_same in Hdiv.
    rewrite Hdiv. split; apply Qle_refl. }
  intros y Hy.
  destruct (np_mean_axis0_between 1 1 (shape0 q0) sp Hne Hrows Hcells y Hy) as [Hlo Hhi].
  apply Qle_antisym; assumption.
Qed.

(* ===================================================================== *)
(** * Static probes: errors, bookkeeping and the shape of a probe *)
(* ===================================================================== *)

(** X6.  A target that is not a gate target is refused with the
    [ValueError] of line 73, and a missing baseline (no argument, no
    ["baseline_circuit"] in the metadata) with a [KeyError]; in both cases
    the reward object comes back as it was: no draw is taken from its
    generator, even though a gate target with a missing baseline has input
    states to draw from. *)
Theorem early_errors_leave_generator `{Collaborators} (self : CAFEReward)
    qc params (target : GateTarget.t) env_config baseline_arg :
  get_reward_data self qc params IsOtherTarget env_config baseline_arg
  = (inl (ValueError "CAFE reward can only be computed for a target gate"), self) /\
  (baseline_circuit qc = None ->
   get_reward_data self qc params (IsGateTarget target) env_config None
   = (inl (KeyError "baseline_circuit"), self)).
Proof.
  split; [reflexivity |].
  intros Hnone. unfold get_reward_data. rewrite Hnone. reflexivity.
Qed.

(** X7.  Whatever [get_reward_data] returns or raises, the basis family and
    the stored seed of the reward object are unchanged, and its generator is
    either untouched or advanced by exactly the one draw of line 85: a
    failure while a probe is built does not give the draw back. *)
Theorem generator_after_get_reward_data `{Collaborators} (self : CAFEReward)
    qc params (target : Target) env_config baseline_arg :
  let self' := snd (get_reward_data self qc params target env_config baseline_arg) in
  input_states_choice self' = input_states_choice self /\
  input_states_seed self' = input_states_seed self /\
  (input_states_rng self' = input_states_rng self \/
   exists (g : GateTarget.t) draws,
     target = IsGateTarget g /\
     rng_choice (input_states_rng self)
       (length (GateTarget.input_states g (input_states_choice self)))
       (sampling_paulis env_config) = inr (draws, input_states_rng self')).
Proof.
  unfold get_reward_data. destruct target as [g |]; cbn zeta; [| auto].
  destruct (match baseline_arg with Some b => inr b | None => _ end) as [e | circuit_ref];
    [cbn; auto |].
  unfold sample_input_states.
  destruct (rng_choice _ _ _) as [e | [draws rng']] eqn:Edraw; cbn; [auto |].
  repeat split. right. exists g, draws. split; [reflexivity | exact Edraw].
Qed.

(** What a probe records besides its sample. *)
Lemma probe_of_sample_fields `{Collaborators} self qc params target env_config circuit_ref
    sample d :
  probe_of_sample self qc params target env_config circuit_ref sample = inr d ->
  shots (rd_pub d) = n_shots (execution_config env_config) /\
  parameter_values (rd_pub d) = params /\
  rd_n_reps d = current_n_reps (execution_config env_config) /\
  rd_causal_cone_qubits_indices d = GateTarget.causal_cone_qubits_indices target /\
  exists transpiled reverse,
    pub_circuit (rd_pub d)
    = measure_all (compose_front (append transpiled [OpBarrier]) reverse) /\
    (num_qubits reverse = GateTarget.causal_cone_size target /\
     rd_reverse_circuit d = reverse \/
     num_qubits reverse <> GateTarget.causal_cone_size target /\
     exists qs, causal_cone_circuit reverse (GateTarget.physical_qubits target)
                = inr (rd_reverse_circuit d, qs)).
Proof.
  unfold probe_of_sample. intros H0. invert_bind H0.
  inversion H0; subst d; cbn.
  repeat (split; [reflexivity |]).
  eexists _, _. split; [reflexivity |].
  match goal with
  | Hc : (if negb (?a =? ?b)%nat then _ else _) = inr _ |- _ =>
      destruct (Nat.eqb_spec a b) as [Heq | Hne]; cbn [negb] in Hc
  end.
  - left. split; [exact Heq | congruence].
  - right. split; [exact Hne |].
    match goal with
    | Hc : rbind _ _ = inr _ |- _ =>
        apply rbind_ok_inv in Hc; destruct Hc as ([c qs] & Hcone & Hc);
        inversion Hc; subst; exists qs; exact Hcone
    end.
Qed.

Lemma insert_unique_length (x : nat) (l : list nat) :
  (length (insert_unique x l) <= S (length l))%nat.
Proof.
  induction l as [| y t IH]; simpl; [lia |].
  destruct (x <? y)%nat; [simpl; lia |].
  destruct (x =? y)%nat; simpl; lia.
Qed.

Lemma np_unique_length (a : list nat) : (length (np_unique a) <= length a)%nat.
Proof.
  unfold np_unique. induction a as [| x t IH]; simpl; [lia |].
  pose proof (insert_unique_length x (fold_right insert_unique [] t)). lia.
Qed.

Lemma unravel_below (shape : list nat) : forall idx,
  (idx < shape_size shape)%nat ->
  Forall2 (fun i d => (i < d)%nat) (unravel idx shape) shape.
Proof.
  induction shape as [| d rest IH]; intros idx Hidx; simpl in *; [constructor |].
  assert (Hpos : shape_size rest <> 0%nat) by (intros E; rewrite E in Hidx; lia).
  constructor.
  - apply Nat.Div0.div_lt_upper_bound. lia.
  - apply IH. apply Nat.mod_upper_bound. exact Hpos.
Qed.

(** What [get_reward_data] went through when it returned its probes. *)
Lemma get_reward_data_ok_inv `{Collaborators} (self self' : CAFEReward)
    qc params (target : GateTarget.t) env_config baseline_arg probes :
  get_reward_data self qc params (IsGateTarget target) env_config baseline_arg
    = (inr probes, self') ->
  exists circuit_ref draws rng',
    rng_choice (input_states_rng self)
      (length (GateTarget.input_states target (input_states_choice self)))
      (sampling_paulis env_config) = inr (draws, rng') /\
    Forall2 (fun sample d =>
               probe_of_sample self qc params target env_config circuit_ref sample = inr d)
            (np_unique draws) probes.
Proof.
  unfold get_reward_data. intros Hrun.
  destruct (match baseline_arg with Some b => inr b | None => _ end) as [e | circuit_ref];
    [inversion Hrun |].
  unfold sample_input_states in Hrun.
  destruct (rng_choice _ _ _) as [e | [draws rng']] eqn:Edraw; [inversion Hrun |].
  inversion Hrun as [[Hprobes Hself]].
  exists circuit_ref, draws, rng'. split; [reflexivity |].
  apply comprehension_ok_inv. exact Hprobes.
Qed.

(** X8.  The probes of one call agree on everything the estimator checks
    and on their bookkeeping: each carries the configured shot count, the
    parameter batch handed to the call, the current repetition count and
    the causal-cone positions of the target.  So the two assertions of
    [get_reward_with_primitive] hold for the pubs of the probes. *)
Theorem probes_share_shots_and_batch `{Collaborators} (self self' : CAFEReward)
    qc params (target : GateTarget.t) env_config baseline_arg probes :
  get_reward_data self qc params (IsGateTarget target) env_config baseline_arg
    = (inr probes, self') ->
  all_same_shots (n_shots (execution_config env_config)) (map rd_pub probes) = true /\
  all_same_batch (length params) (map rd_pub probes) = true /\
  forall d, In d probes ->
    parameter_values (rd_pub d) = params /\
    rd_n_reps d = current_n_reps (execution_config env_config) /\
    rd_causal_cone_qubits_indices d = GateTarget.causal_cone_qubits_indices target.
Proof.
  intros Hrun. apply get_reward_data_ok_inv in Hrun.
  destruct Hrun as (circuit_ref & draws & rng' & _ & Hprobes).
  assert (Hfields : forall d, In d probes ->
            shots (rd_pub d) = n_shots (execution_config env_config) /\
            parameter_values (rd_pub d) = params /\
            rd_n_reps d = current_n_reps (execution_config env_config) /\
            rd_causal_cone_qubits_indices d
            = GateTarget.causal_cone_qubits_indices target).
  { intros d Hd. destruct (Forall2_In_r Hprobes Hd) as (s & _ & Hsd).
    apply probe_of_sample_fields in Hsd. tauto. }
  split; [| split].
  - unfold all_same_shots. apply forallb_forall. intros pub Hpub.
    apply in_map_iff in Hpub. destruct Hpub as (d & <- & Hd).
    apply Z.eqb_eq. apply (Hfields d Hd).
  - unfold all_same_batch. apply forallb_forall. intros pub Hpub.
    apply in_map_iff in Hpub. destruct Hpub as (d & <- & Hd).
    apply Nat.eqb_eq. unfold shape0. destruct (Hfields d Hd) as (_ & -> & _). reflexivity.
  - intros d Hd. destruct (Hfields d Hd) as (_ & ? & ? & ?). auto.
Qed.

(** X9.  The multi-index recorded by a probe has one entry per causal-cone
    qubit, each below the number of input states per qubit. *)
Theorem probe_multi_index_in_range `{Collaborators} (self self' : CAFEReward)
    qc params (target : GateTarget.t) env_config baseline_arg probes :
  get_reward_data self qc params (IsGateTarget target) env_config baseline_arg
    = (inr probes, self') ->
  forall d, In d probes ->
    length (rd_input_indices d) = GateTarget.causal_cone_size target /\
    forall i, In i (rd_input_indices d) ->
      (i < get_input_states_cardinality_per_qubit (input_states_choice self))%nat.
Proof.
  intros Hrun d Hd. apply get_reward_data_ok_inv in Hrun.
  destruct Hrun as (circuit_ref & draws & rng' & _ & Hprobes).
  destruct (Forall2_In_r Hprobes Hd) as (s & _ & Hsd).
  apply probe_of_sample_ok_inv in Hsd. destruct Hsd as (Hun & _).
  unfold unravel_index in Hun.
  destruct (Nat.leb_spec (shape_size
              (repeat (get_input_states_cardinality_per_qubit (input_states_choice self))
                      (GateTarget.causal_cone_size target))) s) as [| Hlt];
    [discriminate |].
  inversion Hun as [Hidx]. clear Hun.
  split; [rewrite unravel_length, repeat_length; reflexivity |].
  intros i Hi. pose proof (unravel_below _ _ Hlt) as Hbelow.
  apply In_nth_error in Hi. destruct Hi as (k & Hk).
  destruct (Forall2_nth_error_l Hbelow Hk) as (c & Hc & Hic).
  apply nth_error_In in Hc. apply repeat_spec in Hc. subst c. exact Hic.
Qed.

(** X10.  The probes come in strictly increasing order of their sample
    index, and there are no more probes than draws. *)
Theorem probes_in_increasing_order `{Collaborators} (self self' : CAFEReward)
    qc params (target : GateTarget.t) env_config baseline_arg probes :
  get_reward_data self qc params (IsGateTarget target) env_config baseline_arg
    = (inr probes, self') ->
  StronglySorted lt (map (probe_sample self target) probes) /\
  exists draws rng',
    rng_choice (input_states_rng self)
      (length (GateTarget.input_states target (input_states_choice self)))
      (sampling_paulis env_config) = inr (draws, rng') /\
    (length probes <= length draws)%nat.
Proof.
  intros Hrun. apply get_reward_data_ok_inv in Hrun.
  destruct Hrun as (circuit_ref & draws & rng' & Hdraw & Hprobes).
  assert (Hmap : map (probe_sample self target) probes = np_unique draws).
  { clear Hdraw. induction Hprobes as [| s d ss ds Hsd _ IH]; simpl; [reflexivity |].
    rewrite IH. f_equal.
    apply probe_of_sample_ok_inv in Hsd. destruct Hsd as (Hun & _).
    unfold probe_sample. apply unravel_index_ravel. exact Hun. }
  split; [rewrite Hmap; apply np_unique_sorted |].
  exists draws, rng'. split; [exact Hdraw |].
  rewrite <- (length_map (probe_sample self target)), Hmap. apply np_unique_length.
Qed.


(* ===================================================================== *)
(** * Real-time program: refused inputs *)
(* ===================================================================== *)

Lemma get_real_time_circuit_ok_inv `{Collaborators} self target env_config circuits
    skip_transpilation log program log' :
  get_real_time_circuit self target env_config circuits skip_transpilation log
  = (inr program, log') ->
  exists built,
    build_real_time_circuit self target env_config (prep_circuits_of circuits) log
    = (inr built, log') /\
    (if skip_transpilation then program = built
     else custom_transpile (backend_info env_config) built (final_transpile_options target)
          = inr program).
Proof.
  unfold get_real_time_circuit. intros E.
  apply sim_bind_ok_inv in E. destruct E as (built & l1 & Eb & E).
  exists built. destruct skip_transpilation.
  - inversion E; subst. auto.
  - apply lift_ok_inv in E. destruct E as [E ->]. auto.
Qed.

(** An empty list of circuits passes the qubit comparison (there is
    nothing to compare) and then fails at [prep_circuits[0]]: the call
    raises [IndexError], not the [ValueError] of the comparison, and runs no
    simulation. *)
Lemma no_circuit_raises_IndexError `{Collaborators}
    (self : CAFEReward) (target : GateTarget.t) (env_config : QEnvConfig)
    (skip_transpilation : bool) (log : list SimRun) :
  get_real_time_circuit self target env_config (inr []) skip_transpilation log
  = (inl IndexError, log).
Proof. reflexivity. Qed.

(** X13.  When the first circuit carries no baseline circuit in its
    metadata, the call returns no program and runs no simulation: the
    missing baseline is found in the first turn of the loop, before any
    inverse is computed. *)
Theorem missing_baseline_runs_no_simulation `{Collaborators}
    (self : CAFEReward) (target : GateTarget.t) (env_config : QEnvConfig)
    (circuits : QuantumCircuit + list QuantumCircuit) (skip_transpilation : bool)
    (log : list SimRun) (c : QuantumCircuit) :
  nth_error (prep_circuits_of circuits) 0 = Some c ->
  baseline_circuit c = None ->
  exists e,
    get_real_time_circuit self target env_config circuits skip_transpilation log
    = (inl e, log).
Proof.
  intros Hfirst Hnone. unfold get_real_time_circuit.
  destruct (prep_circuits_of circuits) as [| c0 rest]; [discriminate |].
  cbn in Hfirst. inversion Hfirst; subst c0. clear Hfirst.
  unfold sim_bind at 1. unfold build_real_time_circuit.
  unfold sim_bind at 1, lift at 1.
  destruct (declare_program _ _ _) as [e | [[[qc0 nv] meas] vars]]; [eauto |].
  unfold sim_bind at 1, lift at 1.
  destruct (prepare_input_states _ _ _) as [e | qc1]; [eauto |].
  unfold sim_bind at 1, lift at 1.
  destruct (forward_branches _ _ _ _) as [e | [qc2 cc]]; [eauto |].
  unfold sim_bind at 1, lift at 1.
  destruct (comprehension inverse _) as [e | invs]; [eauto |].
  cbn [map length enumerate seq combine inversion_loop].
  rewrite Hnone. unfold sim_bind at 1. unfold sim_bind at 1.
  unfold inversion_turn, lift. eauto.
Qed.

(** X14.  When the first circuit already has classical bits and its first
    classical register does not have the size of the causal cone, the call
    raises the [ValueError] of line 264 and runs no simulation (the circuits
    agreeing on their qubits, and the name ["n_reps"] being free when that
    input has to be declared). *)
Theorem register_size_mismatch_raises `{Collaborators}
    (self : CAFEReward) (target : GateTarget.t) (env_config : QEnvConfig)
    (circuits : QuantumCircuit + list QuantumCircuit) (skip_transpilation : bool)
    (log : list SimRun) (c : QuantumCircuit) (creg : ClassicalRegister) :
  nth_error (prep_circuits_of circuits) 0 = Some c ->
  all_same_qubits (prep_circuits_of circuits) = true ->
  clbits c <> [] ->
  nth_error (cregs c) 0 = Some creg ->
  creg_size creg <> GateTarget.causal_cone_size target ->
  ((1 < length (n_reps (execution_config env_config)))%nat ->
   forall v, In v (inputs c) -> var_name v <> n_reps_name) ->
  get_real_time_circuit self target env_config circuits skip_transpilation log
  = (inl (ValueError "Classical register size must match the target causal cone size"),
     log).
Proof.
  intros Hfirst Hsame Hclbits Hcreg Hsize Hfree.
  unfold get_real_time_circuit, sim_bind, build_real_time_circuit, sim_bind, lift,
    declare_program.
  rewrite Hsame. cbn [negb]. rewrite (index_of_nth_error _ _ _ Hfirst). cbn [rbind].
  assert (Hcheck : forall qc,
            clbits qc = clbits c -> cregs qc = cregs c ->
            (match clbits qc with
             | [] => inr (add_register qc (mkCReg (GateTarget.causal_cone_size target) "meas"),
                          mkCReg (GateTarget.causal_cone_size target) "meas")
             | _ :: _ =>
                 rbind (index (cregs qc) 0)
                   (fun meas =>
                      if negb (creg_size meas =? GateTarget.causal_cone_size target)%nat
                      then inl (ValueError
                             "Classical register size must match the target causal cone size")
                      else inr (qc, meas))
             end)
            = inl (ValueError
                     "Classical register size must match the target causal cone size")).
  { intros qc Hcl Hcr. rewrite Hcl, Hcr.
    destruct (clbits c); [congruence |].
    rewrite (index_of_nth_error _ _ _ Hcreg). cbn [rbind].
    destruct (Nat.eqb_spec (creg_size creg) (GateTarget.causal_cone_size target));
      [contradiction | reflexivity]. }
  destruct (Nat.ltb_spec 1 (length (n_reps (execution_config env_config)))) as [Hlt | Hle].
  - unfold add_input. cbn [copy_empty_like append with_data inputs].
    assert (Hex : existsb (fun v => VarName_eqb (var_name v) n_reps_name) (inputs c) = false).
    { apply not_true_is_false. intros Hex. apply existsb_exists in Hex.
      destruct Hex as (v & Hv & Hname). apply (Hfree Hlt v Hv).
      destruct (var_name v); try discriminate. reflexivity. }
    rewrite Hex. cbn [rbind]. rewrite Hcheck by reflexivity. reflexivity.
  - cbn [rbind]. rewrite Hcheck by reflexivity. reflexivity.
Qed.

(* ===================================================================== *)
(** * Real-time program: the parts of the program of one context *)
(* ===================================================================== *)

Lemma add_inputs_exact names : forall qc qc' vs,
  add_inputs qc names = inr (qc', vs) ->
  vs = map (fun name => mkVar name 8) names /\
  qc' = mkQC (qc_name qc) (qubits qc) (clbits qc) (cregs qc) (inputs qc ++ vs)
             (baseline_circuit qc) (data qc).
Proof.
  induction names as [| name rest IH]; simpl; intros qc qc' vs E.
  - injection E as <- <-. split; [reflexivity |]. rewrite app_nil_r. destruct qc; reflexivity.
  - apply rbind_ok_inv in E. destruct E as ([qc1 v] & E1 & E).
    apply rbind_ok_inv in E. destruct E as ([qc2 vs'] & E2 & E).
    injection E as <- <-.
    unfold add_input in E1. destruct (existsb _ (inputs qc)); [discriminate |].
    injection E1 as <- <-.
    destruct (IH _ _ _ E2) as (-> & ->). cbn.
    split; [reflexivity |]. rewrite <- app_assoc. reflexivity.
Qed.

(** The declarations of the program, spelled out: the input ["n_reps"] when
    several repetition counts are configured, the register [meas] (new, or
    the first register of the circuit), one input per qubit. *)
Lemma declare_program_exact `{Collaborators} target env_config c rest
    qc n_reps_var meas input_state_vars :
  declare_program target env_config (c :: rest)
    = inr (qc, n_reps_var, meas, input_state_vars) ->
  let several := (1 <? length (n_reps (execution_config env_config)))%nat in
  input_state_vars = input_state_inputs (num_qubits c) /\
  n_reps_var = (if several then inl (mkVar n_reps_name 8)
                else inr (current_n_reps (execution_config env_config))) /\
  inputs qc = inputs c ++ (if several then [mkVar n_reps_name 8] else [])
                ++ input_state_inputs (num_qubits c) /\
  qubits qc = qubits c /\
  data qc = [OpReset (qubits c)] /\
  creg_size meas = GateTarget.causal_cone_size target /\
  (clbits c = [] ->
   meas = mkCReg (GateTarget.causal_cone_size target) "meas" /\
   cregs qc = cregs c ++ [meas]) /\
  (clbits c <> [] -> nth_error (cregs c) 0 = Some meas /\ cregs qc = cregs c).
Proof.
  intros E several. unfold declare_program in E.
  destruct (all_same_qubits (c :: rest)); cbn [negb] in E; [| discriminate].
  cbn [index nth_error rbind] in E.
  apply rbind_ok_inv in E. destruct E as ([qc1 nv] & E1 & E).
  apply rbind_ok_inv in E. destruct E as ([qc2 meas'] & E2 & E).
  apply rbind_ok_inv in E. destruct E as ([qc3 vars] & E3 & E).
  inversion E; subst qc3 nv meas' vars. clear E.
  apply add_inputs_exact in E3. destruct E3 as (Hvars & Hqc).
  assert (H1 : n_reps_var = (if several then inl (mkVar n_reps_name 8)
                             else inr (current_n_reps (execution_config env_config))) /\
               inputs qc1 = inputs c ++ (if several then [mkVar n_reps_name 8] else []) /\
               qubits qc1 = qubits c /\ clbits qc1 = clbits c /\ cregs qc1 = cregs c /\
               data qc1 = [OpReset (qubits c)]).
  { subst several. destruct (1 <? length (n_reps (execution_config env_config)))%nat.
    - apply rbind_ok_inv in E1. destruct E1 as ([qc' v] & Ea & E1).
      inversion E1; subst. unfold add_input in Ea.
      destruct (existsb _ _); [discriminate |]. inversion Ea; subst. cbn. auto 10.
    - inversion E1; subst. cbn. rewrite app_nil_r. auto 10. }
  destruct H1 as (Hnv & Hin1 & Hq1 & Hcl1 & Hcr1 & Hd1).
  assert (H2 : inputs qc2 = inputs qc1 /\ qubits qc2 = qubits qc1 /\ data qc2 = data qc1 /\
               creg_size meas = GateTarget.causal_cone_size target /\
               (clbits c = [] ->
                meas = mkCReg (GateTarget.causal_cone_size target) "meas" /\
                cregs qc2 = cregs c ++ [meas]) /\
               (clbits c <> [] -> nth_error (cregs c) 0 = Some meas /\ cregs qc2 = cregs c)).
  { rewrite Hcl1 in E2. destruct (clbits c) as [| b bs].
    - injection E2 as <- <-. cbn. rewrite Hcr1.
      split; [reflexivity |]. split; [reflexivity |]. split; [reflexivity |].
      split; [reflexivity |]. split; [intros _; split; reflexivity |].
      intros Hne. congruence.
    - apply rbind_ok_inv in E2. destruct E2 as (m & Hm & E2).
      destruct (Nat.eqb_spec (creg_size m) (GateTarget.causal_cone_size target));
        cbn [negb] in E2; [| discriminate]. injection E2 as <- <-.
      split; [reflexivity |]. split; [reflexivity |]. split; [reflexivity |].
      split; [assumption |]. split; [discriminate |].
      intros _. split; [| exact Hcr1].
      rewrite <- Hcr1. apply index_ok_inv. exact Hm. }
  destruct H2 as (Hin2 & Hq2 & Hd2 & Hsize & Hnew & Hold).
  assert (Hnum : num_qubits qc2 = num_qubits c) by (unfold num_qubits; congruence).
  rewrite Hnum, map_map in Hvars.
  change (input_state_vars = input_state_inputs (num_qubits c)) in Hvars.
  subst qc. cbn. rewrite Hin2, Hin1, <- app_assoc, Hvars.
  split; [reflexivity |]. split; [exact Hnv |]. split; [reflexivity |].
  split; [congruence |]. split; [congruence |]. split; [exact Hsize |].
  split; [exact Hnew | exact Hold].
Qed.

(** The program of one context, part by part. *)
Lemma one_context_program_parts `{Collaborators} self target env_config c log built log' :
  build_real_time_circuit self target env_config [c] log = (inr built, log') ->
  exists qc0 n_reps_var meas input_state_vars prep forward ref_circ inverses inverse_block
         input_state_inverses reverts,
    declare_program target env_config [c] = inr (qc0, n_reps_var, meas, input_state_vars) /\
    comprehension (input_state_switch input_state_vars (input_circuits self))
      (enumerate (qubits qc0)) = inr prep /\
    handle_real_time_n_reps (n_reps (execution_config env_config)) n_reps_var c
      (append qc0 prep) = inr forward /\
    baseline_circuit c = Some ref_circ /\
    compute_inverses target env_config 0 ref_circ (n_reps (execution_config env_config))
      [[]] log = (inr [inverses], log') /\
    inverse_of_context target env_config n_reps_var inverses = inr inverse_block /\
    comprehension inverse (input_circuits self) = inr input_state_inverses /\
    comprehension (input_state_switch input_state_vars input_state_inverses)
      (enumerate (GateTarget.causal_cone_qubits target)) = inr reverts /\
    built = with_data qc0
              (data qc0 ++ prep ++ forward ++ inverse_block ++ reverts
                 ++ [OpMeasure (GateTarget.causal_cone_qubits target) meas]).
Proof.
  unfold build_real_time_circuit. intros E.
  apply sim_bind_ok_inv in E. destruct E as ([[[qc0 nv] meas] vars] & l0 & E0 & E).
  apply lift_ok_inv in E0. destruct E0 as [E0 ->].
  apply sim_bind_ok_inv in E. destruct E as (qc1 & l1 & E1 & E).
  apply lift_ok_inv in E1. destruct E1 as [E1 ->].
  apply sim_bind_ok_inv in E. destruct E as ([qc2 cc] & l2 & E2 & E).
  apply lift_ok_inv in E2. destruct E2 as [E2 ->].
  apply sim_bind_ok_inv in E. destruct E as (invs & l3 & E3 & E).
  apply lift_ok_inv in E3. destruct E3 as [E3 ->].
  apply sim_bind_ok_inv in E. destruct E as ([qc3 cache] & l4 & E4 & E).
  inversion E; subst built log'. clear E.
  unfold prepare_input_states in E1.
  apply rbind_ok_inv in E1. destruct E1 as (prep & Hprep & E1). inversion E1; subst qc1.
  clear E1.
  unfold forward_branches in E2. cbn [length Nat.ltb Nat.leb index nth_error rbind] in E2.
  apply rbind_ok_inv in E2. destruct E2 as (forward & Hfwd & E2).
  inversion E2; subst qc2 cc. clear E2.
  cbn [map length enumerate seq combine repeat inversion_loop] in E4.
  apply sim_bind_ok_inv in E4. destruct E4 as ([qc4 cache4] & l5 & Et & E4).
  inversion E4; subst qc3 cache l4. clear E4.
  unfold inversion_turn in Et.
  destruct (baseline_circuit c) as [ref_circ |] eqn:Eref;
    [| apply lift_ok_inv in Et; destruct Et; discriminate].
  apply sim_bind_ok_inv in Et. destruct Et as (cache' & l6 & Ec & Et).
  apply sim_bind_ok_inv in Et. destruct Et as (qc5 & l7 & Ea & Et).
  apply lift_ok_inv in Ea. destruct Ea as [Ea ->].
  apply sim_bind_ok_inv in Et. destruct Et as (qc6 & l8 & Er & Et).
  apply lift_ok_inv in Er. destruct Er as [Er ->].
  inversion Et; subst qc4 cache4 l5. clear Et.
  cbn [snd fst] in Ec, Ea.
  pose proof (compute_inverses_log _ _ _ _ _ _ _ _ _ Ec) as (_ & Hok).
  destruct (Hok cache' eq_refl) as (_ & Hlen & _).
  destruct cache' as [| inverses [| ? ?]]; try discriminate Hlen.
  unfold attach_inverse in Ea. cbn [length Nat.ltb Nat.leb index nth_error rbind] in Ea.
  apply rbind_ok_inv in Ea. destruct Ea as (inverse_block & Hblock & Ea).
  inversion Ea; subst qc5. clear Ea.
  unfold revert_input_states in Er.
  apply rbind_ok_inv in Er. destruct Er as (reverts & Hrev & Er).
  inversion Er; subst qc6. clear Er.
  exists qc0, nv, meas, vars, prep, forward, ref_circ, inverses, inverse_block, invs, reverts.
  repeat (split; [first [assumption | reflexivity] |]).
  unfold append, with_data. cbn. repeat rewrite <- app_assoc. reflexivity.
Qed.

Lemma build_cases_pure {A} (f : A -> list Instruction) items : forall seen cases,
  build_cases (fun a => inr (f a)) seen items = inr cases ->
  cases = map (fun item => (fst item, f (snd item))) items.
Proof.
  induction items as [| [v a] rest IH]; simpl; intros seen cases E.
  - injection E as <-. reflexivity.
  - destruct (existsb (Z.eqb v) seen); [discriminate |].
    apply rbind_ok_inv in E. destruct E as (cs & Hcs & E).
    injection E as <-. f_equal. exact (IH _ _ Hcs).
Qed.

(** A switch over the input states that was built: its target is the
    variable at the position of the qubit, its cases are the input circuits
    in order. *)
Lemma input_state_switch_exact input_state_vars circuits q qubit sw :
  input_state_switch input_state_vars circuits (q, qubit) = inr sw ->
  exists var,
    nth_error input_state_vars q = Some var /\
    sw = OpSwitch var (input_state_cases circuits qubit).
Proof.
  unfold input_state_switch. cbn [fst snd]. intros E.
  apply rbind_ok_inv in E. destruct E as (var & Hvar & E).
  unfold switch in E. apply rbind_ok_inv in E. destruct E as (cases & Hcases & E).
  injection E as <-. exists var. split; [apply index_ok_inv; exact Hvar |].
  apply build_cases_pure in Hcases. subst cases.
  unfold input_state_cases, enumerate_cases. rewrite map_map. reflexivity.
Qed.

Lemma nth_error_input_state_inputs n q var :
  nth_error (input_state_inputs n) q = Some var ->
  (q < n)%nat /\ var = mkVar (input_state_name q) 8.
Proof.
  unfold input_state_inputs. intros E.
  assert (Hq : (q < n)%nat).
  { assert (Hs : nth_error (map (fun i => mkVar (input_state_name i) 8) (range n)) q <> None)
      by congruence.
    apply nth_error_Some in Hs. rewrite length_map in Hs.
    unfold range in Hs. rewrite length_seq in Hs. exact Hs. }
  split; [exact Hq |].
  rewrite nth_error_map, (nth_error_range Hq) in E. injection E as <-. reflexivity.
Qed.

Lemma nth_error_combine_seq {A} (l : list A) : forall k i p,
  nth_error (combine (seq k (length l)) l) i = Some p ->
  fst p = (k + i)%nat /\ nth_error l i = Some (snd p).
Proof.
  induction l as [| x t IH]; intros k i p E.
  - destruct i; discriminate.
  - destruct i as [| i]; cbn in E.
    + injection E as <-. cbn. split; [lia | reflexivity].
    + apply IH in E. destruct E as [Hf Hs]. cbn. split; [lia | exact Hs].
Qed.

Lemma nth_error_enumerate {A} (l : list A) i p :
  nth_error (enumerate l) i = Some p -> fst p = i /\ nth_error l i = Some (snd p).
Proof. intros E. apply nth_error_combine_seq in E. exact E. Qed.

(** The switches over the input states of the qubits [qs], when they were
    all built with the declared inputs: one per qubit, and [qs] has no more
    qubits than there are inputs. *)
Lemma input_state_switches_exact n circuits qs switches :
  comprehension (input_state_switch (input_state_inputs n) circuits) (enumerate qs)
    = inr switches ->
  switches = input_state_switches circuits qs /\ (length qs <= n)%nat.
Proof.
  intros E. apply comprehension_ok_inv in E.
  assert (Hall : forall i p, nth_error (enumerate qs) i = Some p ->
                   (fst p < n)%nat /\
                   nth_error switches i
                   = Some (OpSwitch (mkVar (input_state_name (fst p)) 8)
                                    (input_state_cases circuits (snd p)))).
  { intros i [q qubit] Hp.
    destruct (Forall2_nth_error_l E Hp) as (sw & Hsw & Hbuilt).
    apply input_state_switch_exact in Hbuilt. destruct Hbuilt as (var & Hvar & ->).
    apply nth_error_input_state_inputs in Hvar. destruct Hvar as (Hq & ->).
    split; [exact Hq | exact Hsw]. }
  split.
  - apply nth_error_ext. intros i. unfold input_state_switches.
    rewrite nth_error_map.
    destruct (nth_error (enumerate qs) i) as [p |] eqn:Ep; cbn [option_map].
    + apply (Hall i p Ep).
    + apply nth_error_None. apply nth_error_None in Ep.
      rewrite <- (Forall2_length E). exact Ep.
  - destruct (Nat.le_gt_cases (length qs) n) as [Hle | Hgt]; [exact Hle | exfalso].
    assert (Hn : (n < length (enumerate qs))%nat)
      by (unfold enumerate; rewrite length_combine, length_seq; lia).
    destruct (nth_error (enumerate qs) n) as [p |] eqn:Ep;
      [| apply nth_error_None in Ep; lia].
    destruct (Hall n p Ep) as [Hlt _].
    apply nth_error_enumerate in Ep. destruct Ep as [Hfst _]. lia.
Qed.

(** X15.  The program returned for one context declares, after the inputs
    of the context circuit, the input [n_reps] exactly when several
    repetition counts are configured, then one 8-bit input [input_state_q]
    per qubit; no input selecting the circuit is declared.  It acts on the
    qubits of the context circuit. *)
Theorem single_context_program_inputs `{Collaborators}
    (self : CAFEReward) (target : GateTarget.t) (env_config : QEnvConfig)
    (c program : QuantumCircuit) (log log' : list SimRun) :
  get_real_time_circuit self target env_config (inl c) true log = (inr program, log') ->
  inputs program
  = inputs c
      ++ (if (1 <? length (n_reps (execution_config env_config)))%nat
          then [mkVar n_reps_name 8] else [])
      ++ input_state_inputs (num_qubits c) /\
  qubits program = qubits c.
Proof.
  intros Hrun. apply get_real_time_circuit_ok_inv in Hrun.
  destruct Hrun as (built & Hbuilt & ->). cbn [prep_circuits_of] in Hbuilt.
  apply one_context_program_parts in Hbuilt.
  destruct Hbuilt as (qc0 & nv & meas & vars & prep & forward & ref_circ & inverses
                      & block & invs & reverts & Hdecl & _ & _ & _ & _ & _ & _ & _ & ->).
  apply declare_program_exact in Hdecl.
  destruct Hdecl as (_ & _ & Hin & Hq & _).
  cbn [inputs qubits with_data]. split; assumption.
Qed.

(** X16.  Building the program of one context runs the simulator exactly
    once per configured repetition count, in the order of the counts and
    all for the context of index 0, whether or not the program is
    transpiled at the end. *)
Theorem single_context_program_simulator_runs `{Collaborators}
    (self : CAFEReward) (target : GateTarget.t) (env_config : QEnvConfig)
    (c program : QuantumCircuit) (skip_transpilation : bool) (log log' : list SimRun) :
  get_real_time_circuit self target env_config (inl c) skip_transpilation log
  = (inr program, log') ->
  log' = log ++ map (fun n => (0%nat, n)) (n_reps (execution_config env_config)).
Proof.
  intros Hrun. apply get_real_time_circuit_ok_inv in Hrun.
  destruct Hrun as (built & Hbuilt & _). cbn [prep_circuits_of] in Hbuilt.
  apply one_context_program_parts in Hbuilt.
  destruct Hbuilt as (qc0 & nv & meas & vars & prep & forward & ref_circ & inverses
                      & block & invs & reverts & _ & _ & _ & _ & Hinv & _).
  pose proof (compute_inverses_log _ _ _ _ _ _ _ _ _ Hinv) as (_ & Hok).
  destruct (Hok _ eq_refl) as (Hlog & _). exact Hlog.
Qed.

(** X17.  In the program returned for one context, the input states are
    prepared by one switch per qubit of the circuit and reverted by one
    switch per causal-cone qubit: the [q]-th switch of either group is
    controlled by the same input [input_state_q], and where case [i] of the
    preparation applies the [i]-th input circuit, case [i] of the reversal
    applies the inverse of that circuit.  The reversal is the last step
    before the final measurement, and the causal cone has no more qubits
    than the circuit. *)
Theorem single_context_program_input_state_switches `{Collaborators}
    (self : CAFEReward) (target : GateTarget.t) (env_config : QEnvConfig)
    (c program : QuantumCircuit) (log log' : list SimRun) :
  get_real_time_circuit self target env_config (inl c) true log = (inr program, log') ->
  exists input_state_inverses middle meas,
    comprehension inverse (input_circuits self) = inr input_state_inverses /\
    data program
    = OpReset (qubits c)
        :: input_state_switches (input_circuits self) (qubits c)
        ++ middle
        ++ input_state_switches input_state_inverses (GateTarget.causal_cone_qubits target)
        ++ [OpMeasure (GateTarget.causal_cone_qubits target) meas] /\
    (length (GateTarget.causal_cone_qubits target) <= num_qubits c)%nat.
Proof.
  intros Hrun. apply get_real_time_circuit_ok_inv in Hrun.
  destruct Hrun as (built & Hbuilt & ->). cbn [prep_circuits_of] in Hbuilt.
  apply one_context_program_parts in Hbuilt.
  destruct Hbuilt as (qc0 & nv & meas & vars & prep & forward & ref_circ & inverses
                      & block & invs & reverts
                      & Hdecl & Hprep & _ & _ & _ & _ & Hinvs & Hrev & ->).
  apply declare_program_exact in Hdecl.
  destruct Hdecl as (-> & _ & _ & Hq & Hd & _).
  rewrite Hq in Hprep.
  apply input_state_switches_exact in Hprep. destruct Hprep as [-> _].
  apply input_state_switches_exact in Hrev. destruct Hrev as [-> Hcone].
  exists invs, (forward ++ block), meas.
  split; [exact Hinvs |]. split; [| exact Hcone].
  cbn [data with_data]. rewrite Hd. cbn [app].
  repeat rewrite <- app_assoc. reflexivity.
Qed.

Lemma NoDup_short {A} (l : list A) : (length l <= 1)%nat -> NoDup l.
Proof.
  destruct l as [| a [| b t]]; cbn [length]; intros Hl.
  - constructor.
  - constructor; [intros [] | constructor].
  - lia.
Qed.

(** X18.  A program is returned for one context only when the configured
    repetition counts are pairwise distinct: a count configured twice would
    label two cases of the switch over [n_reps], which is refused. *)
Theorem single_context_program_distinct_counts `{Collaborators}
    (self : CAFEReward) (target : GateTarget.t) (env_config : QEnvConfig)
    (c program : QuantumCircuit) (skip_transpilation : bool) (log log' : list SimRun) :
  get_real_time_circuit self target env_config (inl c) skip_transpilation log
  = (inr program, log') ->
  NoDup (n_reps (execution_config env_config)).
Proof.
  intros Hrun. apply get_real_time_circuit_ok_inv in Hrun.
  destruct Hrun as (built & Hbuilt & _). cbn [prep_circuits_of] in Hbuilt.
  apply one_context_program_parts in Hbuilt.
  destruct Hbuilt as (qc0 & nv & meas & vars & prep & forward & ref_circ & inverses
                      & block & invs & reverts & _ & _ & _ & _ & _ & Hblock & _).
  apply inverse_of_context_ok_inv in Hblock.
  destruct (Nat.ltb_spec 1 (length (n_reps (execution_config env_config)))) as [Hlt | Hle].
  - destruct Hblock as (var & cases & _ & _ & Hnd & _). exact Hnd.
  - apply NoDup_short. exact Hle.
Qed.


(* ===================================================================== *)
(** * Real-time program: the runs of the simulator *)
(* ===================================================================== *)

(** The runs recorded by the loop over the repetition counts are, in order,
    the runs for an initial part of the counts. *)
Lemma compute_inverses_prefix `{Collaborators} target env_config i ref_circ ns :
  forall cache log r log',
    compute_inverses target env_config i ref_circ ns cache log = (r, log') ->
    exists k, (k <= length ns)%nat /\
              log' = log ++ map (fun n => (i, n)) (firstn k ns).
Proof.
  induction ns as [| n rest IH]; cbn [compute_inverses]; intros cache log r log' E.
  - unfold sim_ret in E. injection E as _ <-. exists 0%nat.
    split; [reflexivity | rewrite app_nil_r; reflexivity].
  - unfold sim_bind at 1 in E.
    destruct (compute_inverse _ _ _ _ _ _) as [[e | inv] log1] eqn:E1;
      apply compute_inverse_log in E1; destruct E1 as [Hl Hok].
    + injection E as _ <-. destruct Hl as [-> | ->].
      * exists 0%nat. split; [lia | rewrite app_nil_r; reflexivity].
      * exists 1%nat. cbn [length]. split; [lia | reflexivity].
    + specialize (Hok inv eq_refl). subst log1.
      unfold sim_bind at 1, lift at 1 in E.
      destruct (append_at cache i inv) as [e | cache1].
      * injection E as _ <-. exists 1%nat. cbn [length]. split; [lia | reflexivity].
      * apply IH in E. destruct E as (k & Hk & ->).
        exists (S k). cbn [length firstn map]. split; [lia |].
        rewrite <- app_assoc. reflexivity.
Qed.

Lemma inversion_turn_prefix `{Collaborators} target env_config prep_circuits circuit_choice
    n_reps_var input_state_vars input_state_inverses i ref_circ state log r log' :
  inversion_turn target env_config prep_circuits circuit_choice n_reps_var
    input_state_vars input_state_inverses i ref_circ state log = (r, log') ->
  exists k, (k <= length (n_reps (execution_config env_config)))%nat /\
            log' = log ++ map (fun n => (i, n))
                            (firstn k (n_reps (execution_config env_config))).
Proof.
  unfold inversion_turn. destruct ref_circ as [ref |].
  - unfold sim_bind at 1.
    destruct (compute_inverses _ _ _ _ _ _ _) as [[e | cache'] log1] eqn:Ec;
      apply compute_inverses_prefix in Ec.
    + intros E. injection E as _ <-. exact Ec.
    + unfold sim_bind, lift, sim_ret.
      destruct (attach_inverse _ _ _ _ _ _ _) as [e | qc1];
        [intros E; injection E as _ <-; exact Ec |].
      destruct (revert_input_states _ _ _ _) as [e | qc2];
        intros E; injection E as _ <-; exact Ec.
  - unfold lift. intros E. injection E as _ <-.
    exists 0%nat. split; [lia | rewrite app_nil_r; reflexivity].
Qed.

(** X12.  Whatever the circuits and whatever the outcome (a program or an
    exception), one call of [get_real_time_circuit] runs the simulator for
    the context of index 0 only, at most once per configured repetition
    count and in the order of the counts: the runs it adds are the runs for
    an initial part of the list of counts. *)
Theorem simulator_runs_follow_the_counts `{Collaborators}
    (self : CAFEReward) (target : GateTarget.t) (env_config : QEnvConfig)
    (circuits : QuantumCircuit + list QuantumCircuit) (skip_transpilation : bool)
    (log : list SimRun) :
  exists k,
    (k <= length (n_reps (execution_config env_config)))%nat /\
    snd (get_real_time_circuit self target env_config circuits skip_transpilation log)
    = log ++ map (fun n => (0%nat, n)) (firstn k (n_reps (execution_config env_config))).
Proof.
  assert (Hnone : exists k,
            (k <= length (n_reps (execution_config env_config)))%nat /\
            log = log ++ map (fun n => (0%nat, n))
                          (firstn k (n_reps (execution_config env_config)))).
  { exists 0%nat. split; [lia | rewrite app_nil_r; reflexivity]. }
  assert (Hbuild : exists k,
            (k <= length (n_reps (execution_config env_config)))%nat /\
            snd (build_real_time_circuit self target env_config (prep_circuits_of circuits) log)
            = log ++ map (fun n => (0%nat, n))
                       (firstn k (n_reps (execution_config env_config)))).
  { unfold build_real_time_circuit.
    unfold sim_bind at 1, lift at 1.
    destruct (declare_program _ _ _) as [e | [[[qc0 nv] meas] vars]]; [exact Hnone |].
    unfold sim_bind at 1, lift at 1.
    destruct (prepare_input_states _ _ _) as [e | qc1]; [exact Hnone |].
    unfold sim_bind at 1, lift at 1.
    destruct (forward_branches _ _ _ _) as [e | [qc2 cc]]; [exact Hnone |].
    unfold sim_bind at 1, lift at 1.
    destruct (comprehension inverse _) as [e | invs]; [exact Hnone |].
    unfold sim_bind at 1.
    destruct (prep_circuits_of circuits) as [| c0 [| c1 rest]] eqn:Eprep.
    - cbn. exact Hnone.
    - cbn [map length enumerate seq combine repeat inversion_loop].
      unfold sim_bind at 1.
      destruct (inversion_turn _ _ _ _ _ _ _ _ _ _ _) as [[e | [qc3 cache]] log1] eqn:Et;
        apply inversion_turn_prefix in Et; cbn; exact Et.
    - cbn [map length enumerate seq combine repeat inversion_loop].
      unfold sim_bind at 1.
      destruct (inversion_turn _ _ _ _ _ _ _ _ _ _ _) as [r log1] eqn:Et.
      pose proof (inversion_turn_prefix _ _ _ _ _ _ _ _ _ _ _ _ _ Et) as Hprefix.
      apply first_turn_raises in Et; [| cbn [length]; lia | reflexivity].
      destruct Et as ((e & ->) & _). cbn. exact Hprefix. }
  unfold get_real_time_circuit, sim_bind.
  destruct (build_real_time_circuit _ _ _ _ _) as [[e | qc] log1]; [exact Hbuild |].
  destruct skip_transpilation; exact Hbuild.
Qed.

(* ===================================================================== *)
(** * Probes and estimator together *)
(* ===================================================================== *)

Lemma rbind_no_assertion {A B} (m : result A) (k : A -> result B) :
  (forall msg, m <> inl (AssertionError msg)) ->
  (forall a, m = inr a -> forall msg, k a <> inl (AssertionError msg)) ->
  forall msg, rbind m k <> inl (AssertionError msg).
Proof.
  intros Hm Hk msg. destruct m as [e | a]; cbn.
  - intros E. apply (Hm msg). congruence.
  - apply (Hk a eq_refl).
Qed.

Lemma comprehension_no_assertion {A B} (f : A -> result B) (l : list A) :
  (forall a, In a l -> forall msg, f a <> inl (AssertionError msg)) ->
  forall msg, comprehension f l <> inl (AssertionError msg).
Proof.
  induction l as [| a t IH]; intros Hf; cbn [comprehension]; [discriminate |].
  apply rbind_no_assertion; [apply Hf; left; reflexivity |].
  intros b _. apply rbind_no_assertion; [apply IH; intros; apply Hf; right; assumption |].
  discriminate.
Qed.

Lemma index_no_assertion {A} (l : list A) i msg : index l i <> inl (AssertionError msg).
Proof. unfold index. destruct (nth_error l i); discriminate. Qed.

Lemma py_div_no_assertion a b msg : py_div a b <> inl (AssertionError msg).
Proof. unfold py_div. destruct (b =? 0); discriminate. Qed.

Lemma postselect_no_assertion ba indices selection msg :
  postselect ba indices selection <> inl (AssertionError msg).
Proof.
  unfold postselect. destruct (negb _); [discriminate |].
  destruct (existsb _ _); discriminate.
Qed.

Lemma survival_direct_no_assertion n_shots batch_size pub_results msg :
  survival_direct n_shots batch_size pub_results <> inl (AssertionError msg).
Proof.
  unfold survival_direct. apply rbind_no_assertion.
  - apply comprehension_no_assertion. intros res _. unfold meas_batch.
    apply comprehension_no_assertion. intros i _ m. apply index_no_assertion.
  - intros pub_data _. apply comprehension_no_assertion. intros row _.
    apply comprehension_no_assertion. intros ba _ m. apply py_div_no_assertion.
Qed.

Lemma survival_postselected_no_assertion indices cone_size n_shots batch_size pub_results
    msg :
  survival_postselected indices cone_size n_shots batch_size pub_results
  <> inl (AssertionError msg).
Proof.
  unfold survival_postselected. apply rbind_no_assertion.
  - apply comprehension_no_assertion. intros res _.
    apply comprehension_no_assertion. intros i _.
    apply rbind_no_assertion; [intros m; apply index_no_assertion |].
    intros ba _ m. apply postselect_no_assertion.
  - intros pub_data _. apply comprehension_no_assertion. intros row _.
    apply comprehension_no_assertion. intros ba _ m. apply py_div_no_assertion.
Qed.

(** The estimator raises an assertion error of its own only when a pub
    differs from the first one in its shot count or in its batch size. *)
Lemma uniform_pubs_no_assertion reward_data primitive n_shots batch_size :
  (forall msg, primitive (pubs reward_data) <> inl (AssertionError msg)) ->
  all_same_shots n_shots (pubs reward_data) = true ->
  all_same_batch batch_size (pubs reward_data) = true ->
  forall msg, get_reward_with_primitive reward_data primitive <> inl (AssertionError msg).
Proof.
  intros Hprim Hshots Hbatch.
  unfold get_reward_with_primitive. apply rbind_no_assertion; [| discriminate].
  unfold survival_probability. apply rbind_no_assertion; [exact Hprim |].
  intros pub_results _. apply rbind_no_assertion; [intros m; apply index_no_assertion |].
  intros pub0 Hpub0. apply index_ok_inv in Hpub0. apply nth_error_In in Hpub0.
  assert (Hs : shots pub0 = n_shots).
  { unfold all_same_shots in Hshots. rewrite forallb_forall in Hshots.
    apply Z.eqb_eq. apply Hshots. exact Hpub0. }
  assert (Hb : shape0 pub0 = batch_size).
  { unfold all_same_batch in Hbatch. rewrite forallb_forall in Hbatch.
    apply Nat.eqb_eq. apply Hbatch. exact Hpub0. }
  rewrite Hs, Hb, Hshots, Hbatch. cbn [negb].
  apply rbind_no_assertion; [intros m; apply index_no_assertion |].
  intros res0 _. apply rbind_no_assertion; [intros m; apply index_no_assertion |].
  intros meas0 _ msg. destruct (_ =? _)%nat.
  - apply survival_direct_no_assertion.
  - apply survival_postselected_no_assertion.
Qed.

(** X5.  The pubs of the probes returned by one call of [get_reward_data]
    always pass the two assertions of [get_reward_with_primitive]: unless
    the primitive itself raises one, the estimator never ends in an
    [AssertionError] on them. *)
Theorem probes_pass_the_estimator_assertions `{Collaborators} (self self' : CAFEReward)
    qc params (target : GateTarget.t) env_config baseline_arg probes
    (reward_data : CAFERewardDataList) (primitive : Primitive) :
  get_reward_data self qc params (IsGateTarget target) env_config baseline_arg
    = (inr probes, self') ->
  pubs reward_data = map rd_pub probes ->
  (forall msg, primitive (pubs reward_data) <> inl (AssertionError msg)) ->
  forall msg, get_reward_with_primitive reward_data primitive <> inl (AssertionError msg).
Proof.
  intros Hrun Hpubs Hprim. apply get_reward_data_ok_inv in Hrun.
  destruct Hrun as (circuit_ref & draws & rng' & _ & Hprobes).
  assert (Hfields : forall d, In d probes ->
            shots (rd_pub d) = n_shots (execution_config env_config) /\
            parameter_values (rd_pub d) = params).
  { intros d Hd. destruct (Forall2_In_r Hprobes Hd) as (s & _ & Hsd).
    apply probe_of_sample_fields in Hsd. tauto. }
  apply (uniform_pubs_no_assertion reward_data primitive
           (n_shots (execution_config env_config)) (length params)); [exact Hprim | |].
  - rewrite Hpubs. unfold all_same_shots. apply forallb_forall. intros pub Hpub.
    apply in_map_iff in Hpub. destruct Hpub as (d & <- & Hd).
    apply Z.eqb_eq. apply (Hfields d Hd).
  - rewrite Hpubs. unfold all_same_batch. apply forallb_forall. intros pub Hpub.
    apply in_map_iff in Hpub. destruct Hpub as (d & <- & Hd).
    apply Nat.eqb_eq. unfold shape0. destruct (Hfields d Hd) as (_ & ->). reflexivity.
Qed.

(* ===================================================================== *)
(** * Worked examples: edge cases, probes and the program of one context *)
(* ===================================================================== *)

(** No probe at all. *)
Lemma empty_batch_raises_witness :
  get_reward_with_primitive empty_batch two_bit_primitive = inl IndexError.
Proof.
  exact (empty_batch_raises empty_batch two_bit_primitive eq_refl).
Defined.

(** An entry of the reward of the three-bit batch. *)
Lemma reward_in_unit_interval_witness :
  (0 <= 28 # 32 <= 1)%Q.
Proof.
  apply (reward_in_unit_interval
           partial_cone_batch partial_cone_primitive partial_cone_results
           (mkPub (measured_circuit 3) two_rows 4) [(28 # 32)%Q; (12 # 32)%Q]).
  - reflexivity.
  - reflexivity.
  - apply (counts_bounded_by_num_shots partial_cone_batch).
    intros res ba Hres Hba.
    simpl in Hres. destruct Hres as [<- | [<- | []]];
      simpl in Hba; destruct Hba as [<- | [<- | []]]; simpl; lia.
  - vm_compute. reflexivity.
  - simpl. auto.
Defined.

(** The three-bit batch when every shot reads [000]. *)
Lemma all_zero_outcomes_give_reward_one_witness :
  exists reward,
    get_reward_with_primitive partial_cone_batch all_zero_primitive = inr reward /\
    forall y, In y reward -> (y == 1)%Q.
Proof.
  eexists. split; [vm_compute; reflexivity |].
  apply (all_zero_outcomes_give_reward_one
           partial_cone_batch all_zero_primitive all_zero_results
           (mkPub (measured_circuit 3) two_rows 4)).
  - reflexivity.
  - reflexivity.
  - intros res ba Hres Hba.
    simpl in Hres. destruct Hres as [<- | [<- | []]];
      simpl in Hba; destruct Hba as [<- | [<- | []]];
        (split; [reflexivity |]);
        intros s Hs; simpl in Hs;
          repeat (destruct Hs as [<- | Hs]; [reflexivity |]); contradiction.
  - vm_compute. reflexivity.
Defined.

(** A probe declaring zero shots. *)
Lemma zero_shots_raise_witness :
  exists e, get_reward_with_primitive zero_shot_batch full_cone_primitive = inl e.
Proof.
  apply (zero_shots_raise zero_shot_batch full_cone_primitive
           (mkPub (measured_circuit 2) two_rows 0)).
  - reflexivity.
  - reflexivity.
  - unfold shape0, two_rows. cbn. lia.
Defined.

Lemma example_run_returns :
  example_run = (inr example_probes, snd example_run).
Proof.
  apply (@returned_probes_run simple_collaborators example_run).
  vm_compute. reflexivity.
Qed.

(** The probes of the example run, handed to the estimator. *)
Lemma probes_pass_the_estimator_assertions_witness :
  exists probes,
    fst example_run = inr probes /\
    forall msg,
      get_reward_with_primitive example_batch two_bit_primitive <> inl (AssertionError msg).
Proof.
  exists example_probes. split; [rewrite example_run_returns; reflexivity |].
  apply (@probes_pass_the_estimator_assertions simple_collaborators simple_reward
           (snd example_run) (context_circuit "a" "x" [0%nat]) [[(1 # 2)%Q]] simple_target
           (simple_env [1]) None example_probes example_batch two_bit_primitive).
  - exact example_run_returns.
  - reflexivity.
  - intros msg. discriminate.
Defined.

(** A gate target whose circuit carries no baseline. *)
Lemma early_errors_leave_generator_witness :
  @get_reward_data simple_collaborators simple_reward no_baseline_circuit [[(1 # 2)%Q]]
    (IsGateTarget simple_target) (simple_env [1]) None
  = (inl (KeyError "baseline_circuit"), simple_reward).
Proof.
  apply (proj2 (@early_errors_leave_generator simple_collaborators simple_reward
                  no_baseline_circuit [[(1 # 2)%Q]] simple_target (simple_env [1]) None)).
  reflexivity.
Defined.

(** The three probes of the example run. *)
Lemma probes_share_shots_and_batch_witness :
  all_same_shots (n_shots (execution_config (simple_env [1]))) (map rd_pub example_probes)
  = true /\
  all_same_batch (length [[(1 # 2)%Q]]) (map rd_pub example_probes) = true /\
  forall d, In d example_probes ->
    parameter_values (rd_pub d) = [[(1 # 2)%Q]] /\
    rd_n_reps d = current_n_reps (execution_config (simple_env [1])) /\
    rd_causal_cone_qubits_indices d = GateTarget.causal_cone_qubits_indices simple_target.
Proof.
  apply (@probes_share_shots_and_batch simple_collaborators simple_reward (snd example_run)
           (context_circuit "a" "x" [0%nat]) [[(1 # 2)%Q]] simple_target (simple_env [1]) None
           example_probes).
  exact example_run_returns.
Defined.

(** The first probe of the example run. *)
Lemma probe_multi_index_in_range_witness :
  exists d,
    nth_error example_probes 0 = Some d /\
    length (rd_input_indices d) = GateTarget.causal_cone_size simple_target /\
    forall i, In i (rd_input_indices d) ->
      (i < @get_input_states_cardinality_per_qubit simple_collaborators
             (@input_states_choice simple_collaborators simple_reward))%nat.
Proof.
  destruct (nth_error example_probes 0) as [d |] eqn:E; [| vm_compute in E; discriminate E].
  exists d. split; [reflexivity |].
  apply (@probe_multi_index_in_range simple_collaborators simple_reward (snd example_run)
           (context_circuit "a" "x" [0%nat]) [[(1 # 2)%Q]] simple_target (simple_env [1]) None
           example_probes).
  - exact example_run_returns.
  - exact (nth_error_In _ _ E).
Defined.

(** The samples of the example run: 0, 1, 2 out of five draws. *)
Lemma probes_in_increasing_order_witness :
  StronglySorted lt (map (probe_sample simple_reward simple_target) example_probes) /\
  exists draws rng',
    @rng_choice simple_collaborators (input_states_rng simple_reward)
      (length (GateTarget.input_states simple_target (input_states_choice simple_reward)))
      (sampling_paulis (simple_env [1])) = inr (draws, rng') /\
    (length example_probes <= length draws)%nat.
Proof.
  apply (@probes_in_increasing_order simple_collaborators simple_reward (snd example_run)
           (context_circuit "a" "x" [0%nat]) [[(1 # 2)%Q]] simple_target (simple_env [1]) None
           example_probes).
  exact example_run_returns.
Defined.


(** A context without baseline circuit. *)
Lemma missing_baseline_runs_no_simulation_witness :
  exists e,
    @get_real_time_circuit simple_collaborators simple_reward simple_target (simple_env [1; 2])
      (inl no_baseline_circuit) true []
    = (inl e, []).
Proof.
  apply (@missing_baseline_runs_no_simulation simple_collaborators simple_reward simple_target
           (simple_env [1; 2]) (inl no_baseline_circuit) true [] no_baseline_circuit).
  - reflexivity.
  - reflexivity.
Defined.

(** A context with a register of two bits, for a causal cone of one qubit. *)
Lemma register_size_mismatch_raises_witness :
  @get_real_time_circuit simple_collaborators simple_reward simple_target (simple_env [1; 2])
    (inl wide_register_circuit) true []
  = (inl (ValueError "Classical register size must match the target causal cone size"), []).
Proof.
  apply (@register_size_mismatch_raises simple_collaborators simple_reward simple_target
           (simple_env [1; 2]) (inl wide_register_circuit) true [] wide_register_circuit
           (mkCReg 2 "c")).
  - reflexivity.
  - reflexivity.
  - discriminate.
  - reflexivity.
  - simpl. lia.
  - intros _ v [].
Defined.

(** One context and the repetition counts 1 and 2: the inputs are [n_reps]
    and [input_state_0]. *)
Lemma single_context_program_inputs_witness :
  exists program log',
    @get_real_time_circuit simple_collaborators simple_reward simple_target (simple_env [1; 2])
      (inl (context_circuit "a" "x" [0%nat])) true [] = (inr program, log') /\
    inputs program
    = inputs (context_circuit "a" "x" [0%nat])
        ++ (if (1 <? length (n_reps (execution_config (simple_env [1; 2]%Z))))%nat
            then [mkVar n_reps_name 8] else [])
        ++ input_state_inputs (num_qubits (context_circuit "a" "x" [0%nat])) /\
    qubits program = qubits (context_circuit "a" "x" [0%nat]).
Proof.
  eexists _, _. split; [vm_compute; reflexivity |].
  eapply (@single_context_program_inputs simple_collaborators simple_reward simple_target
           (simple_env [1; 2]) (context_circuit "a" "x" [0%nat]) _ [] _).
  vm_compute. reflexivity.
Defined.

(** One context and the repetition counts 1 and 2: two runs of the
    simulator. *)
Lemma single_context_program_simulator_runs_witness :
  exists program log',
    @get_real_time_circuit simple_collaborators simple_reward simple_target (simple_env [1; 2])
      (inl (context_circuit "a" "x" [0%nat])) false [] = (inr program, log') /\
    log' = [] ++ map (fun n => (0%nat, n)) (n_reps (execution_config (simple_env [1; 2]))).
Proof.
  eexists _, _. split; [vm_compute; reflexivity |].
  eapply (@single_context_program_simulator_runs simple_collaborators simple_reward
           simple_target (simple_env [1; 2]) (context_circuit "a" "x" [0%nat]) _ false [] _).
  vm_compute. reflexivity.
Defined.

(** One context: the two groups of switches of the program. *)
Lemma single_context_program_input_state_switches_witness :
  exists program log',
    @get_real_time_circuit simple_collaborators simple_reward simple_target (simple_env [1; 2])
      (inl (context_circuit "a" "x" [0%nat])) true [] = (inr program, log') /\
    exists input_state_inverses middle meas,
      comprehension (@inverse simple_collaborators)
        (@input_circuits simple_collaborators simple_reward) = inr input_state_inverses /\
      data program
      = OpReset (qubits (context_circuit "a" "x" [0%nat]))
          :: input_state_switches (@input_circuits simple_collaborators simple_reward)
               (qubits (context_circuit "a" "x" [0%nat]))
          ++ middle
          ++ input_state_switches input_state_inverses
               (GateTarget.causal_cone_qubits simple_target)
          ++ [OpMeasure (GateTarget.causal_cone_qubits simple_target) meas] /\
      (length (GateTarget.causal_cone_qubits simple_target)
       <= num_qubits (context_circuit "a" "x" [0%nat]))%nat.
Proof.
  eexists _, _. split; [vm_compute; reflexivity |].
  eapply (@single_context_program_input_state_switches simple_collaborators simple_reward
           simple_target (simple_env [1; 2]) (context_circuit "a" "x" [0%nat]) _ [] _).
  vm_compute. reflexivity.
Defined.

(** One context and the repetition counts 1 and 2. *)
Lemma single_context_program_distinct_counts_witness :
  exists program log',
    @get_real_time_circuit simple_collaborators simple_reward simple_target (simple_env [1; 2])
      (inl (context_circuit "a" "x" [0%nat])) false [] = (inr program, log') /\
    NoDup (n_reps (execution_config (simple_env [1; 2]))).
Proof.
  eexists _, _. split; [vm_compute; reflexivity |].
  eapply (@single_context_program_distinct_counts simple_collaborators simple_reward
            simple_target (simple_env [1; 2]) (context_circuit "a" "x" [0%nat]) _ false [] _).
  vm_compute. reflexivity.
Defined.

